(** * Wake-T: quasi-static r-z Baxevanis wakefield solver

    A shallow embedding of
    [wake_t/physics_models/plasma_wakefields/qs_rz_baxevanis/solver.py]
    and the properties of its driver loop, of the gamma/pz update and of
    the beam source.

    Conventions of the embedding.

    - Numbers.  The program computes with float64.  The embedding computes
      with exact rationals ([Qc], canonical fractions with Leibniz
      equality): rounding, overflow, [inf] and [nan] are outside the
      model, every other arithmetic step is the one of the source.
    - Division.  [update_gamma_and_pz] is compiled with [@njit], whose
      default error model is Python's: a float division by zero raises
      [ZeroDivisionError].  The divisions of [calculate_wakefields] and of
      [calculate_beam_source_from_particles] are NumPy divisions: a zero
      divisor yields [inf]/[nan] and a warning, no exception.  Exact
      rationals have no such values, so the embedding stops there with
      [NonFinite].
    - Arrays.  One-dimensional arrays are [list Qc], grids are lists of
      rows.  The per-particle arrays that the driver passes around by
      reference live in a store indexed by array names ([arr]); an in-place
      write replaces the contents of one name.
    - Routines of the package that live in other modules are the fields of
      the classes [BeamRoutines] and [PlasmaRoutines], over which the driver
      is parametric; each call the driver makes is recorded in a log,
      together with the arguments the properties talk about. *)

From Stdlib Require Import QArith Qcanon Lia.
From stdpp Require Import base list strings numbers functions sorting.

Open Scope Qc_scope.

(** ** Exceptions and results *)

Inductive exn :=
| ValueError (msg : string)
| ZeroDivisionError
| IndexError
| NonFinite.

Inductive result (A : Type) :=
| Ok (a : A)
| Raise (e : exn).
Arguments Ok {A} a.
Arguments Raise {A} e.

#[global] Instance result_ret : MRet result := fun A a => Ok a.
#[global] Instance result_bind : MBind result := fun A B f m =>
  match m with
  | Ok a => f a
  | Raise e => Raise e
  end.

(** ** Numbers *)

Definition half : Qc := Q2Qc (1 # 2).
Definition four : Qc := Q2Qc (4 # 1).

(** [x / y] under numba's Python error model. *)
Definition truediv (x y : Qc) : result Qc :=
  if decide (y = 0) then Raise ZeroDivisionError else Ok (x / y).

(** [x / y] on NumPy values.  On a zero divisor NumPy returns [inf] or
    [nan] with a warning and the program goes on; these values are outside
    the exact arithmetic of the embedding, which stops there with the
    marker [NonFinite].  A run of the embedding that returns is a run of
    the program in which no divisor is zero; of the runs of the program
    that go on with [inf] or [nan] the embedding says nothing. *)
Definition np_divide (x y : Qc) : result Qc :=
  if decide (y = 0) then Raise NonFinite else Ok (x / y).

Definition np_abs (x : Qc) : Qc := if decide (x < 0) then - x else x.

(** ** Arrays and the store of per-particle arrays *)

Definition getitem (l : list Qc) (i : nat) : result Qc :=
  match l !! i with
  | Some x => Ok x
  | None => Raise IndexError
  end.

(** The arrays owned by the [PlasmaParticles] object [pp]: its particle
    arrays and the field arrays handed out by [pp.get_field_arrays()]. *)
Inductive arr :=
| pp_r | pp_pr | pp_pz | pp_gamma | pp_q
| a2_pp | nabla_a2_pp | b_theta_0_pp | b_theta_pp
| psi_pp | dr_psi_pp | dxi_psi_pp.

#[global] Instance arr_eq_dec : EqDecision arr.
Proof. solve_decision. Defined.

Abbreviation store := (arr -> list Qc).

(** [a[i] = x], in place. *)
Definition setitem (s : store) (a : arr) (i : nat) (x : Qc) : result store :=
  if decide (i < length (s a))%nat
  then Ok (<[a := <[i := x]> (s a)]> s)
  else Raise IndexError.

(** ** [update_gamma_and_pz] *)

(** The two right-hand sides of the loop body, as expressions of the three
    values read at index [i]. *)
Definition gamma_num (pr a2 psi : Qc) : Qc := 1 + pr ^ 2 + a2 + (1 + psi) ^ 2.
Definition pz_num (pr a2 psi : Qc) : Qc := 1 + pr ^ 2 + a2 - (1 + psi) ^ 2.
Definition gamma_pz_den (psi : Qc) : Qc := 2 * (1 + psi).

(** One iteration of [for i in range(pr.shape[0])]: both assignments read
    their operands from the arrays as they are at that moment. *)
Definition update_body (gamma pz pr a2 psi : arr) (i : nat) (s : store)
  : result store :=
  pr_i ← getitem (s pr) i;
  a2_i ← getitem (s a2) i;
  psi_i ← getitem (s psi) i;
  g ← truediv (gamma_num pr_i a2_i psi_i) (gamma_pz_den psi_i);
  s1 ← setitem s gamma i g;
  pr_i ← getitem (s1 pr) i;
  a2_i ← getitem (s1 a2) i;
  psi_i ← getitem (s1 psi) i;
  z ← truediv (pz_num pr_i a2_i psi_i) (gamma_pz_den psi_i);
  setitem s1 pz i z.

Fixpoint update_loop (gamma pz pr a2 psi : arr) (range : list nat) (s : store)
  : result store :=
  match range with
  | [] => Ok s
  | i :: range' =>
      s' ← update_body gamma pz pr a2 psi i s;
      update_loop gamma pz pr a2 psi range' s'
  end.

Definition update_gamma_and_pz (gamma pz pr a2 psi : arr) (s : store)
  : result store :=
  update_loop gamma pz pr a2 psi (seq 0 (length (s pr))) s.

(** The closed forms of the specification. *)
Definition gamma_of (pr a2 psi : Qc) : Qc :=
  (1 + pr ^ 2 + a2 + (1 + psi) ^ 2) / (2 * (1 + psi)).
Definition pz_of (pr a2 psi : Qc) : Qc :=
  (1 + pr ^ 2 + a2 - (1 + psi) ^ 2) / (2 * (1 + psi)).

(** ** NumPy operations used by the solver *)

Abbreviation grid := (list (list Qc)).

Definition np_zeros (rows cols : nat) : grid := replicate rows (replicate cols 0).

Definition has_shape (g : grid) (rows cols : nat) : Prop :=
  length g = rows ∧ Forall (λ row, length row = cols) g.

(** [l[2:-2]]. *)
Definition inner {A} (l : list A) : list A := take (length l - 4) (drop 2 l).

(** [g[2:-2, 2:-2]]. *)
Definition interior (g : grid) : grid := inner <$> inner g.

(** [l[2:-2] = v] for a [v] of the length of the slice. *)
Definition assign_inner {A} (l v : list A) : list A :=
  imap (λ k x, if decide (2 ≤ k < length l - 2)%nat
               then default x (v !! (k - 2)%nat) else x) l.

(** [g[2:-2, 2:-2] = v].  The right-hand side must have the shape of the
    slice; NumPy's broadcasting of smaller right-hand sides is not
    modelled. *)
Definition set_interior (g v : grid) : result grid :=
  if decide (Forall2 (λ row vrow, length vrow = (length row - 4)%nat) (inner g) v)
  then Ok (imap (λ j row, if decide (2 ≤ j < length g - 2)%nat
                          then assign_inner row (default [] (v !! (j - 2)%nat))
                          else row) g)
  else Raise (ValueError "could not broadcast input array").

(** A Python index into a sequence of length [len]: negative indices count
    from the end. *)
Definition py_index (len : nat) (i : Z) : result nat :=
  if decide (0 ≤ i < Z.of_nat len)%Z then Ok (Z.to_nat i)
  else if decide (- Z.of_nat len ≤ i < 0)%Z then Ok (Z.to_nat (Z.of_nat len + i))
  else Raise IndexError.

Definition py_getitem (l : list Qc) (i : Z) : result Qc :=
  k ← py_index (length l) i; getitem l k.

(** [g[i, 2:-2] = v]. *)
Definition set_row_inner (g : grid) (i : Z) (v : list Qc) : result grid :=
  k ← py_index (length g) i;
  match g !! k with
  | Some row =>
      if decide (length v = (length row - 4)%nat)
      then Ok (<[k := assign_inner row v]> g)
      else Raise (ValueError "could not broadcast input array")
  | None => Raise IndexError
  end.

Definition Qc_of_nat (n : nat) : Qc := Qc_of_Z (Z.of_nat n).

(** [np.linspace(start, stop, num)]. *)
Definition np_linspace (start stop : Qc) (num : nat) : list Qc :=
  match num with
  | 1%nat => [start]
  | _ => (λ i, start + Qc_of_nat i * ((stop - start) / Qc_of_Z (Z.of_nat num - 1)))
           <$> seq 0 num
  end.

(** [np.cumsum] along a row. *)
Fixpoint cumsum_from (acc : Qc) (l : list Qc) : list Qc :=
  match l with
  | [] => []
  | x :: l' => (acc + x) :: cumsum_from (acc + x) l'
  end.

Definition np_cumsum (l : list Qc) : list Qc :=
  match l with
  | [] => []
  | x :: l' => x :: cumsum_from x l'
  end.

(** Element-wise operations.  Operands must have one length; broadcasting
    of length-one operands is not modelled. *)
Fixpoint np_map2 (f : Qc → Qc → result Qc) (a b : list Qc) : result (list Qc) :=
  match a, b with
  | [], [] => Ok []
  | x :: a', y :: b' =>
      z ← f x y; l ← np_map2 f a' b'; Ok (z :: l)
  | _, _ => Raise (ValueError "operands could not be broadcast together")
  end.

Fixpoint grid_map2 (f : Qc → Qc → result Qc) (a b : grid) : result grid :=
  match a, b with
  | [], [] => Ok []
  | x :: a', y :: b' =>
      z ← np_map2 f x y; l ← grid_map2 f a' b'; Ok (z :: l)
  | _, _ => Raise (ValueError "operands could not be broadcast together")
  end.

Definition total2 (f : Qc → Qc → Qc) : Qc → Qc → result Qc := λ x y, Ok (f x y).

(** A grid combined with a row vector, broadcast along the rows. *)
Fixpoint grid_rowwise (f : Qc → Qc → result Qc) (a : grid) (v : list Qc)
  : result grid :=
  match a with
  | [] => Ok []
  | x :: a' => z ← np_map2 f x v; l ← grid_rowwise f a' v; Ok (z :: l)
  end.

Definition grid_map (f : Qc → Qc) (g : grid) : grid :=
  (λ row : list Qc, f <$> row) <$> g.

(** [v / c] for an array [v] and a scalar [c]. *)
Definition np_divide_scalar (v : list Qc) (c : Qc) : result (list Qc) :=
  if decide (c = 0) then Raise NonFinite else Ok ((λ x, x / c) <$> v).

(** [a[:, 0] += b[:, 0] / 4] of the beam source. *)
Fixpoint add_quarter_first_column (a b : grid) : result grid :=
  match a, b with
  | [], [] => Ok []
  | ra :: a', rb :: b' =>
      x ← getitem ra 0; y ← getitem rb 0;
      l ← add_quarter_first_column a' b';
      Ok (<[0%nat := x + y / four]> ra :: l)
  | _, _ => Raise (ValueError "operands could not be broadcast together")
  end.

(** ** Routines of other modules *)

(** The scalar and array arguments of a beam deposition. *)
Record beam := {
  beam_x : list Qc;
  beam_y : list Qc;
  beam_xi : list Qc;
  beam_q : list Qc
}.

(** Modelled from the spec: [deposit_3d_distribution] (module
    [wake_t.particles.deposition]) is the one-time beam-to-grid deposition of
    section 4.6 (b); it accumulates into the grid it is given and, as the
    shape name is an input of it, may fail on it.  [plasma_skin_depth] is
    the length unit of section 6; [ct_e] and [np_pi] stand for
    [scipy.constants.e] and [np.pi]. *)
Class BeamRoutines := {
  plasma_skin_depth : Qc → Qc;
  ct_e : Qc;
  np_pi : Qc;
  deposit_3d_distribution :
    list Qc → list Qc → list Qc → list Qc → Qc → Qc → nat → nat → Qc → Qc →
    grid → string → bool → result grid;
  plasma_skin_depth_pos : ∀ n, 0 < n → 0 < plasma_skin_depth n;
  ct_e_pos : 0 < ct_e;
  np_pi_pos : 0 < np_pi;
  deposit_3d_distribution_shape :
    ∀ z x y w z_min r_min nz nr dz dr g p_shape ruyten g' rows cols,
      deposit_3d_distribution z x y w z_min r_min nz nr dz dr g p_shape ruyten
        = Ok g' →
      has_shape g rows cols → has_shape g' rows cols
}.

Definition million : Qc := Q2Qc (1000000 # 1).

(** ** [calculate_beam_source_from_particles] *)

(** Lines 236-253: the deposited charge distribution, guard cells removed. *)
Definition beam_charge_distribution `{BeamRoutines}
    (b : beam) (n_p : Qc) (n_r n_xi : nat) (r_min xi_min dr dxi : Qc)
    (p_shape : string) : result grid :=
  s_d ← (d ← np_divide n_p million; Ok (plasma_skin_depth d));
  xi_n ← np_divide_scalar (beam_xi b) s_d;
  x_n ← np_divide_scalar (beam_x b) s_d;
  y_n ← np_divide_scalar (beam_y b) s_d;
  w ← (w1 ← np_divide_scalar (Qcopp <$> beam_q b) ct_e;
       np_divide_scalar w1 (2 * np_pi * dr * dxi * s_d ^ 3 * n_p));
  let q_dist := np_zeros (n_xi + 4) (n_r + 4) in
  q_dist ← deposit_3d_distribution xi_n x_n y_n w xi_min r_min n_xi n_r dxi dr
             q_dist p_shape true;
  Ok (interior q_dist).

(** Lines 255-274: the magnetic field of a charge distribution. *)
Definition beam_field (q_dist : grid) (n_r n_xi : nat) (dr : Qc) : result grid :=
  let b_theta := np_zeros (n_xi + 4) (n_r + 4) in
  let r_grid_g := (λ k, (half + Qc_of_nat k) * dr) <$> seq 0 n_r in
  let subs := grid_map (λ x, x / 2) q_dist in
  subs ← add_quarter_first_column subs q_dist;
  v ← (d ← grid_map2 (total2 Qcminus) (np_cumsum <$> q_dist) subs;
       grid_rowwise np_divide (grid_map (λ x, x * dr) d) (np_abs <$> r_grid_g));
  set_interior b_theta v.

Definition calculate_beam_source_from_particles `{BeamRoutines}
    (b : beam) (n_p : Qc) (n_r n_xi : nat) (r_min xi_min dr dxi : Qc)
    (p_shape : string) : result grid :=
  q_dist ← beam_charge_distribution b n_p n_r n_xi r_min xi_min dr dxi p_shape;
  beam_field q_dist n_r n_xi dr.

(** ** The freeze step and the deposition weights *)

(** [np.where(a >= t)[0]]. *)
Definition np_where_ge (a : list Qc) (t : Qc) : list nat :=
  (filter (λ p : nat * Qc, t ≤ p.2) (zip (seq 0 (length a)) a)).*1.

(** [a[indices] = v]. *)
Fixpoint assign_at (a : list Qc) (indices : list nat) (v : Qc) : result (list Qc) :=
  match indices with
  | [] => Ok a
  | i :: rest =>
      if decide (i < length a)%nat then assign_at (<[i := v]> a) rest v
      else Raise IndexError
  end.

(** Lines 166-170 of [calculate_wakefields]. *)
Definition freeze (max_gamma : Qc) (s : store) : result store :=
  let idx_keep := np_where_ge (s pp_gamma) max_gamma in
  if decide (0 < length idx_keep)%nat then
    pz' ← assign_at (s pp_pz) idx_keep 0;
    let s := <[pp_pz := pz']> s in
    gamma' ← assign_at (s pp_gamma) idx_keep 1;
    let s := <[pp_gamma := gamma']> s in
    pr' ← assign_at (s pp_pr) idx_keep 0;
    Ok (<[pp_pr := pr']> s)
  else Ok s.

(** Lines 180-181: [w_rho = pp.q / (dr * pp.r * (1 - pp.pz/pp.gamma))] and
    [w_chi = w_rho / pp.gamma]. *)
Definition plasma_weights (dr : Qc) (s : store) : result (list Qc * list Qc) :=
  let dr_r := (λ r, dr * r) <$> s pp_r in
  vz ← np_map2 np_divide (s pp_pz) (s pp_gamma);
  den ← np_map2 (total2 Qcmult) dr_r ((λ v, 1 - v) <$> vz);
  w_rho ← np_map2 np_divide (s pp_q) den;
  w_chi ← np_map2 np_divide w_rho (s pp_gamma);
  Ok (w_rho, w_chi).

(** ** [np.gradient] with uniform spacing and [edge_order=2]

    NumPy's formulas: [out[1:-1] = (f[2:] - f[:-2]) / (2 * h)],
    [out[0] = (-1.5/h) f[0] + (2/h) f[1] + (-0.5/h) f[2]] and
    [out[-1] = (0.5/h) f[-3] + (-2/h) f[-2] + (1.5/h) f[-1]]; an axis shorter
    than [edge_order + 1] is rejected.  The same code serves both axes, rows
    taking the place of numbers along the first one. *)

Definition three_halves : Qc := Q2Qc (3 # 2).

Section Gradient.
Context {V : Type}.
Variable lin3 : Qc → Qc → Qc → V → V → V → V.
Variable diff_over : Qc → V → V → V.
Variable zero : V.

Definition gradient_along (f : list V) (h : Qc) : result (list V) :=
  let n := length f in
  if decide (n < 3)%nat then
    Raise (ValueError "Shape of array too small to calculate a numerical gradient, at least (edge_order + 1) elements are required.")
  else if decide (h = 0) then Raise NonFinite
  else
    let at_ k := default zero (f !! k) in
    Ok (imap (λ j _,
          if decide (j = 0)%nat then
            lin3 (- three_halves / h) (2 / h) (- half / h) (at_ 0%nat) (at_ 1%nat) (at_ 2%nat)
          else if decide (j = n - 1)%nat then
            lin3 (half / h) (- 2 / h) (three_halves / h)
                 (at_ (n - 3)%nat) (at_ (n - 2)%nat) (at_ (n - 1)%nat)
          else diff_over (2 * h) (at_ (j + 1)%nat) (at_ (j - 1)%nat)) f).
End Gradient.

Definition lin3_num (a b c x y z : Qc) : Qc := a * x + b * y + c * z.
Definition diff_over_num (d x y : Qc) : Qc := (x - y) / d.

Definition zip3 (f : Qc → Qc → Qc → Qc) (x y z : list Qc) : list Qc :=
  zip_with (λ p c, f p.1 p.2 c) (zip x y) z.
Definition lin3_row (a b c : Qc) (x y z : list Qc) : list Qc :=
  zip3 (lin3_num a b c) x y z.
Definition diff_over_row (d : Qc) (x y : list Qc) : list Qc :=
  zip_with (diff_over_num d) x y.

Fixpoint collect {A} (l : list (result A)) : result (list A) :=
  match l with
  | [] => Ok []
  | r :: l' => x ← r; xs ← collect l'; Ok (x :: xs)
  end.

(** [np.gradient(f, d0, d1, edge_order=2)] of a two-dimensional [f]. *)
Definition np_gradient (f : grid) (d0 d1 : Qc) : result (grid * grid) :=
  g0 ← gradient_along lin3_row diff_over_row [] f d0;
  g1 ← collect ((λ row, gradient_along lin3_num diff_over_num 0 row d1) <$> f);
  Ok (g0, g1).

(** ** The driver: state, collaborators and log *)

(** The [PlasmaParticles] object: the store of its arrays, the three scalar
    attributes the driver reads, and the work arrays of the pushers. *)
Record PlasmaParticles := {
  arrays : store;
  r_max_plasma : Qc;
  dr_p : Qc;
  parabolic_coefficient : Qc;
  pusher_arrays : list (list Qc)
}.

Definition with_arrays (p : PlasmaParticles) (s : store) : PlasmaParticles :=
  {| arrays := s; r_max_plasma := r_max_plasma p; dr_p := dr_p p;
     parabolic_coefficient := parabolic_coefficient p;
     pusher_arrays := pusher_arrays p |}.

(** All per-particle arrays have the length of [pp.r]. *)
Definition uniform (s : store) : Prop :=
  ∀ b, length (s b) = length (s pp_r).

Definition lengths3 (t : list Qc * list Qc * list Qc) (n : nat) : Prop :=
  length t.1.1 = n ∧ length t.1.2 = n ∧ length t.2 = n.

(** Modelled from the spec: the routines of sections 4.3 to 4.6 and the
    particle container of section 3, which live in other modules of the
    package.  Each is a function of the arguments the driver passes and
    yields the new contents of what it writes: the gather writes [a2_pp],
    [nabla_a2_pp] and [b_theta_0_pp]; the potential solver at the particles
    writes [psi_pp], [dr_psi_pp] and [dxi_psi_pp]; the magnetic-field solver
    at the particles writes [b_theta_pp]; the two solvers at the grid radii
    return a row; the plasma deposition accumulates into the grid it is
    given; a pusher advances the whole particle object.
    [new_plasma_particles] is the constructor followed by [initialize()].
    [np_argsort] is [np.argsort] with its default [kind]: it returns a
    fresh index array that sorts its argument, and promises nothing on the
    order of equal keys.  The number of particles is fixed at creation
    (section 3, lifecycle): every array of the particle object has that
    length and the routines that write them keep it. *)

Class PlasmaRoutines := {
  beam_routines :: BeamRoutines;
  new_plasma_particles : Qc → Qc → Qc → Qc → Z → string → PlasmaParticles;
  radial_gradient : grid → Qc → grid;
  gather_sources_qs_baxevanis :
    grid → grid → grid → Qc → Qc → Qc → Qc → Qc → Qc → list Qc → Qc →
    list Qc * list Qc * list Qc;
  np_argsort : list Qc → list nat;
  calculate_psi_and_derivatives_at_particles :
    list Qc → list Qc → list Qc → list nat → Qc → Qc → Qc →
    list Qc * list Qc * list Qc;
  calculate_b_theta_at_particles :
    list Qc → list Qc → list Qc → list Qc → list Qc → list Qc → list Qc →
    list Qc → list Qc → list nat → Qc → list Qc;
  calculate_psi :
    list Qc → list Qc → list Qc → list nat → Qc → Qc → list Qc;
  calculate_b_theta :
    list Qc → list Qc → list Qc → list Qc → list Qc → list Qc → list Qc →
    list Qc → list Qc → list Qc → list nat → list Qc;
  deposit_plasma_particles :
    Qc → list Qc → list Qc → Qc → Qc → nat → nat → Qc → Qc → grid → string →
    result grid;
  evolve_plasma_ab5 : PlasmaParticles → Qc → PlasmaParticles;
  evolve_plasma_rk4 :
    PlasmaParticles → Qc → Qc → grid → grid → grid → list Qc → list Qc →
    PlasmaParticles;
  np_argsort_perm : ∀ r, np_argsort r ≡ₚ seq 0 (length r);
  np_argsort_sorted : ∀ r i j a b x y,
    (i < j)%nat → np_argsort r !! i = Some a → np_argsort r !! j = Some b →
    r !! a = Some x → r !! b = Some y → x ≤ y;
  radial_gradient_shape : ∀ g d rows cols,
    has_shape g rows cols → has_shape (radial_gradient g d) rows cols;
  new_plasma_particles_uniform : ∀ rm rmp pc d c pusher,
    uniform (arrays (new_plasma_particles rm rmp pc d c pusher));
  gather_sources_length : ∀ a2 na2 b0 x0 x1 r0 r1 dx d r xi,
    lengths3 (gather_sources_qs_baxevanis a2 na2 b0 x0 x1 r0 r1 dx d r xi)
             (length r);
  calculate_psi_at_particles_length : ∀ r pr q idx rmp drp pc,
    lengths3 (calculate_psi_and_derivatives_at_particles r pr q idx rmp drp pc)
             (length r);
  calculate_b_theta_at_particles_length :
    ∀ r pr q g ps drps dxips b0 na2 idx drp,
      length (calculate_b_theta_at_particles r pr q g ps drps dxips b0 na2
                idx drp) = length r;
  evolve_plasma_ab5_uniform : ∀ p dx,
    uniform (arrays p) →
    uniform (arrays (evolve_plasma_ab5 p dx)) ∧
    length (arrays (evolve_plasma_ab5 p dx) pp_r) = length (arrays p pp_r);
  evolve_plasma_rk4_uniform : ∀ p dx xi a2 na2 b0 rf xf,
    uniform (arrays p) →
    uniform (arrays (evolve_plasma_rk4 p dx xi a2 na2 b0 rf xf)) ∧
    length (arrays (evolve_plasma_rk4 p dx xi a2 na2 b0 rf xf) pp_r)
      = length (arrays p pp_r);
  deposit_plasma_particles_shape :
    ∀ xi r w xi_min r_min nxi nr dxi dr g p_shape g' rows cols,
      deposit_plasma_particles xi r w xi_min r_min nxi nr dxi dr g p_shape
        = Ok g' →
      has_shape g rows cols → has_shape g' rows cols
}.

(** The calls the driver makes, in the order it makes them.  A call of a
    solver records the radii and the ordering it was given, a deposition the
    weights it was given. *)
Inductive event :=
| Gather (step : nat)
| Argsort (step : nat)
| PsiAtParticles (step : nat) (r : list Qc) (idx : list nat)
| UpdateGammaPz (step : nat)
| BThetaAtParticles (step : nat) (r : list Qc) (idx : list nat)
| Freeze (step : nat)
| PsiRow (step : nat) (r : list Qc) (idx : list nat)
| BThetaRow (step : nat) (r : list Qc) (idx : list nat)
| DepositRho (step : nat) (w : list Qc)
| DepositChi (step : nat) (w : list Qc)
| Push (step : nat) (pusher : string).

(** A run either completes or raises; in both cases the calls completed so
    far are known. *)
Inductive outcome (A : Type) :=
| Done (l : list event) (a : A)
| Failed (l : list event) (e : exn).
Arguments Done {A} l a.
Arguments Failed {A} l e.

#[global] Instance outcome_ret : MRet outcome := fun A a => Done [] a.
#[global] Instance outcome_bind : MBind outcome := fun A B f m =>
  match m with
  | Done l a =>
      match f a with
      | Done l' b => Done (l ++ l') b
      | Failed l' e => Failed (l ++ l') e
      end
  | Failed l e => Failed l e
  end.

Definition lift {A} (r : result A) : outcome A :=
  match r with
  | Ok a => Done [] a
  | Raise e => Failed [] e
  end.

Definition emit (ev : event) : outcome () := Done [ev] ().

(** The arguments of [calculate_wakefields].  Cell counts are natural
    numbers. *)
Record args := {
  laser_a2 : grid;
  beam_part : beam;
  r_max : Qc;
  xi_min : Qc;
  xi_max : Qc;
  n_r : nat;
  n_xi : nat;
  ppc : Z;
  n_p : Qc;
  r_max_plasma_arg : option Qc;
  parabolic_coefficient_arg : Qc;
  p_shape : string;
  max_gamma : Qc;
  plasma_pusher : string
}.

(** The local variables that are fixed once the sweep starts. *)
Record frame := {
  dr : Qc;
  dxi : Qc;
  xi_min_n : Qc;
  r_fld : list Qc;
  xi_fld : list Qc;
  a2_rz : grid;
  nabla_a2_rz : grid;
  b_theta_0_mesh : grid
}.

(** What the sweep changes. *)
Record state := {
  pp : PlasmaParticles;
  rho_rz : grid;
  chi_rz : grid;
  psi_rz : grid;
  b_theta_bar_rz : grid
}.

(** The seven values returned. *)
Record fields := {
  out_rho : grid;
  out_chi : grid;
  out_E_r : grid;
  out_E_z : grid;
  out_B_theta : grid;
  out_xi_fld : list Qc;
  out_r_fld : list Qc
}.

Definition micro : Qc := Q2Qc (1 # 1000000).

(** ** [calculate_wakefields] *)

Section Driver.
Context `{PlasmaRoutines}.

(** Lines 91-133: units, particles, grids, coordinates, beam source. *)
Definition prologue (a : args) : result (frame * state) :=
  let s_d := plasma_skin_depth (n_p a * micro) in
  r_max ← np_divide (r_max a) s_d;
  xi_min ← np_divide (xi_min a) s_d;
  xi_max ← np_divide (xi_max a) s_d;
  dr ← np_divide r_max (Qc_of_nat (n_r a));
  dxi ← np_divide (xi_max - xi_min) (Qc_of_Z (Z.of_nat (n_xi a) - 1));
  let parabolic_coefficient := parabolic_coefficient_arg a * s_d ^ 2 in
  r_max_plasma ← match r_max_plasma_arg a with
                 | None => Ok r_max
                 | Some x => np_divide x s_d
                 end;
  let pp := new_plasma_particles r_max r_max_plasma parabolic_coefficient dr
              (ppc a) (plasma_pusher a) in
  let a2_rz := np_zeros (n_xi a + 4) (n_r a + 4) in
  let nabla_a2_rz := np_zeros (n_xi a + 4) (n_r a + 4) in
  a2_rz ← set_interior a2_rz (laser_a2 a);
  nabla_a2_rz ← set_interior nabla_a2_rz (radial_gradient (laser_a2 a) dr);
  let zeros := np_zeros (n_xi a + 4) (n_r a + 4) in
  let r_fld := np_linspace (dr / 2) (r_max - dr / 2) (n_r a) in
  let xi_fld := np_linspace xi_min xi_max (n_xi a) in
  r0 ← getitem r_fld 0;
  xi0 ← getitem xi_fld 0;
  b_theta_0_mesh ← calculate_beam_source_from_particles
                     (beam_part a) (n_p a) (n_r a) (n_xi a) r0 xi0 dr dxi
                     (p_shape a);
  Ok ({| dr := dr; dxi := dxi; xi_min_n := xi_min; r_fld := r_fld;
         xi_fld := xi_fld; a2_rz := a2_rz; nabla_a2_rz := nabla_a2_rz;
         b_theta_0_mesh := b_theta_0_mesh |},
      {| pp := pp; rho_rz := zeros; chi_rz := zeros; psi_rz := zeros;
         b_theta_bar_rz := zeros |}).

(** Lines 137-170: gather, ordering, potential, gamma/pz update, magnetic
    field and freeze.  Returns [xi], [idx] and the particles. *)
Definition particle_steps (a : args) (f : frame) (step : nat)
    (p : PlasmaParticles) : outcome (Qc * list nat * PlasmaParticles) :=
  let i := (-1 - Z.of_nat step)%Z in
  xi ← lift (py_getitem (xi_fld f) i);
  xi_first ← lift (py_getitem (xi_fld f) 0);
  xi_last ← lift (py_getitem (xi_fld f) (-1));
  r_first ← lift (py_getitem (r_fld f) 0);
  r_last ← lift (py_getitem (r_fld f) (-1));
  let s := arrays p in
  let '(a2, nabla_a2, b_theta_0) :=
    gather_sources_qs_baxevanis (a2_rz f) (nabla_a2_rz f) (b_theta_0_mesh f)
      xi_first xi_last r_first r_last (dxi f) (dr f) (s pp_r) xi in
  let s := <[b_theta_0_pp := b_theta_0]>
             (<[nabla_a2_pp := nabla_a2]> (<[a2_pp := a2]> s)) in
  emit (Gather step);;
  let idx := np_argsort (s pp_r) in
  emit (Argsort step);;
  let '(psi, dr_psi, dxi_psi) :=
    calculate_psi_and_derivatives_at_particles (s pp_r) (s pp_pr) (s pp_q)
      idx (r_max_plasma p) (dr_p p) (parabolic_coefficient p) in
  let s := <[dxi_psi_pp := dxi_psi]>
             (<[dr_psi_pp := dr_psi]> (<[psi_pp := psi]> s)) in
  emit (PsiAtParticles step (s pp_r) idx);;
  s ← lift (update_gamma_and_pz pp_gamma pp_pz pp_pr a2_pp psi_pp s);
  emit (UpdateGammaPz step);;
  let b_theta :=
    calculate_b_theta_at_particles (s pp_r) (s pp_pr) (s pp_q) (s pp_gamma)
      (s psi_pp) (s dr_psi_pp) (s dxi_psi_pp) (s b_theta_0_pp)
      (s nabla_a2_pp) idx (dr_p p) in
  let s := <[b_theta_pp := b_theta]> s in
  emit (BThetaAtParticles step (s pp_r) idx);;
  s ← lift (freeze (max_gamma a) s);
  emit (Freeze step);;
  mret (xi, idx, with_arrays p s).

(** Lines 172-185: the slice's rows of [psi] and [b_theta_bar], and the
    deposition of [rho] and [chi]. *)
Definition field_steps (a : args) (f : frame) (step : nat) (xi : Qc)
    (idx : list nat) (st : state) : outcome state :=
  let i := (-1 - Z.of_nat step)%Z in
  let p := pp st in
  let s := arrays p in
  let row := calculate_psi (r_fld f) (s pp_r) (s pp_q) idx (r_max_plasma p)
               (parabolic_coefficient p) in
  psi ← lift (set_row_inner (psi_rz st) (i - 2) row);
  emit (PsiRow step (s pp_r) idx);;
  let row := calculate_b_theta (r_fld f) (s pp_r) (s pp_pr) (s pp_q)
               (s pp_gamma) (s psi_pp) (s dr_psi_pp) (s dxi_psi_pp)
               (s b_theta_0_pp) (s nabla_a2_pp) idx in
  b_theta_bar ← lift (set_row_inner (b_theta_bar_rz st) (i - 2) row);
  emit (BThetaRow step (s pp_r) idx);;
  '(w_rho, w_chi) ← lift (plasma_weights (dr f) s);
  r_first ← lift (py_getitem (r_fld f) 0);
  rho ← lift (deposit_plasma_particles xi (s pp_r) w_rho (xi_min_n f) r_first
                (n_xi a) (n_r a) (dxi f) (dr f) (rho_rz st) (p_shape a));
  emit (DepositRho step w_rho);;
  r_first ← lift (py_getitem (r_fld f) 0);
  chi ← lift (deposit_plasma_particles xi (s pp_r) w_chi (xi_min_n f) r_first
                (n_xi a) (n_r a) (dxi f) (dr f) (chi_rz st) (p_shape a));
  emit (DepositChi step w_chi);;
  mret {| pp := p; rho_rz := rho; chi_rz := chi; psi_rz := psi;
          b_theta_bar_rz := b_theta_bar |}.

(** Lines 187-197: the pusher, except after the last slice. *)
Definition advance (a : args) (f : frame) (step : nat) (xi : Qc)
    (p : PlasmaParticles) : outcome PlasmaParticles :=
  if decide (Z.of_nat step < Z.of_nat (n_xi a) - 1)%Z then
    if decide (plasma_pusher a = "ab5") then
      let p := evolve_plasma_ab5 p (dxi f) in
      emit (Push step "ab5");; mret p
    else if decide (plasma_pusher a = "rk4") then
      let p := evolve_plasma_rk4 p (dxi f) xi (a2_rz f) (nabla_a2_rz f)
                 (b_theta_0_mesh f) (r_fld f) (xi_fld f) in
      emit (Push step "rk4");; mret p
    else
      lift (Raise (ValueError
        ("Plasma pusher '" +:+ plasma_pusher a +:+ "' not recognized.")))
  else mret p.

Definition with_pp (st : state) (p : PlasmaParticles) : state :=
  {| pp := p; rho_rz := rho_rz st; chi_rz := chi_rz st; psi_rz := psi_rz st;
     b_theta_bar_rz := b_theta_bar_rz st |}.

(** The body of the main loop. *)
Definition slice (a : args) (f : frame) (step : nat) (st : state)
  : outcome state :=
  '(xi, idx, p) ← particle_steps a f step (pp st);
  st ← field_steps a f step xi idx (with_pp st p);
  p ← advance a f step xi (pp st);
  mret (with_pp st p).

(** [for step in np.arange(n_xi)]. *)
Fixpoint sweep (a : args) (f : frame) (steps : list nat) (st : state)
  : outcome state :=
  match steps with
  | [] => mret st
  | step :: steps' => st ← slice a f step st; sweep a f steps' st
  end.

(** Lines 199-205.  [E_z] and [W_r] are the zero arrays of lines 122-123,
    untouched by the sweep.  [W_r] is local; it is returned next to the
    seven values so that properties can name it. *)
Definition epilogue (a : args) (f : frame) (st : state)
  : result (grid * fields) :=
  '(dxi_psi, dr_psi) ← np_gradient (interior (psi_rz st)) (dxi f) (dr f);
  E_z ← set_interior (np_zeros (n_xi a + 4) (n_r a + 4))
          (grid_map Qcopp dxi_psi);
  W_r ← set_interior (np_zeros (n_xi a + 4) (n_r a + 4))
          (grid_map Qcopp dr_psi);
  B_theta ← grid_map2 (total2 Qcplus) (b_theta_bar_rz st) (b_theta_0_mesh f);
  E_r ← grid_map2 (total2 Qcplus) W_r B_theta;
  Ok (W_r,
      {| out_rho := rho_rz st; out_chi := chi_rz st; out_E_r := E_r;
         out_E_z := E_z; out_B_theta := B_theta; out_xi_fld := xi_fld f;
         out_r_fld := r_fld f |}).

Definition calculate_wakefields (a : args) : outcome fields :=
  '(f, st) ← lift (prologue a);
  st ← sweep a f (seq 0 (n_xi a)) st;
  '(_, out) ← lift (epilogue a f st);
  mret out.
End Driver.

(** ** A concrete instance of the collaborators

    Small total routines with the interface above, on which the driver can
    be run: three particles, two of them at one radius, the potential at
    each particle given by [psi_at], an index sort given by a merge sort
    of the keys. *)

Module Sample.
Definition by_value (p q : nat * Qc) : Prop := p.2 ≤ q.2.

#[global] Instance by_value_dec : RelDecision by_value.
Proof. intros p q. unfold by_value. apply _. Defined.

Definition argsort (r : list Qc) : list nat :=
  (merge_sort by_value (zip (seq 0 (length r)) r)).*1.

Definition sum_of (w : list Qc) : Qc := foldr Qcplus 0 w.

Definition known_shape (p_shape : string) : bool :=
  bool_decide (p_shape = "linear") || bool_decide (p_shape = "cubic").

Definition deposit (w : list Qc) (g : grid) (p_shape : string) : result grid :=
  if known_shape p_shape then Ok (grid_map (λ c, c + sum_of w) g)
  else Raise (ValueError ("Particle shape '" +:+ p_shape +:+ "' not recognized.")).

Definition zeros_like (l : list Qc) : list Qc := (λ _, 0) <$> l.

Definition particles (d : Qc) : store := λ b,
  match b with
  | pp_r => [Q2Qc (3 # 2) * d; Q2Qc (1 # 2) * d; Q2Qc (1 # 2) * d]
  | pp_gamma | pp_q => [1; 1; 1]
  | _ => [0; 0; 0]
  end.

Definition beam_model : BeamRoutines.
Proof.
  refine {| plasma_skin_depth := λ _, 1;
            ct_e := 1;
            np_pi := Q2Qc (22 # 7);
            deposit_3d_distribution :=
              λ z x y w z_min r_min nz nr dz dr g p_shape ruyten,
                deposit w g p_shape |}.
  - done.
  - done.
  - done.
  - intros z x y w z_min r_min nz nr dz dr g p_shape ruyten g' rows cols.
    unfold deposit. destruct (known_shape p_shape); [|done].
    intros [= <-] [Hr Hc]. split.
    + unfold grid_map. by rewrite length_fmap.
    + unfold grid_map. rewrite Forall_fmap. eapply Forall_impl; [done|].
      intros row Hrow. cbn. by rewrite length_fmap.
Defined.

Lemma by_value_trans : Transitive by_value.
Proof. intros p q r. unfold by_value. apply Qcle_trans. Qed.

Lemma by_value_total : Total by_value.
Proof. intros p q. unfold by_value. apply (total Qcle). Qed.

Lemma StronglySorted_lookup_lt {A} (R : relation A) (l : list A) i j x y :
  StronglySorted R l → (i < j)%nat →
  l !! i = Some x → l !! j = Some y → R x y.
Proof.
  intros Hs. revert i j. induction Hs as [|z l Hs IH Hall]; intros i j Hij Hi Hj.
  - done.
  - destruct j as [|j]; [lia|]. cbn in Hj. destruct i as [|i]; cbn in Hi.
    + simplify_eq. rewrite Forall_lookup in Hall. by eapply Hall.
    + eapply IH; [|done..]. lia.
Qed.

Lemma argsort_perm r : argsort r ≡ₚ seq 0 (length r).
Proof.
  unfold argsort. rewrite merge_sort_Permutation.
  rewrite fst_zip; [done|]. by rewrite length_seq.
Qed.

Lemma argsort_entry r i a :
  argsort r !! i = Some a →
  ∃ x, merge_sort by_value (zip (seq 0 (length r)) r) !! i = Some (a, x)
       ∧ r !! a = Some x.
Proof.
  unfold argsort. rewrite list_lookup_fmap.
  destruct (merge_sort _ _ !! i) as [[a' x]|] eqn:E; [|done].
  intros [= <-]. exists x. split; [done|].
  apply list_elem_of_lookup_2 in E.
  rewrite merge_sort_Permutation in E.
  apply list_elem_of_lookup in E as [k Hk].
  apply lookup_zip_with_Some in Hk as (u & v & [= <- <-] & Hu & Hv).
  apply lookup_seq in Hu as [-> _]. done.
Qed.

Lemma argsort_sorted r i j a b x y :
  (i < j)%nat → argsort r !! i = Some a → argsort r !! j = Some b →
  r !! a = Some x → r !! b = Some y → x ≤ y.
Proof.
  intros Hij Ha Hb Hx Hy.
  apply argsort_entry in Ha as (x' & Ha & Hx').
  apply argsort_entry in Hb as (y' & Hb & Hy').
  rewrite Hx in Hx'. rewrite Hy in Hy'. injection Hx' as <-. injection Hy' as <-.
  pose proof by_value_trans. pose proof by_value_total.
  change (by_value (a, x) (b, y)).
  eapply (StronglySorted_lookup_lt by_value); [|exact Hij|exact Ha|exact Hb].
  by apply StronglySorted_merge_sort.
Qed.

Definition routines (psi_at : Qc → Qc) : PlasmaRoutines.
Proof.
  refine {|
    beam_routines := beam_model;
    new_plasma_particles := λ rm rmp pc d c pusher,
      {| arrays := particles d; r_max_plasma := rmp; dr_p := d;
         parabolic_coefficient := pc; pusher_arrays := [] |};
    radial_gradient := λ g d, grid_map (λ _, 0) g;
    gather_sources_qs_baxevanis := λ a2 na2 b0 x0 x1 r0 r1 dx d r xi,
      (zeros_like r, zeros_like r, zeros_like r);
    np_argsort := argsort;
    calculate_psi_and_derivatives_at_particles := λ r pr q idx rmp drp pc,
      (psi_at <$> r, zeros_like r, zeros_like r);
    calculate_b_theta_at_particles :=
      λ r pr q g ps drps dxips b0 na2 idx drp, zeros_like r;
    calculate_psi := λ rf r q idx rmp pc, (λ x, x * x * sum_of q) <$> rf;
    calculate_b_theta :=
      λ rf r pr q g ps drps dxips b0 na2 idx, zeros_like rf;
    deposit_plasma_particles :=
      λ xi r w xi_min r_min nxi nr dxi dr g p_shape, deposit w g p_shape;
    evolve_plasma_ab5 := λ p dx, p;
    evolve_plasma_rk4 := λ p dx xi a2 na2 b0 rf xf, p |}.
  - apply argsort_perm.
  - apply argsort_sorted.
  - intros g d rows cols [Hr Hc]. unfold grid_map. split.
    + by rewrite length_fmap.
    + rewrite Forall_fmap. eapply Forall_impl; [done|].
      intros row Hrow. unfold compose. cbv beta in *. by rewrite length_fmap.
  - intros rm rmp pc d c pusher b. by destruct b.
  - intros. unfold lengths3, zeros_like. cbn. by rewrite !length_fmap.
  - intros. unfold lengths3, zeros_like. cbn. by rewrite !length_fmap.
  - intros. unfold zeros_like. by rewrite length_fmap.
  - done.
  - done.
  - intros xi r w xi_min r_min nxi nr dxi dr g p_shape g' rows cols.
    apply (deposit_3d_distribution_shape (BeamRoutines := beam_model)
             [] [] [] w 0 0 0%nat 0%nat 0 0 g p_shape true).
Defined.

Definition model : PlasmaRoutines := routines id.

(** The same routines with the potential [-3] at every particle. *)
Definition low_potential : PlasmaRoutines := routines (λ _, - Q2Qc 3).

Definition no_beam : beam :=
  {| beam_x := []; beam_y := []; beam_xi := []; beam_q := [] |}.

(** Three cells in each direction, no laser, no beam. *)
Definition inputs (r_max : Qc) (pusher : string) : args :=
  {| laser_a2 := np_zeros 3 3; beam_part := no_beam; r_max := r_max;
     xi_min := 0; xi_max := Q2Qc 2; n_r := 3; n_xi := 3; ppc := 2; n_p := 1;
     r_max_plasma_arg := None; parabolic_coefficient_arg := 0;
     p_shape := "cubic"; max_gamma := Q2Qc 10; plasma_pusher := pusher |}.

(** The frame and the state with which the sweep starts. *)
Definition start `{PlasmaRoutines} (a : args) : frame * state :=
  match prologue a with
  | Ok fs => fs
  | Raise _ =>
      ({| dr := 0; dxi := 0; xi_min_n := 0; r_fld := []; xi_fld := [];
          a2_rz := []; nabla_a2_rz := []; b_theta_0_mesh := [] |},
       {| pp := {| arrays := λ _, []; r_max_plasma := 0; dr_p := 0;
                   parabolic_coefficient := 0; pusher_arrays := [] |};
          rho_rz := []; chi_rz := []; psi_rz := []; b_theta_bar_rz := [] |})
  end.
End Sample.

(** ** Notions used in the statements *)

(** The sum of the charge weights of the particles. *)
Definition total_charge (s : store) : Qc := foldr Qcplus 0 (s pp_q).

(** Three particles, the first above the threshold 10 and the third on it. *)
Definition freeze_sample : store := λ b,
  match b with
  | pp_gamma => [Q2Qc 12; 1; Q2Qc 10]
  | pp_pz => [Q2Qc 11; 0; Q2Qc 9]
  | pp_pr => [Q2Qc 3; 0; Q2Qc 4]
  | pp_r => [Q2Qc (1 # 2); Q2Qc (3 # 2); Q2Qc (5 # 2)]
  | pp_q => [1; 1; 1]
  | _ => [0; 0; 0]
  end.

(** Two particles with potentials 1/3 and -1/2. *)
Definition update_sample : store := λ b,
  match b with
  | pp_gamma | pp_q => [1; 1]
  | pp_pr => [Q2Qc 2; 0]
  | a2_pp => [Q2Qc (1 # 2); 0]
  | psi_pp => [Q2Qc (1 # 3); - Q2Qc (1 # 2)]
  | _ => [0; 0]
  end.

(** The entry of a grid at row [j], column [k]. *)
Definition cell (g : grid) (j k : nat) : option Qc := g !! j ≫= (.!! k).

(** The sum of the entries of a row up to index [k], included. *)
Definition partial_sum (row : list Qc) (k : nat) : Qc :=
  foldr Qcplus 0 (take (S k) row).

(** The radii [np.abs(r_grid_g)]. *)
Definition abs_radii (n_r : nat) (dr : Qc) : list Qc :=
  np_abs <$> ((λ k, (half + Qc_of_nat k) * dr) <$> seq 0 n_r).

(** The row of [subs]: half of each entry, a quarter more of the first. *)
Definition subs_row (q : list Qc) : list Qc :=
  <[0%nat := default 0 (((λ x, x / 2) <$> q) !! 0%nat)
             + default 0 (q !! 0%nat) / four]> ((λ x, x / 2) <$> q).

(** The row of the field computed from the row [q] of the distribution. *)
Definition beam_row (n_r : nat) (dr : Qc) (q : list Qc) : list Qc :=
  zip_with Qcdiv ((λ x, x * dr) <$> zip_with Qcminus (np_cumsum q) (subs_row q))
           (abs_radii n_r dr).

(** A beam of two particles and its deposited distribution. *)
Definition beam_sample : beam :=
  {| beam_x := [0; Q2Qc (1 # 4)]; beam_y := [0; 0];
     beam_xi := [Q2Qc (1 # 2); 1]; beam_q := [- 1; - 2] |}.

Definition beam_sample_distribution : result grid :=
  beam_charge_distribution (H := Sample.beam_model) beam_sample 1 2 1
    (Q2Qc (1 # 4)) 0 (Q2Qc (1 # 2)) 1 "cubic".

(** The radii and the ordering that a solver call was given. *)
Definition ordering_of (ev : event) : option (list Qc * list nat) :=
  match ev with
  | PsiAtParticles _ r idx | BThetaAtParticles _ r idx
  | PsiRow _ r idx | BThetaRow _ r idx => Some (r, idx)
  | _ => None
  end.

(** [idx] lists every index of [r] once, by ascending radius. *)
Definition sorts (r : list Qc) (idx : list nat) : Prop :=
  idx ≡ₚ seq 0 (length r) ∧
  ∀ i j a b x y, (i < j)%nat → idx !! i = Some a → idx !! j = Some b →
                 r !! a = Some x → r !! b = Some y → x ≤ y.

(** Stability: particles at one radius come in storage order. *)
Definition keeps_ties (r : list Qc) (idx : list nat) : Prop :=
  ∀ i j a b x, (i < j)%nat → idx !! i = Some a → idx !! j = Some b →
               r !! a = Some x → r !! b = Some x → (a < b)%nat.

(** The message of the error raised on an unknown pusher name. *)
Definition pusher_message (pusher : string) : string :=
  "Plasma pusher '" +:+ pusher +:+ "' not recognized.".

(** The deposition accepts the shape name. *)
Definition accepts_shape `{BeamRoutines} (p_shape : string) : Prop :=
  ∀ z x y w z_min r_min nz nr dz dr g ruyten,
    ∃ g', deposit_3d_distribution z x y w z_min r_min nz nr dz dr g p_shape
            ruyten = Ok g'.

(** The calls that a run completed. *)
Definition log_of {A} (o : outcome A) : list event :=
  match o with
  | Done l _ | Failed l _ => l
  end.

(** Second-order differences of the samples [u 0 .. u (n - 1)] with spacing
    [h]: central inside, one-sided with three points at the two edges. *)
Definition second_order_difference (u : nat → Qc) (n : nat) (h : Qc) (j : nat) : Qc :=
  if decide (j = 0)%nat then
    (- Q2Qc 3 * u 0%nat + four * u 1%nat - u 2%nat) / (2 * h)
  else if decide (j = n - 1)%nat then
    (Q2Qc 3 * u (n - 1)%nat - four * u (n - 2)%nat + u (n - 3)%nat) / (2 * h)
  else (u (j + 1)%nat - u (j - 1)%nat) / (2 * h).

(** The four grids of the sweep have the shape of the grid with its guard
    cells. *)
Definition grids_shaped (a : args) (st : state) : Prop :=
  has_shape (psi_rz st) (n_xi a + 4) (n_r a + 4) ∧
  has_shape (b_theta_bar_rz st) (n_xi a + 4) (n_r a + 4) ∧
  has_shape (rho_rz st) (n_xi a + 4) (n_r a + 4) ∧
  has_shape (chi_rz st) (n_xi a + 4) (n_r a + 4).

(** The calls of a pusher in a log: the slice and the name of each. *)
Definition pushes (l : list event) : list (nat * string) :=
  omap (λ ev, match ev with
              | Push step pusher => Some (step, pusher)
              | _ => None
              end) l.

(** Two slices of three cells, no laser, no beam. *)
Definition two_slices : args :=
  {| laser_a2 := np_zeros 2 3; beam_part := Sample.no_beam; r_max := Q2Qc 3;
     xi_min := 0; xi_max := Q2Qc 2; n_r := 3; n_xi := 2; ppc := 2; n_p := 1;
     r_max_plasma_arg := None; parabolic_coefficient_arg := 0;
     p_shape := "cubic"; max_gamma := Q2Qc 10; plasma_pusher := "rk4" |}.

(** * Properties of [update_gamma_and_pz] *)

Section UpdateGammaPz.
Variables gamma pz pr a2 psi : arr.
Hypothesis gamma_pz : gamma ≠ pz.
Hypothesis gamma_in : gamma ≠ pr ∧ gamma ≠ a2 ∧ gamma ≠ psi.
Hypothesis pz_in : pz ≠ pr ∧ pz ≠ a2 ∧ pz ≠ psi.

Lemma den_nonzero (w : Qc) : 1 + w ≠ 0 → gamma_pz_den w ≠ 0.
Proof.
  unfold gamma_pz_den. intros Hw H.
  apply Qcmult_integral in H as [H|H]; [|done].
  discriminate H.
Qed.

Lemma update_body_ok (i : nat) (s : store) (p a w : Qc) :
  s pr !! i = Some p → s a2 !! i = Some a → s psi !! i = Some w →
  (i < length (s gamma))%nat → (i < length (s pz))%nat →
  1 + w ≠ 0 →
  ∃ s', update_body gamma pz pr a2 psi i s = Ok s' ∧
        s' gamma = <[i := gamma_of p a w]> (s gamma) ∧
        s' pz = <[i := pz_of p a w]> (s pz) ∧
        ∀ b, b ≠ gamma → b ≠ pz → s' b = s b.
Proof.
  intros Hp Ha Hw Hg Hz Hne.
  destruct gamma_in as (G1 & G2 & G3), pz_in as (Z1 & Z2 & Z3).
  unfold update_body, getitem. rewrite Hp, Ha, Hw. cbn.
  unfold truediv. destruct (decide (gamma_pz_den w = 0)) as [E|_];
    [by apply den_nonzero in E|]. cbn.
  unfold setitem at 2. destruct (decide (i < length (s gamma))%nat); [|lia]. cbn.
  rewrite !fn_lookup_insert_ne by done. rewrite Hp, Ha, Hw. cbn.
  destruct (decide (gamma_pz_den w = 0)) as [E|_];
    [by apply den_nonzero in E|]. cbn.
  unfold setitem. rewrite fn_lookup_insert_ne by done.
  destruct (decide (i < length (s pz))%nat); [|lia].
  eexists; split; [reflexivity|]. split; [|split].
  - rewrite fn_lookup_insert_ne by done. by rewrite fn_lookup_insert.
  - by rewrite fn_lookup_insert.
  - intros b Hb1 Hb2. by rewrite !fn_lookup_insert_ne.
Qed.

Lemma update_loop_ok (n : nat) : ∀ (m k : nat) (s : store),
  (k + m = n)%nat →
  length (s gamma) = n → length (s pz) = n → length (s pr) = n →
  length (s a2) = n → length (s psi) = n →
  Forall (λ w, 1 + w ≠ 0) (s psi) →
  ∃ s', update_loop gamma pz pr a2 psi (seq k m) s = Ok s' ∧
        (∀ b, b ≠ gamma → b ≠ pz → s' b = s b) ∧
        length (s' gamma) = n ∧ length (s' pz) = n ∧
        (∀ i p a w, (k ≤ i)%nat →
           s pr !! i = Some p → s a2 !! i = Some a → s psi !! i = Some w →
           s' gamma !! i = Some (gamma_of p a w) ∧
           s' pz !! i = Some (pz_of p a w)) ∧
        (∀ i, (i < k)%nat →
           s' gamma !! i = s gamma !! i ∧ s' pz !! i = s pz !! i).
Proof.
  destruct gamma_in as (G1 & G2 & G3), pz_in as (Z1 & Z2 & Z3).
  induction m as [|m IH]; intros k s Hk Lg Lz Lp La Lw Hpsi.
  - exists s. cbn. repeat split; try done.
    all: match goal with H : _ pr !! _ = Some _ |- _ =>
           apply lookup_lt_Some in H; lia end.
  - cbn [seq update_loop].
    destruct (lookup_lt_is_Some_2 (s pr) k) as [p Hp]; [lia|].
    destruct (lookup_lt_is_Some_2 (s a2) k) as [a Ha]; [lia|].
    destruct (lookup_lt_is_Some_2 (s psi) k) as [w Hw]; [lia|].
    assert (1 + w ≠ 0) as Hne.
    { rewrite Forall_lookup in Hpsi. by apply (Hpsi k). }
    destruct (update_body_ok k s p a w) as (s1 & -> & Eg & Ez & Eo);
      [done|done|done|lia|lia|done|].
    cbn.
    destruct (IH (S k) s1) as (s' & -> & Fo & Lg' & Lz' & Hin & Hout).
    + lia.
    + by rewrite Eg, length_insert.
    + by rewrite Ez, length_insert.
    + by rewrite Eo.
    + by rewrite Eo.
    + by rewrite Eo.
    + by rewrite Eo.
    + exists s'. split; [done|]. split; [|split; [done|split; [done|split]]].
      * intros b Hb1 Hb2. rewrite Fo by done. by apply Eo.
      * intros i p' a' w' Hi Hp' Ha' Hw'.
        destruct (decide (i = k)) as [->|Hik].
        -- destruct (Hout k) as [-> ->]; [lia|]. rewrite Eg, Ez.
           rewrite !list_lookup_insert_eq by lia. by simplify_eq.
        -- apply Hin; [lia|by rewrite Eo..].
      * intros i Hi. destruct (Hout i) as [-> ->]; [lia|]. rewrite Eg, Ez.
        by rewrite !list_lookup_insert_ne by lia.
Qed.

Lemma truediv_Ok (x y z : Qc) : truediv x y = Ok z → y ≠ 0 ∧ z = x / y.
Proof. unfold truediv. destruct (decide (y = 0)); [done|]. by intros [= <-]. Qed.

Lemma getitem_Ok (l : list Qc) (i : nat) (x : Qc) :
  getitem l i = Ok x → l !! i = Some x.
Proof. unfold getitem. destruct (l !! i); [|done]. by intros [= <-]. Qed.

Lemma setitem_Ok (s s' : store) (a : arr) (i : nat) (x : Qc) :
  setitem s a i x = Ok s' → (i < length (s a))%nat.
Proof. unfold setitem. by destruct (decide _). Qed.

(** An iteration that returns has read three values, the third not -1,
    and has written inside both output arrays. *)
Lemma update_body_inv (i : nat) (s s1 : store) :
  update_body gamma pz pr a2 psi i s = Ok s1 →
  ∃ p a w, s pr !! i = Some p ∧ s a2 !! i = Some a ∧ s psi !! i = Some w ∧
           1 + w ≠ 0 ∧ (i < length (s gamma))%nat ∧ (i < length (s pz))%nat.
Proof.
  destruct gamma_in as (G1 & G2 & G3), pz_in as (Z1 & Z2 & Z3).
  unfold update_body. intros Hb.
  destruct (getitem (s pr) i) as [p|] eqn:Ep; [|done].
  destruct (getitem (s a2) i) as [a|] eqn:Ea; [|done].
  destruct (getitem (s psi) i) as [w|] eqn:Ew; [|done]. cbn in Hb.
  destruct (truediv _ _) as [g|] eqn:Eg in Hb; [|done]. cbn in Hb.
  destruct (setitem s gamma i g) as [s0|] eqn:Es in Hb; [|done]. cbn in Hb.
  pose proof (setitem_Ok _ _ _ _ _ Es) as Lg.
  unfold setitem in Es. destruct (decide _) in Es; [|done].
  injection Es as <-. rewrite !fn_lookup_insert_ne in Hb by done.
  rewrite Ep, Ea, Ew in Hb. cbn in Hb.
  destruct (truediv _ _) as [z|] eqn:Ez in Hb; [|done]. cbn in Hb.
  apply setitem_Ok in Hb. rewrite fn_lookup_insert_ne in Hb by done.
  apply truediv_Ok in Eg as [Hden _].
  exists p, a, w. repeat split; try by apply getitem_Ok. 2,3: done.
  intros Hw. apply Hden. unfold gamma_pz_den. rewrite Hw. ring.
Qed.

(** Whenever the loop over [seq k m] returns, it has written the closed
    forms at the indices of the range and nothing else. *)
Lemma update_loop_inv : ∀ (m k : nat) (s s' : store),
  update_loop gamma pz pr a2 psi (seq k m) s = Ok s' →
  (∀ b, b ≠ gamma → b ≠ pz → s' b = s b) ∧
  (∀ b, length (s' b) = length (s b)) ∧
  (∀ i, (k ≤ i < k + m)%nat →
     ∃ p a w, s pr !! i = Some p ∧ s a2 !! i = Some a ∧ s psi !! i = Some w ∧
              1 + w ≠ 0 ∧ s' gamma !! i = Some (gamma_of p a w) ∧
              s' pz !! i = Some (pz_of p a w)) ∧
  (∀ i, ¬ (k ≤ i < k + m)%nat →
     s' gamma !! i = s gamma !! i ∧ s' pz !! i = s pz !! i).
Proof.
  destruct gamma_in as (G1 & G2 & G3), pz_in as (Z1 & Z2 & Z3).
  induction m as [|m IH]; intros k s s' Hl.
  - cbn in Hl. injection Hl as <-. repeat split; try done. intros i Hi. lia.
  - cbn [seq update_loop] in Hl.
    destruct (update_body gamma pz pr a2 psi k s) as [s1|] eqn:Eb; [|done].
    cbn in Hl.
    destruct (update_body_inv k s s1 Eb) as (p & a & w & Hp & Ha & Hw & Hne & Lg & Lz).
    destruct (update_body_ok k s p a w) as (s1' & Eb' & Eg & Ez & Eo); try done.
    rewrite Eb in Eb'. injection Eb' as <-.
    destruct (IH (S k) s1 s' Hl) as (Fo & Len & Hin & Hout).
    assert (∀ b, length (s1 b) = length (s b)) as Len1.
    { intros b. destruct (decide (b = gamma)) as [->|]; [by rewrite Eg, length_insert|].
      destruct (decide (b = pz)) as [->|]; [by rewrite Ez, length_insert|].
      by rewrite Eo. }
    split; [|split; [|split]].
    + intros b Hb1 Hb2. rewrite Fo by done. by apply Eo.
    + intros b. by rewrite Len, Len1.
    + intros i Hi. destruct (decide (i = k)) as [->|Hik].
      * exists p, a, w. repeat split; try done.
        -- destruct (Hout k) as [E _]; [lia|]. rewrite E, Eg.
           by apply list_lookup_insert_eq.
        -- destruct (Hout k) as [_ E]; [lia|]. rewrite E, Ez.
           by apply list_lookup_insert_eq.
      * destruct (Hin i) as (p' & a' & w' & Hp' & Ha' & Hw' & Hne' & Hg' & Hz'); [lia|].
        rewrite !Eo in * by done. by exists p', a', w'.
    + intros i Hi. destruct (Hout i) as [E1 E2]; [lia|]. rewrite E1, E2, Eg, Ez.
      by rewrite !list_lookup_insert_ne by lia.
Qed.

(** C1.  Called on arrays of one length and on names that do not alias
    (outputs [gamma], [pz] distinct from each other and from the inputs
    [pr], [a2], [psi]), with no [psi[i]] equal to -1, the update returns
    and, at every index [i], [gamma[i]] and [pz[i]] are the two closed
    forms evaluated at [pr[i]], [a2[i]], [psi[i]] alone; every array other
    than [gamma] and [pz] is left as it was. *)
Theorem update_gamma_and_pz_closed_form (s : store) :
  length (s gamma) = length (s pr) → length (s pz) = length (s pr) →
  length (s a2) = length (s pr) → length (s psi) = length (s pr) →
  Forall (λ w, 1 + w ≠ 0) (s psi) →
  ∃ s', update_gamma_and_pz gamma pz pr a2 psi s = Ok s' ∧
        (∀ i p a w,
           s pr !! i = Some p → s a2 !! i = Some a → s psi !! i = Some w →
           s' gamma !! i = Some (gamma_of p a w) ∧
           s' pz !! i = Some (pz_of p a w)) ∧
        length (s' gamma) = length (s pr) ∧
        length (s' pz) = length (s pr) ∧
        (∀ b, b ≠ gamma → b ≠ pz → s' b = s b).
Proof.
  intros Lg Lz La Lw Hpsi. unfold update_gamma_and_pz.
  destruct (update_loop_ok (length (s pr)) (length (s pr)) 0 s)
    as (s' & E & Fo & Lg' & Lz' & Hin & _); try done.
  exists s'. repeat split; try done.
  all: intros; eapply Hin; eauto; lia.
Qed.
End UpdateGammaPz.

(** * Properties of the freeze step *)

Lemma np_where_ge_spec (a : list Qc) (t : Qc) (i : nat) :
  i ∈ np_where_ge a t ↔ ∃ x, a !! i = Some x ∧ t ≤ x.
Proof.
  unfold np_where_ge. rewrite list_elem_of_fmap. split.
  - intros ([k x] & -> & Hin). apply list_elem_of_filter in Hin as [Hle Hin].
    apply list_elem_of_lookup in Hin as [j Hj].
    apply lookup_zip_with_Some in Hj as (u & v & [= <- <-] & Hu & Hv).
    apply lookup_seq in Hu as [-> _]. eauto.
  - intros (x & Hx & Hle). exists (i, x). split; [done|].
    apply list_elem_of_filter. split; [done|].
    apply list_elem_of_lookup. exists i.
    apply lookup_zip_with_Some. exists i, x. split; [done|]. split; [|done].
    apply lookup_seq. split; [done|]. by apply lookup_lt_Some in Hx.
Qed.

Lemma assign_at_ok (v : Qc) (indices : list nat) : ∀ a : list Qc,
  Forall (λ i, i < length a)%nat indices →
  ∃ a', assign_at a indices v = Ok a' ∧ length a' = length a ∧
        ∀ i, (i ∈ indices → a' !! i = Some v) ∧ (i ∉ indices → a' !! i = a !! i).
Proof.
  induction indices as [|k indices IH]; intros a Hall.
  - exists a. split; [done|]. split; [done|]. intros i.
    split; [by intros ?%elem_of_nil|done].
  - apply Forall_cons in Hall as [Hk Hall]. cbn.
    destruct (decide (k < length a)%nat); [|lia].
    destruct (IH (<[k := v]> a)) as (a' & -> & Hlen & Hin).
    { by rewrite length_insert. }
    exists a'. rewrite length_insert in Hlen. split; [done|]. split; [done|].
    intros i. split.
    + intros Hi. destruct (decide (i ∈ indices)) as [Hi'|Hi'].
      * by apply Hin.
      * apply elem_of_cons in Hi as [->|Hi]; [|done].
        destruct (Hin k) as [_ Hk']. rewrite Hk' by done.
        by apply list_lookup_insert_eq.
    + intros Hi. apply not_elem_of_cons in Hi as [Hik Hi].
      destruct (Hin i) as [_ Hi']. rewrite Hi' by done.
      by apply list_lookup_insert_ne.
Qed.

Lemma np_where_ge_bound (a : list Qc) (t : Qc) :
  Forall (λ i, i < length a)%nat (np_where_ge a t).
Proof.
  apply Forall_forall. intros i Hi. apply np_where_ge_spec in Hi as (x & Hx & _).
  by apply lookup_lt_Some in Hx.
Qed.

(** What the freeze step does to a store whose momenta and [gamma] have one
    length. *)
Lemma freeze_ok (max_gamma : Qc) (s : store) :
  length (s pp_pz) = length (s pp_gamma) →
  length (s pp_pr) = length (s pp_gamma) →
  ∃ s', freeze max_gamma s = Ok s' ∧
        (∀ i g, s pp_gamma !! i = Some g → max_gamma ≤ g →
           s' pp_gamma !! i = Some 1 ∧ s' pp_pz !! i = Some 0 ∧
           s' pp_pr !! i = Some 0) ∧
        (∀ i g, s pp_gamma !! i = Some g → g < max_gamma →
           s' pp_gamma !! i = Some g ∧ s' pp_pz !! i = s pp_pz !! i ∧
           s' pp_pr !! i = s pp_pr !! i) ∧
        (∀ b, b ≠ pp_pz → b ≠ pp_gamma → b ≠ pp_pr → s' b = s b) ∧
        (∀ b, length (s' b) = length (s b)).
Proof.
  intros Lz Lr. unfold freeze.
  pose proof (np_where_ge_bound (s pp_gamma) max_gamma) as Hb.
  pose proof (np_where_ge_spec (s pp_gamma) max_gamma) as Hspec.
  set (keep := np_where_ge (s pp_gamma) max_gamma) in *.
  destruct (decide (0 < length keep)%nat) as [Hne|He].
  - destruct (assign_at_ok 0 keep (s pp_pz)) as (pz' & -> & Lpz & Hpz).
    { by rewrite Lz. }
    cbn. rewrite fn_lookup_insert_ne by done.
    destruct (assign_at_ok 1 keep (s pp_gamma)) as (g' & -> & Lg & Hg); [done|].
    cbn. rewrite !fn_lookup_insert_ne by done.
    destruct (assign_at_ok 0 keep (s pp_pr)) as (pr' & -> & Lpr & Hpr).
    { by rewrite Lr. }
    cbn. eexists. split; [done|].
    rewrite fn_lookup_insert.
    rewrite (fn_lookup_insert_ne _ pp_pr pp_gamma), fn_lookup_insert by done.
    rewrite (fn_lookup_insert_ne _ pp_pr pp_pz) by done.
    rewrite (fn_lookup_insert_ne _ pp_gamma pp_pz), fn_lookup_insert by done.
    split; [|split; [|split]].
    + intros i g Hi Hle. assert (i ∈ keep) as Hin by (apply Hspec; eauto).
      split; [by apply Hg|]. split; [by apply Hpz|by apply Hpr].
    + intros i g Hi Hlt. assert (i ∉ keep) as Hin.
      { intros (x & Hx & Hle)%Hspec. simplify_eq. by apply Qclt_not_le in Hlt. }
      split; [|split].
      * destruct (Hg i) as [_ Hi']. by rewrite Hi'.
      * by apply Hpz.
      * by apply Hpr.
    + intros b B1 B2 B3. by rewrite !fn_lookup_insert_ne.
    + intros b. destruct (decide (b = pp_pr)) as [->|B3].
      { by rewrite fn_lookup_insert. }
      rewrite fn_lookup_insert_ne by done.
      destruct (decide (b = pp_gamma)) as [->|B2].
      { by rewrite fn_lookup_insert. }
      rewrite fn_lookup_insert_ne by done.
      destruct (decide (b = pp_pz)) as [->|B1].
      { by rewrite fn_lookup_insert. }
      by rewrite fn_lookup_insert_ne.
  - exists s. split; [done|].
    assert (keep = []) as Hk by (destruct keep; [done|cbn in He; lia]).
    split; [|split; [|split]]; try done.
    + intros i g Hi Hle. assert (i ∈ keep) as Hin by (apply Hspec; eauto).
      rewrite Hk in Hin. by apply elem_of_nil in Hin.
Qed.

(** * Algebra of the closed forms *)

Lemma Qc_square_nonneg (x : Qc) : 0 ≤ x * x.
Proof.
  destruct (Qclt_le_dec x 0) as [Hneg|Hpos].
  - replace (x * x) with ((- x) * (- x)) by ring.
    assert (0 ≤ - x) as Hx.
    { apply Qclt_le_weak in Hneg. apply Qcopp_le_compat in Hneg.
      by replace (- 0) with 0 in Hneg by ring. }
    by apply Qcmult_nonneg_nonneg.
  - by apply Qcmult_nonneg_nonneg.
Qed.

Lemma gamma_minus_pz_closed (p a w : Qc) :
  1 + w ≠ 0 → gamma_of p a w - pz_of p a w = 1 + w.
Proof. intros Hw. unfold gamma_of, pz_of. cbn. field. done. Qed.

Lemma gamma_of_ge_1 (p a w : Qc) :
  0 < 1 + w → 0 ≤ a → 1 ≤ gamma_of p a w.
Proof.
  intros Hw Ha. unfold gamma_of.
  assert (0 < 2 * (1 + w)) as Hden by (by apply Qcmult_pos_pos).
  apply (Qcmult_le_mono_pos_r _ _ (2 * (1 + w))); [done|].
  unfold Qcdiv. rewrite <- Qcmult_assoc, Qcmult_inv_l, Qcmult_1_r, Qcmult_1_l.
  2: { intros E. rewrite E in Hden. by apply Qclt_not_eq in Hden. }
  apply Qcle_minus_iff.
  replace (1 + p ^ 2 + a + (1 + w) ^ 2 + - (2 * (1 + w)))
    with (w * w + p * p + a) by (cbn; ring).
  repeat apply Qcplus_nonneg_nonneg; auto using Qc_square_nonneg.
Qed.

(** For [1 + psi < 0] the closed form is negative. *)
Lemma gamma_of_negative (p a w : Qc) :
  1 + w < 0 → 0 ≤ a → gamma_of p a w < 0.
Proof.
  intros Hw Ha. unfold gamma_of.
  assert (0 < - (2 * (1 + w))) as Hden.
  { replace (- (2 * (1 + w))) with (2 * - (1 + w)) by ring.
    apply Qcmult_pos_pos; [done|]. apply Qclt_minus_iff in Hw.
    by rewrite Qcplus_0_l in Hw. }
  assert (2 * (1 + w) ≠ 0) as Hne.
  { intros E. rewrite E in Hden. by apply Qclt_not_eq in Hden. }
  apply (Qcmult_lt_mono_pos_r _ _ (- (2 * (1 + w)))); [done|].
  replace ((1 + p ^ 2 + a + (1 + w) ^ 2) / (2 * (1 + w)) * - (2 * (1 + w)))
    with (- (1 + p ^ 2 + a + (1 + w) ^ 2)).
  2: { field. split; [by apply Qclt_not_eq|done]. }
  rewrite Qcmult_0_l. apply Qclt_minus_iff.
  replace (0 + - - (1 + p ^ 2 + a + (1 + w) ^ 2))
    with (1 + (p * p + a + (1 + w) * (1 + w))) by (cbn; ring).
  apply Qcplus_pos_nonneg; [done|].
  repeat apply Qcplus_nonneg_nonneg; auto using Qc_square_nonneg.
Qed.

(** * The freeze step: frame and charge *)

(** C7.  On particle arrays of one length the freeze step returns; a
    particle whose [gamma] reaches the threshold ([gamma >= max_gamma], the
    comparison of the source) gets [pz = 0], [pr = 0] and [gamma = 1]; a
    particle below the threshold keeps its [gamma], [pz] and [pr]; every
    other array, [r] and [q] among them, is untouched; no array changes
    length; the total charge is the same before and after. *)
Theorem freeze_frame (max_gamma : Qc) (s : store) :
  length (s pp_pz) = length (s pp_gamma) →
  length (s pp_pr) = length (s pp_gamma) →
  ∃ s', freeze max_gamma s = Ok s' ∧
        (∀ i g, s pp_gamma !! i = Some g → max_gamma ≤ g →
           s' pp_gamma !! i = Some 1 ∧ s' pp_pz !! i = Some 0 ∧
           s' pp_pr !! i = Some 0) ∧
        (∀ i g, s pp_gamma !! i = Some g → g < max_gamma →
           s' pp_gamma !! i = s pp_gamma !! i ∧ s' pp_pz !! i = s pp_pz !! i ∧
           s' pp_pr !! i = s pp_pr !! i) ∧
        s' pp_r = s pp_r ∧ s' pp_q = s pp_q ∧
        (∀ b, b ≠ pp_pz → b ≠ pp_gamma → b ≠ pp_pr → s' b = s b) ∧
        (∀ b, length (s' b) = length (s b)) ∧
        total_charge s' = total_charge s.
Proof.
  intros Lz Lr.
  destruct (freeze_ok max_gamma s Lz Lr) as (s' & E & Hfrozen & Hkept & Hframe & Hlen).
  exists s'. split; [done|]. split; [done|]. split.
  { intros i g Hi Hlt. destruct (Hkept i g Hi Hlt) as (-> & -> & ->). by rewrite Hi. }
  assert (s' pp_q = s pp_q) as Hq by (by apply Hframe).
  split; [by apply Hframe|]. split; [done|]. split; [done|]. split; [done|].
  unfold total_charge. by rewrite Hq.
Qed.

Lemma freeze_frame_witness :
  ∃ s', freeze (Q2Qc 10) freeze_sample = Ok s' ∧
        s' pp_r = freeze_sample pp_r ∧
        total_charge s' = total_charge freeze_sample.
Proof.
  destruct (freeze_frame (Q2Qc 10) freeze_sample)
    as (s' & E & _ & _ & Hr & _ & _ & _ & Hq); [reflexivity|reflexivity|].
  exists s'. split; [exact E|]. split; [exact Hr|exact Hq].
Defined.

(** * The identity between [gamma] and [pz] *)

(** C10.  Whenever the update of a slice returns, which it does on arrays
    of one length when no [psi[i]] is -1, every index in range satisfies
    [gamma[i] - pz[i] = 1 + psi[i]]; after the freeze step every frozen
    particle satisfies [gamma - pz = 1]. *)
Theorem gamma_minus_pz (max_gamma : Qc) (s : store) :
  uniform s →
  (Forall (λ w, 1 + w ≠ 0) (s psi_pp) →
   ∃ s', update_gamma_and_pz pp_gamma pp_pz pp_pr a2_pp psi_pp s = Ok s') ∧
  (∀ s', update_gamma_and_pz pp_gamma pp_pz pp_pr a2_pp psi_pp s = Ok s' →
     ∀ i, (i < length (s pp_r))%nat →
       ∃ g z w, s' pp_gamma !! i = Some g ∧ s' pp_pz !! i = Some z ∧
                s psi_pp !! i = Some w ∧ 1 + w ≠ 0 ∧ g - z = 1 + w) ∧
  (∃ s', freeze max_gamma s = Ok s' ∧
     ∀ i g, s pp_gamma !! i = Some g → max_gamma ≤ g →
       ∃ g' z', s' pp_gamma !! i = Some g' ∧ s' pp_pz !! i = Some z' ∧
                g' - z' = 1).
Proof.
  intros Hu. split; [|split].
  - intros Hpsi.
    destruct (update_loop_ok pp_gamma pp_pz pp_pr a2_pp psi_pp)
      with (n := length (s pp_pr)) (m := length (s pp_pr)) (k := 0%nat) (s := s)
      as (s' & E & _); try done.
    1-4: by rewrite !Hu.
    by exists s'.
  - intros s' E i Hi. unfold update_gamma_and_pz in E.
    apply update_loop_inv in E as (_ & _ & Hin & _); try done.
    destruct (Hin i) as (p & a & w & _ & _ & Hw & Hne & Hg & Hz).
    { rewrite (Hu pp_pr). lia. }
    exists (gamma_of p a w), (pz_of p a w), w. repeat split; try done.
    by apply gamma_minus_pz_closed.
  - destruct (freeze_ok max_gamma s) as (s' & E & Hfrozen & _); [by rewrite !Hu..|].
    exists s'. split; [done|]. intros i g Hi Hle.
    destruct (Hfrozen i g Hi Hle) as (Hg & Hz & _).
    exists 1, 0. split; [done|]. split; [done|]. ring.
Qed.

Lemma gamma_minus_pz_witness :
  ∃ s', update_gamma_and_pz pp_gamma pp_pz pp_pr a2_pp psi_pp update_sample = Ok s'.
Proof.
  assert (uniform update_sample) as Hu by (intros b; destruct b; reflexivity).
  destruct (gamma_minus_pz (Q2Qc 10) update_sample Hu) as (Hret & _).
  apply Hret. repeat constructor; discriminate.
Defined.

Lemma update_gamma_and_pz_closed_form_witness :
  ∃ s', update_gamma_and_pz pp_gamma pp_pz pp_pr a2_pp psi_pp update_sample = Ok s' ∧
        s' pp_pr = update_sample pp_pr.
Proof.
  destruct (update_gamma_and_pz_closed_form pp_gamma pp_pz pp_pr a2_pp psi_pp)
    with (s := update_sample) as (s' & E & _ & _ & _ & Hframe).
  - discriminate.
  - repeat split; discriminate.
  - repeat split; discriminate.
  - reflexivity.
  - reflexivity.
  - reflexivity.
  - reflexivity.
  - repeat constructor; discriminate.
  - exists s'. split; [exact E|]. apply Hframe; discriminate.
Defined.

(** * Properties of the array operations *)

Lemma np_zeros_shape (rows cols : nat) : has_shape (np_zeros rows cols) rows cols.
Proof.
  unfold np_zeros. split; [by rewrite length_replicate|].
  apply Forall_replicate. by rewrite length_replicate.
Qed.

Lemma np_zeros_cell (rows cols j k : nat) :
  (j < rows)%nat → (k < cols)%nat → cell (np_zeros rows cols) j k = Some 0.
Proof.
  intros Hj Hk. unfold cell, np_zeros.
  rewrite lookup_replicate_2 by done. cbn. by rewrite lookup_replicate_2.
Qed.

Lemma has_shape_row (g : grid) (rows cols j : nat) (row : list Qc) :
  has_shape g rows cols → g !! j = Some row → length row = cols.
Proof. intros [_ Hc] Hj. rewrite Forall_lookup in Hc. by eapply Hc. Qed.

Lemma has_shape_cell (g : grid) (rows cols j k : nat) :
  has_shape g rows cols → (j < rows)%nat → (k < cols)%nat →
  ∃ x, cell g j k = Some x.
Proof.
  intros Hs Hj Hk. destruct (lookup_lt_is_Some_2 g j) as [row Hrow].
  { destruct Hs as [-> _]. done. }
  destruct (lookup_lt_is_Some_2 row k) as [x Hx].
  { by rewrite (has_shape_row g rows cols j row). }
  exists x. unfold cell. by rewrite Hrow.
Qed.

Lemma inner_length {A} (l : list A) : length (inner l) = (length l - 4)%nat.
Proof. unfold inner. rewrite length_take, length_drop. lia. Qed.

Lemma inner_lookup {A} (l : list A) (k : nat) :
  (k < length l - 4)%nat → inner l !! k = l !! (k + 2)%nat.
Proof.
  intros Hk. unfold inner. rewrite lookup_take_lt by done.
  rewrite lookup_drop. f_equal. lia.
Qed.

Lemma Forall_inner {A} (P : A → Prop) (l : list A) :
  Forall P l → Forall P (inner l).
Proof. intros Hl. unfold inner. by apply Forall_take, Forall_drop. Qed.

Lemma interior_shape (g : grid) (rows cols : nat) :
  has_shape g (rows + 4) (cols + 4) → has_shape (interior g) rows cols.
Proof.
  intros [Hr Hc]. unfold interior. split.
  - rewrite length_fmap, inner_length. lia.
  - rewrite Forall_fmap. apply Forall_inner. eapply Forall_impl; [done|].
    intros row Hrow. unfold compose. cbv beta in *. rewrite inner_length. lia.
Qed.

Lemma interior_cell (g : grid) (rows cols j k : nat) :
  has_shape g (rows + 4) (cols + 4) → (j < rows)%nat → (k < cols)%nat →
  cell (interior g) j k = cell g (j + 2) (k + 2).
Proof.
  intros Hs Hj Hk. unfold cell, interior. rewrite list_lookup_fmap.
  rewrite inner_lookup by (destruct Hs as [-> _]; lia).
  destruct (g !! (j + 2)%nat) as [row|] eqn:Erow; [|done]. cbn.
  apply inner_lookup. rewrite (has_shape_row g _ _ _ row Hs Erow). lia.
Qed.

Lemma assign_inner_length {A} (l v : list A) :
  length (assign_inner l v) = length l.
Proof. unfold assign_inner. by rewrite length_imap. Qed.

Lemma assign_inner_lookup_in {A} (l v : list A) (k : nat) :
  length v = (length l - 4)%nat → (k < length v)%nat →
  assign_inner l v !! (k + 2)%nat = v !! k.
Proof.
  intros Hv Hk. unfold assign_inner. rewrite list_lookup_imap.
  destruct (lookup_lt_is_Some_2 l (k + 2)) as [x ->]; [lia|]. cbn.
  destruct (decide _) as [_|Hn]; [|lia].
  replace (k + 2 - 2)%nat with k by lia.
  by destruct (lookup_lt_is_Some_2 v k Hk) as [y ->].
Qed.

Lemma assign_inner_lookup_out {A} (l v : list A) (k : nat) :
  (k < 2 ∨ length l - 2 ≤ k)%nat → assign_inner l v !! k = l !! k.
Proof.
  intros Hk. unfold assign_inner. rewrite list_lookup_imap.
  destruct (l !! k) as [x|]; [|done]. cbn.
  destruct (decide _) as [Hn|_]; [lia|done].
Qed.

Lemma set_interior_ok (g v : grid) (rows cols : nat) :
  has_shape g (rows + 4) (cols + 4) → has_shape v rows cols →
  ∃ g', set_interior g v = Ok g'.
Proof.
  intros Hg [Hr Hc]. unfold set_interior.
  destruct (decide _) as [_|Hn]; [by eexists|]. destruct Hn.
  apply Forall2_same_length_lookup. split.
  - rewrite inner_length. destruct Hg as [-> _]. lia.
  - intros j row vrow Hrow Hvrow.
    rewrite Forall_lookup in Hc. rewrite (Hc _ _ Hvrow).
    apply list_elem_of_lookup_2 in Hrow.
    pose proof (Forall_inner _ _ (proj2 Hg)) as Hin.
    rewrite Forall_forall in Hin. rewrite (Hin _ Hrow). lia.
Qed.

Lemma set_interior_spec (g v g' : grid) (rows cols : nat) :
  has_shape g (rows + 4) (cols + 4) → set_interior g v = Ok g' →
  has_shape v rows cols ∧ has_shape g' (rows + 4) (cols + 4) ∧
  (∀ j k, (j < rows)%nat → (k < cols)%nat →
     cell g' (j + 2) (k + 2) = cell v j k) ∧
  (∀ j k, (j < 2 ∨ rows + 2 ≤ j ∨ k < 2 ∨ cols + 2 ≤ k)%nat →
     cell g' j k = cell g j k).
Proof.
  intros Hg. unfold set_interior.
  destruct (decide _) as [Hf|]; [|done]. intros [= <-].
  pose proof (Forall2_length _ _ _ Hf) as Hlen. rewrite inner_length in Hlen.
  destruct Hg as [Hr Hc].
  assert (has_shape v rows cols) as Hv.
  { split; [lia|]. apply Forall_lookup. intros j vrow Hvrow.
    destruct (lookup_lt_is_Some_2 (inner g) j) as [row Hrow].
    { rewrite inner_length. apply lookup_lt_Some in Hvrow. lia. }
    rewrite (Forall2_lookup_lr _ _ _ _ _ _ Hf Hrow Hvrow).
    apply list_elem_of_lookup_2 in Hrow.
    pose proof (Forall_inner _ _ Hc) as Hin.
    rewrite Forall_forall in Hin. rewrite (Hin _ Hrow). lia. }
  split; [done|]. split; [|split].
  - split; [by rewrite length_imap|].
    apply Forall_lookup. intros j row. rewrite list_lookup_imap.
    destruct (g !! j) as [row0|] eqn:Erow; [|done]. cbn. intros [= <-].
    rewrite Forall_lookup in Hc.
    destruct (decide _); [rewrite assign_inner_length|]; by eapply Hc.
  - intros j k Hj Hk. unfold cell. rewrite list_lookup_imap.
    destruct (lookup_lt_is_Some_2 g (j + 2)) as [row Hrow]; [lia|].
    rewrite Hrow. cbn. destruct (decide _) as [_|Hn]; [|lia].
    replace (j + 2 - 2)%nat with j by lia.
    destruct (lookup_lt_is_Some_2 v j) as [vrow Hvrow]; [destruct Hv; lia|].
    rewrite Hvrow. cbn.
    pose proof (has_shape_row _ _ _ _ _ Hv Hvrow) as Lv.
    rewrite Forall_lookup in Hc. pose proof (Hc _ _ Hrow) as Lrow.
    apply assign_inner_lookup_in; lia.
  - intros j k Hjk. unfold cell. rewrite list_lookup_imap.
    destruct (g !! j) as [row|] eqn:Erow; [|done]. cbn.
    rewrite Forall_lookup in Hc. pose proof (Hc _ _ Erow) as Lrow.
    destruct (decide _) as [Hj|Hj]; [|done].
    apply assign_inner_lookup_out. lia.
Qed.

Lemma set_row_inner_spec (g g' : grid) (i : Z) (v : list Qc) (rows cols : nat) :
  has_shape g rows (cols + 4) → set_row_inner g i v = Ok g' →
  ∃ k, py_index rows i = Ok k ∧ length v = cols ∧
       has_shape g' rows (cols + 4) ∧
       (∀ c, (c < cols)%nat → cell g' k (c + 2) = v !! c) ∧
       (∀ j c, j ≠ k → cell g' j c = cell g j c) ∧
       (∀ c, (c < 2 ∨ cols + 2 ≤ c)%nat → cell g' k c = cell g k c).
Proof.
  intros [Hr Hc]. unfold set_row_inner. rewrite Hr.
  destruct (py_index rows i) as [k|] eqn:Ek; [|done]. cbn.
  destruct (g !! k) as [row|] eqn:Erow; [|done].
  rewrite Forall_lookup in Hc. pose proof (Hc _ _ Erow) as Lrow.
  destruct (decide _) as [Lv|]; [|done]. intros [= <-].
  exists k. split; [done|]. split; [lia|]. split; [|split; [|split]].
  - split; [by rewrite length_insert|].
    apply Forall_lookup. intros j r Hj.
    destruct (decide (j = k)) as [->|Hjk].
    + rewrite list_lookup_insert_eq in Hj by (by eapply lookup_lt_Some).
      injection Hj as <-. by rewrite assign_inner_length.
    + rewrite list_lookup_insert_ne in Hj by done. by eapply Hc.
  - intros c Hcc. unfold cell.
    rewrite list_lookup_insert_eq by (by eapply lookup_lt_Some). cbn.
    apply assign_inner_lookup_in; lia.
  - intros j c Hj. unfold cell. by rewrite list_lookup_insert_ne.
  - intros c Hcc. unfold cell.
    rewrite list_lookup_insert_eq by (by eapply lookup_lt_Some). rewrite Erow. cbn.
    apply assign_inner_lookup_out. lia.
Qed.

(** Element-wise operations in closed form. *)

Lemma np_map2_total2 (f : Qc → Qc → Qc) (a : list Qc) : ∀ b : list Qc,
  length a = length b → np_map2 (total2 f) a b = Ok (zip_with f a b).
Proof.
  induction a as [|x a IH]; intros [|y b] Hl; try done.
  cbn. rewrite IH by (cbn in Hl; lia). done.
Qed.

Lemma np_map2_cons (f : Qc → Qc → result Qc) (x y : Qc) (a b : list Qc) :
  np_map2 f (x :: a) (y :: b) = z ← f x y; l ← np_map2 f a b; Ok (z :: l).
Proof. reflexivity. Qed.

Lemma np_divide_ne (x y : Qc) : y ≠ 0 → np_divide x y = Ok (x / y).
Proof. intros Hy. unfold np_divide. by destruct (decide (y = 0)). Qed.

Lemma np_divide_Ok (x y z : Qc) : np_divide x y = Ok z → y ≠ 0 ∧ z = x / y.
Proof. unfold np_divide. destruct (decide (y = 0)); [done|]. by intros [= <-]. Qed.

Lemma np_map2_divide (a : list Qc) : ∀ b : list Qc,
  length a = length b → Forall (λ y, y ≠ 0) b →
  np_map2 np_divide a b = Ok (zip_with Qcdiv a b).
Proof.
  induction a as [|x a IH]; intros [|y b] Hl Hb; try done.
  apply Forall_cons in Hb as [Hy Hb].
  rewrite np_map2_cons, np_divide_ne by done.
  rewrite IH by (done || cbn in Hl; lia). done.
Qed.

(** Whenever an element-wise division returns, the operands have one
    length, no divisor is zero and the result is the list of quotients. *)
Lemma np_map2_divide_inv (a : list Qc) : ∀ (b c : list Qc),
  np_map2 np_divide a b = Ok c →
  length a = length b ∧ Forall (λ y, y ≠ 0) b ∧ c = zip_with Qcdiv a b.
Proof.
  induction a as [|x a IH]; intros [|y b] c Hc; try done.
  - injection Hc as <-. done.
  - rewrite np_map2_cons in Hc.
    destruct (np_divide x y) as [z|] eqn:Ez; [|done].
    apply np_divide_Ok in Ez as [Hy ->]. cbn in Hc.
    destruct (np_map2 np_divide a b) as [l|] eqn:El; [|done].
    cbn in Hc. injection Hc as <-.
    destruct (IH b l El) as (Hl & Hb & ->). cbn. split; [by f_equal|].
    split; [by constructor|done].
Qed.

Lemma np_map2_total2_inv (f : Qc → Qc → Qc) (a : list Qc) : ∀ (b c : list Qc),
  np_map2 (total2 f) a b = Ok c → length a = length b ∧ c = zip_with f a b.
Proof.
  induction a as [|x a IH]; intros [|y b] c Hc; try done.
  - injection Hc as <-. done.
  - cbn in Hc. destruct (np_map2 (total2 f) a b) as [l|] eqn:El; [|done].
    cbn in Hc. injection Hc as <-.
    destruct (IH b l El) as (Hl & ->). cbn. split; [by f_equal|done].
Qed.

Lemma grid_map2_total2 (f : Qc → Qc → Qc) (a : grid) : ∀ b : grid,
  Forall2 (λ x y : list Qc, length x = length y) a b →
  grid_map2 (total2 f) a b = Ok (zip_with (zip_with f) a b).
Proof.
  induction a as [|x a IH]; intros b Hf; inversion Hf as [|? y ? b' Hxy Hf']; subst.
  - done.
  - cbn. rewrite np_map2_total2 by done. cbn. by rewrite IH.
Qed.

Lemma grid_map2_total2_inv (f : Qc → Qc → Qc) (a : grid) : ∀ (b c : grid),
  grid_map2 (total2 f) a b = Ok c →
  Forall2 (λ x y : list Qc, length x = length y) a b ∧
  c = zip_with (zip_with f) a b.
Proof.
  induction a as [|x a IH]; intros [|y b] c Hc; try done.
  - injection Hc as <-. split; [constructor|done].
  - cbn in Hc. destruct (np_map2 (total2 f) x y) as [z|] eqn:Ez; [|done].
    cbn in Hc. destruct (grid_map2 (total2 f) a b) as [l|] eqn:El; [|done].
    cbn in Hc. injection Hc as <-.
    apply np_map2_total2_inv in Ez as [Hl ->].
    destruct (IH b l El) as (Hf & ->). split; [by constructor|done].
Qed.

Lemma grid_rowwise_divide (v : list Qc) (a : grid) :
  Forall (λ row, length row = length v) a → Forall (λ y, y ≠ 0) v →
  grid_rowwise np_divide a v = Ok ((λ row, zip_with Qcdiv row v) <$> a).
Proof.
  intros Ha Hv. induction Ha as [|row a Hrow Ha IH]; [done|].
  cbn. rewrite np_map2_divide by done. cbn. by rewrite IH.
Qed.

Lemma add_quarter_first_column_ok (a : grid) : ∀ b : grid,
  Forall2 (λ ra rb : list Qc, (0 < length ra)%nat ∧ (0 < length rb)%nat) a b →
  add_quarter_first_column a b
  = Ok (zip_with (λ ra rb, <[0%nat := default 0 (ra !! 0%nat)
                                       + default 0 (rb !! 0%nat) / four]> ra) a b).
Proof.
  induction a as [|ra a IH]; intros b Hf; inversion Hf as [|? rb ? b' [Ha Hb] Hf']; subst.
  - done.
  - cbn. unfold getitem.
    destruct ra as [|x ra]; [cbn in Ha; lia|]. destruct rb as [|y rb]; [cbn in Hb; lia|].
    cbn. rewrite IH by done. done.
Qed.

Lemma cumsum_from_lookup (l : list Qc) : ∀ (acc : Qc) (k : nat),
  (k < length l)%nat →
  cumsum_from acc l !! k = Some (acc + partial_sum l k).
Proof.
  induction l as [|x l IH]; intros acc k Hk; [cbn in Hk; lia|].
  destruct k as [|k]; cbn.
  - f_equal. unfold partial_sum. cbn. rewrite take_0. cbn. ring.
  - rewrite IH by (cbn in Hk; lia). f_equal. unfold partial_sum. cbn. ring.
Qed.

Lemma np_cumsum_lookup (l : list Qc) (k : nat) :
  (k < length l)%nat → np_cumsum l !! k = Some (partial_sum l k).
Proof.
  intros Hk. destruct l as [|x l]; [cbn in Hk; lia|].
  destruct k as [|k]; cbn.
  - f_equal. unfold partial_sum. cbn. rewrite take_0. cbn. ring.
  - rewrite cumsum_from_lookup by (cbn in Hk; lia). done.
Qed.

Lemma np_cumsum_length (l : list Qc) : length (np_cumsum l) = length l.
Proof.
  destruct l as [|x l]; [done|]. cbn. f_equal.
  generalize x. induction l as [|y l IH]; intros acc; [done|]. cbn. by rewrite IH.
Qed.

(** * The beam source *)

Lemma subs_row_length (q : list Qc) : length (subs_row q) = length q.
Proof. unfold subs_row. by rewrite length_insert, length_fmap. Qed.

Lemma Qc_of_nat_nonneg (k : nat) : 0 ≤ Qc_of_nat k.
Proof.
  change (0 <= inject_Z (Z.of_nat k))%Q. unfold Qle. cbn. lia.
Qed.

Lemma cell_center_pos (k : nat) : 0 < half + Qc_of_nat k.
Proof. apply Qcplus_pos_nonneg; [done|apply Qc_of_nat_nonneg]. Qed.

Lemma abs_radii_nonzero (n_r : nat) (dr : Qc) :
  dr ≠ 0 → Forall (λ y, y ≠ 0) (abs_radii n_r dr).
Proof.
  intros Hdr. unfold abs_radii. rewrite !Forall_fmap. apply Forall_forall.
  intros k _. unfold compose, np_abs.
  assert ((half + Qc_of_nat k) * dr ≠ 0) as Hne.
  { intros [E|E]%Qcmult_integral; [|done].
    pose proof (cell_center_pos k) as Hp. rewrite E in Hp.
    by apply Qclt_not_eq in Hp. }
  destruct (decide _); [|done].
  intros E. apply Hne. apply (f_equal Qcopp) in E.
  rewrite Qcopp_involutive in E. rewrite E. ring.
Qed.

Lemma abs_radii_lookup (n_r : nat) (dr : Qc) (k : nat) :
  (k < n_r)%nat → 0 < dr →
  abs_radii n_r dr !! k = Some ((half + Qc_of_nat k) * dr).
Proof.
  intros Hk Hdr. unfold abs_radii. rewrite !list_lookup_fmap.
  rewrite lookup_seq_lt by done. cbn. f_equal. unfold np_abs.
  destruct (decide _) as [Hneg|]; [|done].
  pose proof (Qcmult_pos_pos _ _ (cell_center_pos k) Hdr) as Hpos.
  destruct (Qclt_not_le _ _ Hneg). by apply Qclt_le_weak.
Qed.

Lemma beam_field_ok (q_dist : grid) (n_r n_xi : nat) (dr : Qc) :
  has_shape q_dist n_xi n_r → (1 ≤ n_r)%nat → dr ≠ 0 →
  ∃ b_theta, beam_field q_dist n_r n_xi dr = Ok b_theta ∧
             set_interior (np_zeros (n_xi + 4) (n_r + 4))
               (beam_row n_r dr <$> q_dist) = Ok b_theta.
Proof.
  intros [Hr Hc] Hn Hdr. unfold beam_field.
  rewrite add_quarter_first_column_ok.
  2: { unfold grid_map. apply Forall2_fmap_l, Forall_Forall2_diag.
       eapply Forall_impl; [done|]. intros row Hrow. unfold compose.
       cbv beta in *. rewrite length_fmap. lia. }
  cbn. rewrite grid_map2_total2.
  2: { apply Forall2_fmap_l. unfold grid_map.
       apply Forall2_same_length_lookup. split.
       - by rewrite length_zip_with, length_fmap, Nat.min_id.
       - intros j x y Hx Hy.
         apply lookup_zip_with_Some in Hy as (ra & rb & -> & Hra & Hrb).
         rewrite list_lookup_fmap, Hrb in Hra. injection Hra as <-.
         rewrite Hx in Hrb. injection Hrb as <-.
         unfold compose.
         by rewrite np_cumsum_length, length_insert, length_fmap. }
  cbn. rewrite grid_rowwise_divide.
  2: { unfold grid_map. rewrite Forall_fmap. apply Forall_lookup.
       intros j row Hrow. unfold compose. rewrite length_fmap.
       apply lookup_zip_with_Some in Hrow as (x & y & -> & Hx & Hy).
       rewrite list_lookup_fmap in Hx.
       apply lookup_zip_with_Some in Hy as (ra & rb & -> & Hra & Hrb).
       rewrite list_lookup_fmap, Hrb in Hra. injection Hra as <-.
       rewrite Hrb in Hx. injection Hx as <-.
       rewrite Forall_lookup in Hc. pose proof (Hc _ _ Hrb) as Lrb.
       rewrite length_zip_with, np_cumsum_length, length_insert, length_fmap.
       unfold abs_radii. rewrite !length_fmap, length_seq. lia. }
  2: { by apply (abs_radii_nonzero n_r dr). }
  assert ((λ row, zip_with Qcdiv row
             (np_abs <$> ((λ k, (half + Qc_of_nat k) * dr) <$> seq 0 n_r)))
          <$> grid_map (λ x, x * dr)
                (zip_with (zip_with Qcminus) (np_cumsum <$> q_dist)
                   (zip_with (λ ra rb, <[0%nat := default 0 (ra !! 0%nat)
                                         + default 0 (rb !! 0%nat) / four]> ra)
                      (grid_map (λ x, x / 2) q_dist) q_dist))
          = beam_row n_r dr <$> q_dist) as ->.
  { clear. induction q_dist as [|row q IH]; [done|]. cbn. f_equal. exact IH. }
  destruct (set_interior_ok (np_zeros (n_xi + 4) (n_r + 4))
              (beam_row n_r dr <$> q_dist) n_xi n_r) as [b E].
  - apply np_zeros_shape.
  - split; [by rewrite length_fmap|]. rewrite Forall_fmap.
    eapply Forall_impl; [done|]. intros row Hrow. unfold compose, beam_row.
    cbv beta in *.
    rewrite length_zip_with, length_fmap, length_zip_with, np_cumsum_length,
      subs_row_length. unfold abs_radii. rewrite !length_fmap, length_seq. lia.
  - exists b. cbn. by rewrite E.
Qed.

Lemma beam_row_lookup (n_r : nat) (dr : Qc) (row : list Qc) (k : nat) (q_k q_0 : Qc) :
  length row = n_r → 0 < dr →
  row !! k = Some q_k → row !! 0%nat = Some q_0 →
  beam_row n_r dr row !! k
  = Some ((partial_sum row k - q_k / 2
           - (if decide (k = 0)%nat then q_0 / four else 0))
          * dr / ((half + Qc_of_nat k) * dr)).
Proof.
  intros Hl Hdr Hk H0. pose proof (lookup_lt_Some _ _ _ Hk) as Lk.
  unfold beam_row. rewrite lookup_zip_with.
  rewrite list_lookup_fmap, lookup_zip_with, np_cumsum_lookup by done. cbn.
  rewrite abs_radii_lookup by (done || lia).
  unfold subs_row. rewrite list_lookup_fmap, H0. cbn.
  destruct (decide (k = 0)%nat) as [->|Hk0].
  - rewrite list_lookup_insert_eq by (rewrite length_fmap; lia). cbn.
    rewrite Hk in H0. injection H0 as <-. f_equal. f_equal. ring.
  - rewrite list_lookup_insert_ne by done. rewrite list_lookup_fmap, Hk. cbn.
    f_equal. f_equal. ring.
Qed.

(** The absolute value of a cell-centre radius, by the sign of [dr]. *)
Lemma np_abs_radius_pos (k : nat) (dr : Qc) :
  0 < dr → np_abs ((half + Qc_of_nat k) * dr) = (half + Qc_of_nat k) * dr.
Proof.
  intros Hdr. unfold np_abs. destruct (decide _) as [Hneg|]; [|done].
  pose proof (Qcmult_pos_pos _ _ (cell_center_pos k) Hdr) as Hpos.
  destruct (Qclt_not_le _ _ Hneg). by apply Qclt_le_weak.
Qed.

Lemma np_abs_radius_neg (k : nat) (dr : Qc) :
  dr < 0 → np_abs ((half + Qc_of_nat k) * dr) = - ((half + Qc_of_nat k) * dr).
Proof.
  intros Hdr. unfold np_abs. destruct (decide _) as [|Hge]; [done|].
  destruct Hge. apply Qclt_minus_iff.
  replace (0 + - ((half + Qc_of_nat k) * dr))
    with ((half + Qc_of_nat k) * - dr) by ring.
  apply Qcmult_pos_pos; [apply cell_center_pos|].
  apply Qclt_minus_iff in Hdr. by rewrite Qcplus_0_l in Hdr.
Qed.

(** The entry of a row of the field, for any cell width: the divisor is
    the absolute value of the cell-centre radius. *)
Lemma beam_row_lookup_any (n_r : nat) (dr : Qc) (row : list Qc) (k : nat)
    (q_k q_0 : Qc) :
  length row = n_r →
  row !! k = Some q_k → row !! 0%nat = Some q_0 →
  beam_row n_r dr row !! k
  = Some ((partial_sum row k - q_k / 2
           - (if decide (k = 0)%nat then q_0 / four else 0))
          * dr / np_abs ((half + Qc_of_nat k) * dr)).
Proof.
  intros Hl Hk H0. pose proof (lookup_lt_Some _ _ _ Hk) as Lk.
  unfold beam_row. rewrite lookup_zip_with.
  rewrite list_lookup_fmap, lookup_zip_with, np_cumsum_lookup by done. cbn.
  unfold abs_radii. rewrite !list_lookup_fmap, lookup_seq_lt by lia. cbn.
  unfold subs_row. rewrite list_lookup_fmap, H0. cbn.
  destruct (decide (k = 0)%nat) as [->|Hk0].
  - rewrite list_lookup_insert_eq by (rewrite length_fmap; lia). cbn.
    rewrite Hk in H0. injection H0 as <-. f_equal. f_equal. ring.
  - rewrite list_lookup_insert_ne by done. rewrite list_lookup_fmap, Hk. cbn.
    f_equal. f_equal. ring.
Qed.

Lemma beam_charge_distribution_shape `{BeamRoutines} (b : beam) (n_p : Qc)
    (n_r n_xi : nat) (r_min xi_min dr dxi : Qc) (p_shape : string) (q_dist : grid) :
  beam_charge_distribution b n_p n_r n_xi r_min xi_min dr dxi p_shape = Ok q_dist →
  has_shape q_dist n_xi n_r.
Proof.
  unfold beam_charge_distribution. intros Hq.
  repeat match type of Hq with
         | (?m ≫= _) = Ok _ => destruct m eqn:?; [cbn in Hq|done]
         end.
  injection Hq as <-. apply interior_shape.
  eapply deposit_3d_distribution_shape; [done|]. apply np_zeros_shape.
Qed.

(** C5, as the code has it.  With [q_dist] the deposited charge
    distribution without its guard cells, at least one radial cell and a
    cell width that is not zero, the beam source returns an array of
    [n_xi + 4] by [n_r + 4] entries.  With [v] the sum of [q_dist[j, m]]
    over [m <= k], minus [q_dist[j, k] / 2], minus [q_dist[j, 0] / 4] more
    when [k = 0], times [dr], over the cell-centre radius [(0.5 + k) * dr]:
    the entry at row [j] and radial cell [k] of the interior is [v] for a
    positive [dr] and [- v] for a negative [dr], the divisor of the code
    being [np.abs(r_grid_g)]; every guard cell is zero. *)
Theorem beam_source_field `{BeamRoutines} (b : beam) (n_p : Qc)
    (n_r n_xi : nat) (r_min xi_min dr dxi : Qc) (p_shape : string)
    (q_dist : grid) :
  beam_charge_distribution b n_p n_r n_xi r_min xi_min dr dxi p_shape
    = Ok q_dist →
  (1 ≤ n_r)%nat → dr ≠ 0 →
  ∃ b_theta,
    calculate_beam_source_from_particles b n_p n_r n_xi r_min xi_min dr dxi
      p_shape = Ok b_theta ∧
    has_shape b_theta (n_xi + 4) (n_r + 4) ∧
    (∀ j k row q_jk q_j0,
       q_dist !! j = Some row → row !! k = Some q_jk → row !! 0%nat = Some q_j0 →
       let v := (partial_sum row k - q_jk / 2
                 - (if decide (k = 0)%nat then q_j0 / four else 0))
                * dr / ((half + Qc_of_nat k) * dr) in
       (0 < dr → cell b_theta (j + 2) (k + 2) = Some v) ∧
       (dr < 0 → cell b_theta (j + 2) (k + 2) = Some (- v))) ∧
    (∀ j k, (j < n_xi + 4)%nat → (k < n_r + 4)%nat →
       (j < 2 ∨ n_xi + 2 ≤ j ∨ k < 2 ∨ n_r + 2 ≤ k)%nat →
       cell b_theta j k = Some 0).
Proof.
  intros Hq Hn Hne.
  pose proof (beam_charge_distribution_shape _ _ _ _ _ _ _ _ _ _ Hq) as Hs.
  destruct (beam_field_ok q_dist n_r n_xi dr Hs Hn Hne) as (b_theta & E & Eset).
  exists b_theta. unfold calculate_beam_source_from_particles. rewrite Hq. cbn.
  split; [done|].
  destruct (set_interior_spec _ _ _ n_xi n_r (np_zeros_shape _ _) Eset)
    as (_ & Hshape & Hin & Hout).
  split; [done|]. split.
  - intros j k row q_jk q_j0 Hrow Hk H0.
    pose proof (has_shape_row _ _ _ _ _ Hs Hrow) as Lrow.
    assert (cell b_theta (j + 2) (k + 2)
            = Some ((partial_sum row k - q_jk / 2
                     - (if decide (k = 0)%nat then q_j0 / four else 0))
                    * dr / np_abs ((half + Qc_of_nat k) * dr))) as Hcell.
    { rewrite Hin.
      + unfold cell. rewrite list_lookup_fmap, Hrow. cbn.
        by apply beam_row_lookup_any.
      + destruct Hs as [<- _]. by eapply lookup_lt_Some.
      + rewrite <- Lrow. by eapply lookup_lt_Some. }
    assert (half + Qc_of_nat k ≠ 0) as Hc.
    { intros E0. pose proof (cell_center_pos k) as Hp. rewrite E0 in Hp.
      by apply Qclt_not_eq in Hp. }
    cbv zeta. split.
    + intros Hdr. by rewrite Hcell, np_abs_radius_pos.
    + intros Hdr. rewrite Hcell, np_abs_radius_neg by done. f_equal.
      assert (- ((half + Qc_of_nat k) * dr) ≠ 0) as Hneg.
      { intros E0. apply (f_equal Qcopp) in E0. rewrite Qcopp_involutive in E0.
        replace (- 0) with 0 in E0 by ring.
        apply Qcmult_integral in E0 as [E0|E0]; done. }
      field. repeat split; done.
  - intros j k Hj Hk Hguard. rewrite Hout by done. by apply np_zeros_cell.
Qed.

Lemma beam_source_field_witness :
  ∃ b_theta,
    calculate_beam_source_from_particles (H := Sample.beam_model) beam_sample 1 2 1
      (Q2Qc (1 # 4)) 0 (Q2Qc (1 # 2)) 1 "cubic" = Ok b_theta ∧
    has_shape b_theta 5 6.
Proof.
  destruct (beam_source_field (H := Sample.beam_model) beam_sample 1 2 1
              (Q2Qc (1 # 4)) 0 (Q2Qc (1 # 2)) 1 "cubic"
              (match beam_sample_distribution with Ok q => q | Raise _ => [] end))
    as (b_theta & E & Hshape & _).
  - vm_compute. reflexivity.
  - lia.
  - discriminate.
  - exists b_theta. split; [exact E|exact Hshape].
Defined.

(** The beam of two particles on one slice of two radial cells, with the
    cell width [-1/2]: the deposited distribution is [-21/22] in both
    cells; the sum up to the innermost cell less a half and a quarter of
    it, times [dr], over the cell-centre radius [0.5 * dr] is [-21/44],
    and the entry returned for that cell is [21/44]. *)
Lemma beam_source_field_negative_dr :
  ∃ q_dist b_theta row x c,
    beam_charge_distribution (H := Sample.beam_model) beam_sample 1 2 1
      (Q2Qc (1 # 4)) 0 (- Q2Qc (1 # 2)) 1 "cubic" = Ok q_dist ∧
    calculate_beam_source_from_particles (H := Sample.beam_model) beam_sample
      1 2 1 (Q2Qc (1 # 4)) 0 (- Q2Qc (1 # 2)) 1 "cubic" = Ok b_theta ∧
    q_dist !! 0%nat = Some row ∧ row = [x; x] ∧ this x = (- 21 # 22)%Q ∧
    cell b_theta 2 2 = Some c ∧ this c = (21 # 44)%Q ∧
    this ((partial_sum row 0 - x / 2 - x / four) * - Q2Qc (1 # 2)
          / ((half + Qc_of_nat 0) * - Q2Qc (1 # 2))) = (- 21 # 44)%Q ∧
    c ≠ (partial_sum row 0 - x / 2 - x / four) * - Q2Qc (1 # 2)
        / ((half + Qc_of_nat 0) * - Q2Qc (1 # 2)).
Proof.
  do 5 eexists. split; [vm_compute; reflexivity|].
  split; [vm_compute; reflexivity|]. split; [vm_compute; reflexivity|].
  split; [vm_compute; reflexivity|]. split; [vm_compute; reflexivity|].
  split; [vm_compute; reflexivity|]. split; [vm_compute; reflexivity|].
  split; [vm_compute; reflexivity|]. intros E. vm_compute in E. discriminate E.
Qed.

(** * Runs of the driver *)

Lemma bind_Done {A B} (m : outcome A) (f : A → outcome B) (l : list event) (b : B) :
  m ≫= f = Done l b →
  ∃ l1 a l2, m = Done l1 a ∧ f a = Done l2 b ∧ l = l1 ++ l2.
Proof.
  destruct m as [l1 a|l1 e]; [|done]. cbn.
  destruct (f a) as [l2 b'|l2 e] eqn:E; [|done]. intros [= <- <-]. by exists l1, a, l2.
Qed.

Lemma lift_Done {A} (r : result A) (l : list event) (a : A) :
  lift r = Done l a → r = Ok a ∧ l = [].
Proof. destruct r; [|done]. by intros [= <- <-]. Qed.

Lemma emit_Done (ev : event) (l : list event) (u : ()) :
  emit ev = Done l u → l = [ev].
Proof. by intros [= <-]. Qed.

Lemma mret_Done {A} (a b : A) (l : list event) :
  mret a = Done l b → a = b ∧ l = [].
Proof. by intros [= <- <-]. Qed.

(** Splits a completed run of binds into its steps. *)
Ltac split_run H :=
  repeat match type of H with
         | (let '(_, _) := ?t in _) = Done _ _ => destruct t eqn:?
         | (?m ≫= _) = Done _ _ =>
             let l1 := fresh "l" in let a := fresh "a" in let l2 := fresh "l" in
             let E := fresh "E" in let El := fresh "El" in
             apply bind_Done in H as (l1 & a & l2 & E & H & El);
             first [ apply lift_Done in E as [E ->]
                   | apply emit_Done in E as ->
                   | idtac ]
         | mret _ = Done _ _ => apply mret_Done in H as [H ->]
         end.

Section DriverRuns.
Context `{PlasmaRoutines}.

(** The particle steps of a slice, step by step: the store [s2] handed to
    the gamma/pz update differs from the incoming one in the six gathered
    and solved field arrays only; [s3] is the store after the update, [bt]
    the magnetic field written next, [s5] the store after the freeze. *)
Lemma particle_steps_Done (a : args) (f : frame) (step : nat)
    (p p' : PlasmaParticles) (l : list event) (xi : Qc) (idx : list nat) :
  particle_steps a f step p = Done l (xi, idx, p') →
  ∃ (s2 s3 s5 : store) (bt : list Qc),
    py_getitem (xi_fld f) (- 1 - Z.of_nat step) = Ok xi ∧
    (∀ b, b ≠ a2_pp → b ≠ nabla_a2_pp → b ≠ b_theta_0_pp → b ≠ psi_pp →
          b ≠ dr_psi_pp → b ≠ dxi_psi_pp → s2 b = arrays p b) ∧
    (∀ b, b = a2_pp ∨ b = nabla_a2_pp ∨ b = b_theta_0_pp ∨ b = psi_pp ∨
          b = dr_psi_pp ∨ b = dxi_psi_pp →
          length (s2 b) = length (arrays p pp_r)) ∧
    idx = np_argsort (arrays p pp_r) ∧
    update_gamma_and_pz pp_gamma pp_pz pp_pr a2_pp psi_pp s2 = Ok s3 ∧
    length bt = length (s3 pp_r) ∧
    freeze (max_gamma a) (<[b_theta_pp := bt]> s3) = Ok s5 ∧
    p' = with_arrays p s5 ∧
    l = [Gather step; Argsort step;
         PsiAtParticles step (arrays p pp_r) idx; UpdateGammaPz step;
         BThetaAtParticles step (s3 pp_r) idx; Freeze step].
Proof.
  unfold particle_steps. intros Hrun.
  pose proof (gather_sources_length) as Lgather.
  pose proof (calculate_psi_at_particles_length) as Lpsi.
  split_run Hrun.
  match goal with E : gather_sources_qs_baxevanis ?x1 ?x2 ?x3 ?x4 ?x5 ?x6 ?x7 ?x8 ?x9 ?x10 ?x11 = _ |- _ =>
    specialize (Lgather x1 x2 x3 x4 x5 x6 x7 x8 x9 x10 x11); rewrite E in Lgather
  end.
  destruct Lgather as (Lg1 & Lg2 & Lg3). cbn in Lg1, Lg2, Lg3.
  split_run Hrun.
  match goal with E : calculate_psi_and_derivatives_at_particles ?x1 ?x2 ?x3 ?x4 ?x5 ?x6 ?x7 = _ |- _ =>
    specialize (Lpsi x1 x2 x3 x4 x5 x6 x7); rewrite E in Lpsi
  end.
  destruct Lpsi as (Lp1 & Lp2 & Lp3). cbn in Lp1, Lp2, Lp3.
  split_run Hrun. injection Hrun as <- <- <-. subst.
  rewrite !fn_lookup_insert_ne in * by done.
  eexists _, _, _, _. split; [done|]. split; [|split; [|split; [|split; [|split; [|split; [|split]]]]]].
  8: { cbn. reflexivity. }
  4: { done. }
  5: { done. }
  5: { done. }
  - intros b B1 B2 B3 B4 B5 B6. by rewrite !fn_lookup_insert_ne.
  - intros b [-> | [-> | [-> | [-> | [-> | ->]]]]];
      repeat (rewrite fn_lookup_insert || rewrite fn_lookup_insert_ne by done);
      done.
  - done.
  - apply calculate_b_theta_at_particles_length.
Qed.

(** The particles after the particle steps of a slice, particle by
    particle: [r] and [q] are as before; [gamma], [pz], [pr] are the closed
    forms of the values gathered and solved in the slice, or the rest state
    where the closed form of [gamma] reaches the threshold. *)
Lemma particle_steps_effect (a : args) (f : frame) (step : nat)
    (p p' : PlasmaParticles) (l : list event) (xi : Qc) (idx : list nat) :
  particle_steps a f step p = Done l (xi, idx, p') →
  uniform (arrays p) →
  uniform (arrays p') ∧
  arrays p' pp_r = arrays p pp_r ∧ arrays p' pp_q = arrays p pp_q ∧
  r_max_plasma p' = r_max_plasma p ∧ dr_p p' = dr_p p ∧
  parabolic_coefficient p' = parabolic_coefficient p ∧
  idx = np_argsort (arrays p pp_r) ∧
  l = [Gather step; Argsort step;
       PsiAtParticles step (arrays p pp_r) idx; UpdateGammaPz step;
       BThetaAtParticles step (arrays p pp_r) idx; Freeze step] ∧
  (∀ i, (i < length (arrays p pp_r))%nat →
     ∃ pr0 a2 w,
       arrays p pp_pr !! i = Some pr0 ∧ arrays p' a2_pp !! i = Some a2 ∧
       arrays p' psi_pp !! i = Some w ∧ 1 + w ≠ 0 ∧
       (max_gamma a ≤ gamma_of pr0 a2 w →
          arrays p' pp_gamma !! i = Some 1 ∧ arrays p' pp_pz !! i = Some 0 ∧
          arrays p' pp_pr !! i = Some 0) ∧
       (gamma_of pr0 a2 w < max_gamma a →
          arrays p' pp_gamma !! i = Some (gamma_of pr0 a2 w) ∧
          arrays p' pp_pz !! i = Some (pz_of pr0 a2 w) ∧
          arrays p' pp_pr !! i = Some pr0)).
Proof.
  intros Hrun Hu.
  apply particle_steps_Done in Hrun
    as (s2 & s3 & s5 & bt & _ & Hs2 & Ls2 & Hidx & Eup & Lbt & Efr & -> & ->).
  unfold update_gamma_and_pz in Eup.
  apply update_loop_inv in Eup as (Fup & Lup & Hin & _); try done.
  set (s4 := <[b_theta_pp := bt]> s3) in *.
  assert (∀ b, b ≠ b_theta_pp → s4 b = s3 b) as Hs4.
  { intros b Hb. unfold s4. by rewrite fn_lookup_insert_ne. }
  assert (∀ b, length (s2 b) = length (arrays p pp_r)) as L2.
  { intros b.
    destruct (decide (b = a2_pp ∨ b = nabla_a2_pp ∨ b = b_theta_0_pp ∨
                      b = psi_pp ∨ b = dr_psi_pp ∨ b = dxi_psi_pp)) as [Hb|Hb].
    - by apply Ls2.
    - rewrite Hs2 by tauto. apply Hu. }
  assert (s3 pp_r = arrays p pp_r) as Hr3.
  { rewrite Fup by done. by apply Hs2. }
  assert (∀ b, length (s4 b) = length (arrays p pp_r)) as L4.
  { intros b. destruct (decide (b = b_theta_pp)) as [->|Hb].
    - unfold s4. by rewrite fn_lookup_insert, Lbt, Hr3.
    - by rewrite Hs4, Lup. }
  destruct (freeze_ok (max_gamma a) s4) as (s5' & Efr' & Hfrozen & Hkept & Ffr & Lfr).
  { by rewrite !L4. }
  { by rewrite !L4. }
  rewrite Efr in Efr'. injection Efr' as <-. cbn [arrays with_arrays].
  assert (s5 pp_r = arrays p pp_r) as Hr5.
  { rewrite Ffr, Hs4 by done. done. }
  split; [|split; [|split; [|split; [|split; [|split; [|split; [|split]]]]]]];
    try done.
  - intros b. by rewrite !Lfr, !L4.
  - rewrite Ffr, Hs4, Fup by done. by apply Hs2.
  - by rewrite Hr3.
  - intros i Hi.
    destruct (Hin i) as (pr0 & a2 & w & Hpr & Ha2 & Hw & Hne & Hg & Hz).
    { rewrite L2. lia. }
    exists pr0, a2, w.
    rewrite Hs2 in Hpr by done.
    assert (s4 pp_pr !! i = Some pr0) as Hpr4.
    { rewrite Hs4, Fup by done. by rewrite Hs2. }
    split; [done|]. split; [by rewrite Ffr, Hs4, Fup|].
    split; [by rewrite Ffr, Hs4, Fup|]. split; [done|].
    rewrite <- Hs4 in Hg, Hz by done. split.
    + intros Hle. by apply (Hfrozen i _ Hg).
    + intros Hlt. destruct (Hkept i _ Hg Hlt) as (-> & -> & ->). done.
Qed.

End DriverRuns.

(** * Gamma after the freeze step *)

Section GammaAfterFreeze.
Context `{PlasmaRoutines}.

(** C2, as the code has it.  In every slice, after the freeze step, a
    particle whose gathered [a2] is non-negative and whose solved [psi] is
    above -1 has [gamma >= 1]: it is either at rest with [gamma = 1] or
    carries the closed form, which is at least 1 there. *)
Theorem gamma_ge_1_after_freeze (a : args) (f : frame) (step : nat)
    (p p' : PlasmaParticles) (l : list event) (xi : Qc) (idx : list nat)
    (i : nat) (g a2 w : Qc) :
  particle_steps a f step p = Done l (xi, idx, p') →
  uniform (arrays p) →
  arrays p' pp_gamma !! i = Some g →
  arrays p' a2_pp !! i = Some a2 →
  arrays p' psi_pp !! i = Some w →
  0 ≤ a2 → 0 < 1 + w →
  1 ≤ g.
Proof.
  intros Hrun Hu Hg Ha2 Hw Hpos Hpsi.
  destruct (particle_steps_effect _ _ _ _ _ _ _ _ Hrun Hu)
    as (Hu' & Hr & _ & _ & _ & _ & _ & _ & Heach).
  destruct (Heach i) as (pr0 & a2' & w' & _ & Ha2' & Hw' & _ & Hfrozen & Hkept).
  { rewrite <- Hr, <- (Hu' pp_gamma). by eapply lookup_lt_Some. }
  rewrite Ha2 in Ha2'. rewrite Hw in Hw'. injection Ha2' as <-. injection Hw' as <-.
  destruct (Qclt_le_dec (gamma_of pr0 a2 w) (max_gamma a)) as [Hlt|Hle].
  - destruct (Hkept Hlt) as (Hg' & _). rewrite Hg in Hg'. injection Hg' as ->.
    by apply gamma_of_ge_1.
  - destruct (Hfrozen Hle) as (Hg' & _). rewrite Hg in Hg'. by injection Hg' as ->.
Qed.
End GammaAfterFreeze.

Lemma gamma_ge_1_after_freeze_witness :
  ∃ l xi idx p' g,
    particle_steps (H := Sample.model) (Sample.inputs (Q2Qc 3) "rk4")
      (Sample.start (H := Sample.model) (Sample.inputs (Q2Qc 3) "rk4")).1 0
      (pp (Sample.start (H := Sample.model) (Sample.inputs (Q2Qc 3) "rk4")).2)
    = Done l (xi, idx, p') ∧
    arrays p' pp_gamma !! 0%nat = Some g ∧ 1 ≤ g.
Proof.
  do 5 eexists. split; [vm_compute; reflexivity|]. split; [vm_compute; reflexivity|].
  eapply (gamma_ge_1_after_freeze (H := Sample.model)
            (Sample.inputs (Q2Qc 3) "rk4")
            (Sample.start (H := Sample.model) (Sample.inputs (Q2Qc 3) "rk4")).1 0
            (pp (Sample.start (H := Sample.model) (Sample.inputs (Q2Qc 3) "rk4")).2)
            _ _ _ _ 0).
  - vm_compute; reflexivity.
  - intros b; destruct b; reflexivity.
  - vm_compute; reflexivity.
  - vm_compute; reflexivity.
  - vm_compute; reflexivity.
  - vm_compute; discriminate.
  - vm_compute; reflexivity.
Defined.

(** With the potential -3 at a particle the closed form gives
    [gamma = -5/4]; the threshold 10 is not reached, so the freeze step
    leaves it: after the freeze step of the first slice [gamma] is below 1. *)
Lemma gamma_below_1_after_freeze :
  ∃ l xi idx p' g,
    particle_steps (H := Sample.low_potential) (Sample.inputs (Q2Qc 3) "rk4")
      (Sample.start (H := Sample.low_potential) (Sample.inputs (Q2Qc 3) "rk4")).1 0
      (pp (Sample.start (H := Sample.low_potential) (Sample.inputs (Q2Qc 3) "rk4")).2)
    = Done l (xi, idx, p') ∧
    arrays p' psi_pp !! 0%nat = Some (- Q2Qc 3) ∧
    arrays p' pp_gamma !! 0%nat = Some g ∧
    this g = (- 5 # 4)%Q ∧ g < 1.
Proof.
  do 5 eexists. split; [vm_compute; reflexivity|].
  split; [vm_compute; reflexivity|]. split; [vm_compute; reflexivity|].
  split; vm_compute; reflexivity.
Qed.

(** * Deposition weights and radial ordering of a slice *)

(** Whenever the weights are computed, the four arrays have one length and
    the weights are the two quotients, particle by particle. *)
Lemma plasma_weights_Ok (dr : Qc) (s : store) (w_rho w_chi : list Qc) :
  plasma_weights dr s = Ok (w_rho, w_chi) →
  length w_rho = length (s pp_q) ∧ length w_chi = length (s pp_q) ∧
  ∀ i q r pz g,
    s pp_q !! i = Some q → s pp_r !! i = Some r →
    s pp_pz !! i = Some pz → s pp_gamma !! i = Some g →
    w_rho !! i = Some (q / (dr * r * (1 - pz / g))) ∧
    w_chi !! i = Some (q / (dr * r * (1 - pz / g)) / g).
Proof.
  unfold plasma_weights. intros Hw.
  destruct (np_map2 np_divide (s pp_pz) (s pp_gamma)) as [vz|] eqn:Evz; [|done].
  cbn in Hw.
  destruct (np_map2 (total2 Qcmult) _ _) as [den|] eqn:Eden in Hw; [|done].
  cbn in Hw.
  destruct (np_map2 np_divide (s pp_q) den) as [w1|] eqn:Ew1; [|done].
  cbn in Hw.
  destruct (np_map2 np_divide w1 (s pp_gamma)) as [w2|] eqn:Ew2; [|done].
  cbn in Hw. injection Hw as <- <-.
  apply np_map2_divide_inv in Evz as (Lvz & _ & ->).
  apply np_map2_total2_inv in Eden as (Lden & ->).
  apply np_map2_divide_inv in Ew1 as (Lw1 & _ & ->).
  apply np_map2_divide_inv in Ew2 as (Lw2 & _ & ->).
  repeat match goal with
         | H : context [length (zip_with _ _ _)] |- _ => rewrite length_zip_with in H
         | H : context [length (_ <$> _)] |- _ => rewrite length_fmap in H
         | |- context [length (zip_with _ _ _)] => rewrite length_zip_with
         | |- context [length (_ <$> _)] => rewrite length_fmap
         end.
  split; [lia|]. split; [lia|].
  intros i q r pz g Hq Hr Hpz Hg.
  assert (zip_with Qcdiv (s pp_q)
            (zip_with Qcmult ((λ r0, dr * r0) <$> s pp_r)
               ((λ v, 1 - v) <$> zip_with Qcdiv (s pp_pz) (s pp_gamma))) !! i
          = Some (q / (dr * r * (1 - pz / g)))) as Hrho.
  { rewrite !lookup_zip_with, !list_lookup_fmap, !lookup_zip_with.
    by rewrite Hq, Hr, Hpz, Hg. }
  split; [done|]. rewrite lookup_zip_with, Hrho. cbn. by rewrite Hg.
Qed.

Section SliceProperties.
Context `{PlasmaRoutines}.

(** The field steps of a slice, step by step. *)
Lemma field_steps_Done (a : args) (f : frame) (step : nat) (xi : Qc)
    (idx : list nat) (st st' : state) (l : list event) :
  field_steps a f step xi idx st = Done l st' →
  ∃ (w_rho w_chi : list Qc) (r_first : Qc),
    let s := arrays (pp st) in
    set_row_inner (psi_rz st) (- 1 - Z.of_nat step - 2)
      (calculate_psi (r_fld f) (s pp_r) (s pp_q) idx (r_max_plasma (pp st))
         (parabolic_coefficient (pp st))) = Ok (psi_rz st') ∧
    set_row_inner (b_theta_bar_rz st) (- 1 - Z.of_nat step - 2)
      (calculate_b_theta (r_fld f) (s pp_r) (s pp_pr) (s pp_q) (s pp_gamma)
         (s psi_pp) (s dr_psi_pp) (s dxi_psi_pp) (s b_theta_0_pp)
         (s nabla_a2_pp) idx) = Ok (b_theta_bar_rz st') ∧
    plasma_weights (dr f) s = Ok (w_rho, w_chi) ∧
    py_getitem (r_fld f) 0 = Ok r_first ∧
    deposit_plasma_particles xi (s pp_r) w_rho (xi_min_n f) r_first (n_xi a)
      (n_r a) (dxi f) (dr f) (rho_rz st) (p_shape a) = Ok (rho_rz st') ∧
    deposit_plasma_particles xi (s pp_r) w_chi (xi_min_n f) r_first (n_xi a)
      (n_r a) (dxi f) (dr f) (chi_rz st) (p_shape a) = Ok (chi_rz st') ∧
    pp st' = pp st ∧
    l = [PsiRow step (s pp_r) idx; BThetaRow step (s pp_r) idx;
         DepositRho step w_rho; DepositChi step w_chi].
Proof.
  unfold field_steps. intros Hrun. split_run Hrun. subst. cbn.
  match goal with
  | E1 : py_getitem (r_fld f) 0 = Ok ?x, E2 : py_getitem (r_fld f) 0 = Ok ?y |- _ =>
      assert (y = x) as -> by congruence
  end.
  match goal with
  | E : plasma_weights _ _ = Ok (?w1, ?w2), E' : py_getitem (r_fld f) 0 = Ok ?x |- _ =>
      exists w1, w2, x
  end.
  by repeat split.
Qed.

(** A completed slice is its particle steps, its field steps and the
    pusher, in this order. *)
Lemma slice_Done (a : args) (f : frame) (step : nat) (st st'' : state)
    (l : list event) :
  slice a f step st = Done l st'' →
  ∃ l1 xi idx p' l2 st' l3 p'',
    particle_steps a f step (pp st) = Done l1 (xi, idx, p') ∧
    field_steps a f step xi idx (with_pp st p') = Done l2 st' ∧
    advance a f step xi (pp st') = Done l3 p'' ∧
    st'' = with_pp st' p'' ∧ l = l1 ++ l2 ++ l3.
Proof.
  unfold slice. intros Hrun.
  apply bind_Done in Hrun as (l1 & [[xi idx] p'] & l2' & E1 & Hrun & ->).
  apply bind_Done in Hrun as (l2 & st' & l3' & E2 & Hrun & ->).
  apply bind_Done in Hrun as (l3 & p'' & l4 & E3 & Hrun & ->).
  apply mret_Done in Hrun as [<- ->].
  exists l1, xi, idx, p', l2, st', l3, p''. by rewrite app_nil_r.
Qed.

Lemma advance_Done (a : args) (f : frame) (step : nat) (xi : Qc)
    (p p'' : PlasmaParticles) (l : list event) :
  advance a f step xi p = Done l p'' →
  l = [] ∧ p'' = p ∨
  plasma_pusher a = "ab5" ∧ l = [Push step "ab5"] ∧
    p'' = evolve_plasma_ab5 p (dxi f) ∨
  plasma_pusher a = "rk4" ∧ l = [Push step "rk4"] ∧
    p'' = evolve_plasma_rk4 p (dxi f) xi (a2_rz f) (nabla_a2_rz f)
            (b_theta_0_mesh f) (r_fld f) (xi_fld f).
Proof.
  unfold advance. repeat destruct (decide _); cbn; intros [= <- <-]; auto.
Qed.

(** C8.  In every completed slice, with [p'] the particles that the freeze
    step of that slice left, the two depositions receive for every particle
    the weights [w_rho = q / (dr * r * (1 - pz / gamma))] and
    [w_chi = w_rho / gamma] of [p']: they are the weights recorded with the
    two deposition calls of the slice, which turn the [rho] and [chi] grids
    of before the slice into those of after it. *)
Theorem deposition_weights (a : args) (f : frame) (step : nat) (st st'' : state)
    (l : list event) :
  slice a f step st = Done l st'' →
  ∃ l1 xi idx p' (w_rho w_chi : list Qc) (r_first : Qc) l3,
    particle_steps a f step (pp st) = Done l1 (xi, idx, p') ∧
    l = l1 ++ [PsiRow step (arrays p' pp_r) idx;
               BThetaRow step (arrays p' pp_r) idx;
               DepositRho step w_rho; DepositChi step w_chi] ++ l3 ∧
    deposit_plasma_particles xi (arrays p' pp_r) w_rho (xi_min_n f) r_first
      (n_xi a) (n_r a) (dxi f) (dr f) (rho_rz st) (p_shape a)
      = Ok (rho_rz st'') ∧
    deposit_plasma_particles xi (arrays p' pp_r) w_chi (xi_min_n f) r_first
      (n_xi a) (n_r a) (dxi f) (dr f) (chi_rz st) (p_shape a)
      = Ok (chi_rz st'') ∧
    length w_rho = length (arrays p' pp_q) ∧
    length w_chi = length (arrays p' pp_q) ∧
    ∀ i q r pz g,
      arrays p' pp_q !! i = Some q → arrays p' pp_r !! i = Some r →
      arrays p' pp_pz !! i = Some pz → arrays p' pp_gamma !! i = Some g →
      w_rho !! i = Some (q / (dr f * r * (1 - pz / g))) ∧
      w_chi !! i = Some (q / (dr f * r * (1 - pz / g)) / g).
Proof.
  intros Hslice.
  apply slice_Done in Hslice
    as (l1 & xi & idx & p' & l2 & st' & l3 & p'' & Hpart & Hfields & _ & -> & ->).
  apply field_steps_Done in Hfields
    as (w_rho & w_chi & r_first & _ & _ & Hw & _ & Hrho & Hchi & _ & ->).
  cbn in *. exists l1, xi, idx, p', w_rho, w_chi, r_first, l3.
  destruct (plasma_weights_Ok _ _ _ _ Hw) as (L1 & L2 & Hpoint).
  do 6 (split; [done|]). done.
Qed.
End SliceProperties.

Section RadialOrdering.
Context `{PlasmaRoutines}.

(** C9, as the code has it.  In every completed slice the ordering [idx] is
    the index array that [np.argsort] returns for the radii [r] of the
    slice: a permutation of the particle indices by ascending radius (the
    order of equal radii is whatever the sort yields).  Each of the four
    boundary-integral calls of the slice is given this [idx] together with
    the same [r], and the particle steps leave the storage of [r] and [q]
    as it was: the sort moves no particle. *)
Theorem radial_ordering (a : args) (f : frame) (step : nat) (st st'' : state)
    (l : list event) :
  slice a f step st = Done l st'' →
  uniform (arrays (pp st)) →
  ∃ l1 xi idx p',
    particle_steps a f step (pp st) = Done l1 (xi, idx, p') ∧
    idx = np_argsort (arrays (pp st) pp_r) ∧
    sorts (arrays (pp st) pp_r) idx ∧
    arrays p' pp_r = arrays (pp st) pp_r ∧
    arrays p' pp_q = arrays (pp st) pp_q ∧
    (∀ ev r' idx', ev ∈ l → ordering_of ev = Some (r', idx') →
                   r' = arrays (pp st) pp_r ∧ idx' = idx) ∧
    PsiAtParticles step (arrays (pp st) pp_r) idx ∈ l ∧
    BThetaAtParticles step (arrays (pp st) pp_r) idx ∈ l ∧
    PsiRow step (arrays (pp st) pp_r) idx ∈ l ∧
    BThetaRow step (arrays (pp st) pp_r) idx ∈ l.
Proof.
  intros Hslice Hu.
  apply slice_Done in Hslice
    as (l1 & xi & idx & p' & l2 & st' & l3 & p'' & Hpart & Hfields & Hadv & -> & ->).
  destruct (particle_steps_effect _ _ _ _ _ _ _ _ Hpart Hu)
    as (_ & Hr & Hq & _ & _ & _ & Hidx & Hl1 & _).
  apply field_steps_Done in Hfields
    as (w_rho & w_chi & r_first & _ & _ & _ & _ & _ & _ & Hpp & Hl2).
  cbn in Hl2, Hpp. rewrite Hr in Hl2.
  assert (∀ ev, ev ∈ l3 → ordering_of ev = None) as Hl3.
  { apply advance_Done in Hadv as [[-> _]|[(_ & -> & _)|(_ & -> & _)]];
      intros ev Hev; apply list_elem_of_In in Hev; cbn in Hev; by intuition subst. }
  exists l1, xi, idx, p'. split; [done|]. split; [done|]. split.
  { rewrite Hidx. split; [apply np_argsort_perm|apply np_argsort_sorted]. }
  split; [done|]. split; [done|]. split.
  - intros ev r' idx' Hev Hord.
    rewrite !elem_of_app in Hev. destruct Hev as [Hev|[Hev|Hev]].
    + rewrite Hl1 in Hev. apply list_elem_of_In in Hev. cbn in Hev.
      intuition subst; cbn in Hord; by simplify_eq.
    + rewrite Hl2 in Hev. apply list_elem_of_In in Hev. cbn in Hev.
      intuition subst; cbn in Hord; by simplify_eq.
    + by rewrite (Hl3 ev Hev) in Hord.
  - rewrite Hl1, Hl2. repeat split; apply list_elem_of_In; cbn; auto 12.
Qed.
End RadialOrdering.

Lemma deposition_weights_witness :
  ∃ l st'',
    slice (H := Sample.model) (Sample.inputs (Q2Qc 3) "rk4")
      (Sample.start (H := Sample.model) (Sample.inputs (Q2Qc 3) "rk4")).1 0
      (Sample.start (H := Sample.model) (Sample.inputs (Q2Qc 3) "rk4")).2
    = Done l st'' ∧
    ∃ w_rho w_chi, DepositRho 0 w_rho ∈ l ∧ DepositChi 0 w_chi ∈ l ∧
                   length w_rho = 3%nat ∧ length w_chi = 3%nat.
Proof.
  do 2 eexists. split; [vm_compute; reflexivity|].
  destruct (deposition_weights (H := Sample.model)
              (Sample.inputs (Q2Qc 3) "rk4")
              (Sample.start (H := Sample.model) (Sample.inputs (Q2Qc 3) "rk4")).1 0
              (Sample.start (H := Sample.model) (Sample.inputs (Q2Qc 3) "rk4")).2
              _ _ ltac:(vm_compute; reflexivity))
    as (l1 & xi & idx & p' & w_rho & w_chi & r_first & l3 & Hp & Hl & _ & _ & L1 & L2 & _).
  vm_compute in Hp. injection Hp as <- <- <- <-.
  exists w_rho, w_chi. rewrite Hl. split; [|split; [|split]].
  - apply elem_of_app. right. apply elem_of_app. left.
    apply list_elem_of_In. cbn. auto.
  - apply elem_of_app. right. apply elem_of_app. left.
    apply list_elem_of_In. cbn. auto.
  - exact L1.
  - exact L2.
Defined.

Lemma radial_ordering_witness :
  ∃ l st'' idx,
    slice (H := Sample.model) (Sample.inputs (Q2Qc 3) "rk4")
      (Sample.start (H := Sample.model) (Sample.inputs (Q2Qc 3) "rk4")).1 0
      (Sample.start (H := Sample.model) (Sample.inputs (Q2Qc 3) "rk4")).2
    = Done l st'' ∧
    sorts (arrays (pp (Sample.start (H := Sample.model)
                         (Sample.inputs (Q2Qc 3) "rk4")).2) pp_r) idx.
Proof.
  do 2 eexists.
  assert (uniform (arrays (pp (Sample.start (H := Sample.model)
                                 (Sample.inputs (Q2Qc 3) "rk4")).2))) as Hu.
  { intros b. destruct b; reflexivity. }
  destruct (radial_ordering (H := Sample.model)
              (Sample.inputs (Q2Qc 3) "rk4")
              (Sample.start (H := Sample.model) (Sample.inputs (Q2Qc 3) "rk4")).1 0
              (Sample.start (H := Sample.model) (Sample.inputs (Q2Qc 3) "rk4")).2
              _ _ ltac:(vm_compute; reflexivity) Hu)
    as (l1 & xi & idx & p' & _ & _ & Hsorts & _).
  exists idx. split; [vm_compute; reflexivity|]. exact Hsorts.
Defined.

(** The index sort of the sample routines sorts by ascending radius, yet on
    the particles at radii 3/2, 1/2, 1/2 the ordering given to the solvers
    of the first slice is 2, 1, 0: the two particles at radius 1/2 come in
    the reverse of their storage order. *)
Lemma radial_ordering_not_stable :
  ∃ l st'',
    let r := arrays (pp (Sample.start (H := Sample.model)
                           (Sample.inputs (Q2Qc 3) "rk4")).2) pp_r in
    let idx := np_argsort (PlasmaRoutines := Sample.model) r in
    slice (H := Sample.model) (Sample.inputs (Q2Qc 3) "rk4")
      (Sample.start (H := Sample.model) (Sample.inputs (Q2Qc 3) "rk4")).1 0
      (Sample.start (H := Sample.model) (Sample.inputs (Q2Qc 3) "rk4")).2
    = Done l st'' ∧
    PsiAtParticles 0 r idx ∈ l ∧ idx = [2; 1; 0]%nat ∧
    sorts r idx ∧ ¬ keeps_ties r idx.
Proof.
  do 2 eexists. intros r idx. split; [vm_compute; reflexivity|]. split.
  { apply list_elem_of_In. vm_compute. right. right. left. reflexivity. }
  split; [vm_compute; reflexivity|]. split.
  - split.
    + apply (np_argsort_perm (PlasmaRoutines := Sample.model)).
    + apply (np_argsort_sorted (PlasmaRoutines := Sample.model)).
  - intros Hties.
    assert (2 < 1)%nat as Habs; [|lia].
    eapply (Hties 0%nat 1%nat); [lia|vm_compute; reflexivity..].
Qed.

(** * The pusher name *)

Lemma bind_Done_l {A B} (m : outcome A) (f : A → outcome B) (l : list event) (a : A) :
  m = Done l a →
  m ≫= f = match f a with
           | Done l' b => Done (l ++ l') b
           | Failed l' e => Failed (l ++ l') e
           end.
Proof. by intros ->. Qed.

Lemma bind_Failed_l {A B} (m : outcome A) (f : A → outcome B) (l : list event) (e : exn) :
  m = Failed l e → m ≫= f = Failed l e.
Proof. by intros ->. Qed.

Lemma lift_Ok_bind {A B} (x : A) (k : A → outcome B) : lift (Ok x) ≫= k = k x.
Proof. unfold lift. rewrite (bind_Done_l _ _ [] x) by done. by destruct (k x). Qed.

Section PusherName.
Context `{PlasmaRoutines}.

(** With a slice still to come, an unknown pusher name is rejected at the
    dispatch; at the last slice the name is not looked at. *)
Lemma advance_unknown (a : args) (f : frame) (step : nat) (xi : Qc)
    (p : PlasmaParticles) :
  (Z.of_nat step < Z.of_nat (n_xi a) - 1)%Z →
  plasma_pusher a ≠ "ab5" → plasma_pusher a ≠ "rk4" →
  advance a f step xi p = Failed [] (ValueError (pusher_message (plasma_pusher a))).
Proof.
  intros Hstep Hab5 Hrk4. unfold advance.
  destruct (decide _) as [_|]; [|lia].
  destruct (decide (plasma_pusher a = "ab5")); [done|].
  by destruct (decide (plasma_pusher a = "rk4")).
Qed.

Lemma advance_last (a : args) (f : frame) (step : nat) (xi : Qc)
    (p : PlasmaParticles) :
  (Z.of_nat (n_xi a) - 1 ≤ Z.of_nat step)%Z →
  advance a f step xi p = Done [] p.
Proof. intros Hstep. unfold advance. destruct (decide _); [lia|done]. Qed.

Lemma slice_unknown_pusher (a : args) (f : frame) (st : state) :
  (2 ≤ n_xi a)%nat → plasma_pusher a ≠ "ab5" → plasma_pusher a ≠ "rk4" →
  ∀ l st', slice a f 0 st ≠ Done l st'.
Proof.
  intros Hn Hab5 Hrk4 l st' Hslice.
  apply slice_Done in Hslice as (? & xi & ? & ? & ? & st1 & ? & ? & _ & _ & Hadv & _).
  rewrite advance_unknown in Hadv by (done || lia). done.
Qed.

(** C3, as the code has it.  With at least two slices and a pusher name
    that is neither ['rk4'] nor ['ab5'], the run never completes; when the
    prologue and the work of the first slice complete, it raises the
    [ValueError] that names the invalid value, at the first dispatch of the
    pusher: the calls completed by then are the gather, the ordering, the
    solves, the freeze and the two depositions of that first slice, and no
    other. *)
Theorem unknown_pusher_raises_at_first_dispatch (a : args) :
  (2 ≤ n_xi a)%nat → plasma_pusher a ≠ "ab5" → plasma_pusher a ≠ "rk4" →
  (∀ l out, calculate_wakefields a ≠ Done l out) ∧
  (∀ f st l1 xi idx p' l2 st',
     prologue a = Ok (f, st) →
     particle_steps a f 0 (pp st) = Done l1 (xi, idx, p') →
     field_steps a f 0 xi idx (with_pp st p') = Done l2 st' →
     calculate_wakefields a
       = Failed (l1 ++ l2) (ValueError (pusher_message (plasma_pusher a))) ∧
     ∃ r r' w_rho w_chi,
       l1 ++ l2 = [Gather 0; Argsort 0; PsiAtParticles 0 r idx; UpdateGammaPz 0;
                   BThetaAtParticles 0 r' idx; Freeze 0; PsiRow 0 r' idx;
                   BThetaRow 0 r' idx; DepositRho 0 w_rho; DepositChi 0 w_chi]).
Proof.
  intros Hn Hab5 Hrk4.
  assert (seq 0 (n_xi a) = 0%nat :: seq 1 (n_xi a - 1)) as Hseq.
  { destruct (n_xi a) as [|n]; [lia|]. cbn. by rewrite Nat.sub_0_r. }
  split.
  - intros l out Hrun. unfold calculate_wakefields in Hrun. rewrite Hseq in Hrun.
    apply bind_Done in Hrun as (? & [f st] & ? & Hpro & Hrun & _).
    apply bind_Done in Hrun as (? & st1 & ? & Hsweep & _ & _).
    cbn [sweep] in Hsweep.
    apply bind_Done in Hsweep as (? & st2 & ? & Hslice & _ & _).
    by eapply slice_unknown_pusher.
  - intros f st l1 xi idx p' l2 st' Hpro Hpart Hfields. split.
    + unfold calculate_wakefields. rewrite Hpro, lift_Ok_bind, Hseq. cbn [sweep].
      assert (slice a f 0 st
              = Failed (l1 ++ l2) (ValueError (pusher_message (plasma_pusher a))))
        as Hslice.
      { unfold slice. rewrite (bind_Done_l _ _ _ _ Hpart).
        rewrite (bind_Done_l _ _ _ _ Hfields).
        rewrite (bind_Failed_l _ _ [] (ValueError (pusher_message (plasma_pusher a)))).
        - by rewrite app_nil_r.
        - apply advance_unknown; [lia|done..]. }
      rewrite (bind_Failed_l _ _ _ _ Hslice).
      by rewrite (bind_Failed_l _ _ (l1 ++ l2)
                    (ValueError (pusher_message (plasma_pusher a)))).
    + apply particle_steps_Done in Hpart
        as (s2 & s3 & s5 & bt & _ & _ & _ & _ & _ & _ & Hfr & -> & ->).
      apply field_steps_Done in Hfields
        as (w_rho & w_chi & r_first & _ & _ & _ & _ & _ & _ & _ & ->).
      cbn.
      assert (s5 pp_r = s3 pp_r) as ->.
      { unfold freeze in Hfr. destruct (decide _) in Hfr.
        - destruct (assign_at _ _ _) in Hfr; [|done]. cbn in Hfr.
          destruct (assign_at _ _ _) in Hfr; [|done]. cbn in Hfr.
          destruct (assign_at _ _ _) in Hfr; [|done]. cbn in Hfr.
          injection Hfr as <-. by rewrite !fn_lookup_insert_ne.
        - injection Hfr as <-. by rewrite fn_lookup_insert_ne. }
      by eexists _, _, _, _.
Qed.
End PusherName.

Lemma unknown_pusher_raises_at_first_dispatch_witness :
  ∃ l, calculate_wakefields (H := Sample.model) (Sample.inputs (Q2Qc 3) "euler")
       = Failed l (ValueError (pusher_message "euler")).
Proof.
  destruct (unknown_pusher_raises_at_first_dispatch (H := Sample.model)
              (Sample.inputs (Q2Qc 3) "euler")) as [_ Hraise].
  - vm_compute. lia.
  - discriminate.
  - discriminate.
  - edestruct Hraise as [Hrun _].
    + vm_compute. reflexivity.
    + vm_compute. reflexivity.
    + vm_compute. reflexivity.
    + eexists. exact Hrun.
Defined.

(** Three slices and the pusher name ['euler']: the error is raised, but
    only after the ten calls of the first slice—gather, ordering, solves,
    freeze, depositions—have been made. *)
Lemma unknown_pusher_after_first_slice :
  ∃ l, calculate_wakefields (H := Sample.model) (Sample.inputs (Q2Qc 3) "euler")
       = Failed l (ValueError "Plasma pusher 'euler' not recognized.") ∧
       length l = 10%nat ∧ head l = Some (Gather 0) ∧ l ≠ [].
Proof.
  eexists. split; [vm_compute; reflexivity|]. split; [reflexivity|].
  split; [reflexivity|discriminate].
Qed.

(** * The prologue *)

Lemma np_linspace_length (start stop : Qc) (num : nat) :
  length (np_linspace start stop num) = num.
Proof.
  unfold np_linspace. destruct num as [|[|num]]; [done|done|].
  by rewrite length_fmap, length_seq.
Qed.

Lemma getitem_ok (l : list Qc) (i : nat) :
  (i < length l)%nat → ∃ x, getitem l i = Ok x.
Proof.
  intros Hi. unfold getitem.
  destruct (lookup_lt_is_Some_2 l i Hi) as [x ->]. by exists x.
Qed.

Lemma py_getitem_ok (l : list Qc) (i : Z) :
  (- Z.of_nat (length l) ≤ i < Z.of_nat (length l))%Z →
  ∃ x, py_getitem l i = Ok x.
Proof.
  intros Hi. unfold py_getitem, py_index.
  destruct (decide _) as [H0|H0]; cbn.
  - apply getitem_ok. lia.
  - destruct (decide _); [|lia]. cbn. apply getitem_ok. lia.
Qed.

Lemma Qcmult_ne_0 (x y : Qc) : x ≠ 0 → y ≠ 0 → x * y ≠ 0.
Proof. intros Hx Hy [E|E]%Qcmult_integral; done. Qed.

Lemma Qc_pos_ne_0 (x : Qc) : 0 < x → x ≠ 0.
Proof. intros Hx E. rewrite E in Hx. by apply Qclt_not_eq in Hx. Qed.

Lemma Qcinv_ne_0 (x : Qc) : x ≠ 0 → / x ≠ 0.
Proof.
  intros Hx E. pose proof (Qcmult_inv_r x Hx) as H1.
  rewrite E, Qcmult_0_r in H1. done.
Qed.

Lemma Qc_of_Z_ne_0 (z : Z) : z ≠ 0%Z → Qc_of_Z z ≠ 0.
Proof.
  intros Hz E. apply (f_equal this) in E. unfold Qc_of_Z in E. cbn in E.
  injection E as E. done.
Qed.

Lemma np_divide_scalar_ne (v : list Qc) (c : Qc) :
  c ≠ 0 → np_divide_scalar v c = Ok ((λ x, x / c) <$> v).
Proof. intros Hc. unfold np_divide_scalar. by destruct (decide (c = 0)). Qed.

Lemma beam_charge_distribution_ok `{BeamRoutines} (b : beam) (n_p : Qc)
    (n_r n_xi : nat) (r_min xi_min dr dxi : Qc) (p_shape : string) :
  0 < n_p → dr ≠ 0 → dxi ≠ 0 → accepts_shape p_shape →
  ∃ q_dist,
    beam_charge_distribution b n_p n_r n_xi r_min xi_min dr dxi p_shape
      = Ok q_dist.
Proof.
  intros Hn Hdr Hdxi Hshape. unfold beam_charge_distribution.
  rewrite np_divide_ne by done. cbn.
  assert (0 < plasma_skin_depth (n_p / million)) as Hsd.
  { apply plasma_skin_depth_pos. apply Qcmult_pos_pos; [done|].
    by apply Qcinv_pos. }
  apply Qc_pos_ne_0 in Hsd.
  do 3 (rewrite (np_divide_scalar_ne _ (plasma_skin_depth (n_p / million)))
          by done; cbn).
  rewrite np_divide_scalar_ne by (apply Qc_pos_ne_0, ct_e_pos). cbn.
  rewrite np_divide_scalar_ne.
  2: { repeat apply Qcmult_ne_0; try done.
       - apply Qc_pos_ne_0, np_pi_pos.
       - by apply Qc_pos_ne_0. }
  cbn.
  match goal with
  | |- context [deposit_3d_distribution ?z ?x ?y ?w ?zm ?rm ?nz ?nr ?dz ?d ?g ?s ?u] =>
      destruct (Hshape z x y w zm rm nz nr dz d g u) as [g' ->]
  end.
  by eexists.
Qed.

Lemma beam_field_shape (q_dist b_theta : grid) (n_r n_xi : nat) (dr : Qc) :
  beam_field q_dist n_r n_xi dr = Ok b_theta →
  has_shape b_theta (n_xi + 4) (n_r + 4).
Proof.
  unfold beam_field. intros Hb.
  destruct (add_quarter_first_column _ _) in Hb; [cbn in Hb|done].
  destruct (grid_map2 _ _ _) in Hb; [cbn in Hb|done].
  destruct (grid_rowwise _ _ _) in Hb; [cbn in Hb|done].
  by destruct (set_interior_spec _ _ _ n_xi n_r (np_zeros_shape _ _) Hb)
    as (_ & Hs & _).
Qed.

Section Prologue.
Context `{PlasmaRoutines}.

(** No argument is checked on entry: with at least one radial cell, two
    slices, a laser mesh of the shape of the grid, a positive density and
    non-degenerate extents, the prologue returns, whatever the signs of the
    extents and the lengths of the beam arrays. *)
Lemma prologue_ok (a : args) :
  (1 ≤ n_r a)%nat → (2 ≤ n_xi a)%nat →
  has_shape (laser_a2 a) (n_xi a) (n_r a) →
  0 < n_p a → r_max a ≠ 0 → xi_max a ≠ xi_min a →
  accepts_shape (p_shape a) →
  ∃ f st, prologue a = Ok (f, st).
Proof.
  intros Hnr Hnxi Hlaser Hnp Hrmax Hxi Hshape. unfold prologue.
  assert (0 < plasma_skin_depth (n_p a * micro)) as Hsd.
  { apply plasma_skin_depth_pos. by apply Qcmult_pos_pos. }
  apply Qc_pos_ne_0 in Hsd.
  set (s_d := plasma_skin_depth (n_p a * micro)) in *.
  rewrite !(np_divide_ne _ s_d) by done. cbn.
  assert (Qc_of_nat (n_r a) ≠ 0) as Hnr0 by (apply Qc_of_Z_ne_0; lia).
  assert (Qc_of_Z (Z.of_nat (n_xi a) - 1) ≠ 0) as Hnxi0
    by (apply Qc_of_Z_ne_0; lia).
  rewrite !np_divide_ne by done. cbn.
  assert (∃ rmp, match r_max_plasma_arg a with
                 | Some x => np_divide x s_d
                 | None => Ok (r_max a / s_d)
                 end = Ok rmp) as [rmp ->].
  { destruct (r_max_plasma_arg a); [rewrite np_divide_ne by done|]; by eexists. }
  cbn.
  destruct (set_interior_ok (np_zeros (n_xi a + 4) (n_r a + 4)) (laser_a2 a)
              (n_xi a) (n_r a)) as [a2 ->]; [apply np_zeros_shape|done|].
  cbn.
  destruct (set_interior_ok (np_zeros (n_xi a + 4) (n_r a + 4))
              (radial_gradient (laser_a2 a) (r_max a / s_d / Qc_of_nat (n_r a)))
              (n_xi a) (n_r a)) as [na2 ->];
    [apply np_zeros_shape|by apply radial_gradient_shape|].
  cbn.
  match goal with
  | |- context [getitem (np_linspace ?s ?e (n_r a)) 0] =>
      destruct (getitem_ok (np_linspace s e (n_r a)) 0) as [r0 ->];
      [rewrite np_linspace_length; lia|]
  end.
  cbn.
  match goal with
  | |- context [getitem (np_linspace ?s ?e (n_xi a)) 0] =>
      destruct (getitem_ok (np_linspace s e (n_xi a)) 0) as [xi0 ->];
      [rewrite np_linspace_length; lia|]
  end.
  cbn.
  set (d := r_max a / s_d / Qc_of_nat (n_r a)).
  set (dx := (xi_max a / s_d - xi_min a / s_d) / Qc_of_Z (Z.of_nat (n_xi a) - 1)).
  assert (d ≠ 0) as Hd.
  { unfold d, Qcdiv. repeat apply Qcmult_ne_0; try done; by apply Qcinv_ne_0. }
  assert (dx ≠ 0) as Hdx.
  { unfold dx. replace (xi_max a / s_d - xi_min a / s_d)
      with ((xi_max a - xi_min a) / s_d) by (field; done).
    unfold Qcdiv. repeat apply Qcmult_ne_0.
    - intros E. apply Hxi. apply Qcle_antisym; apply Qcle_minus_iff.
      + replace (xi_min a + - xi_max a) with (- (xi_max a - xi_min a)) by ring.
        rewrite E. done.
      + replace (xi_max a + - xi_min a) with (xi_max a - xi_min a) by ring.
        rewrite E. done.
    - by apply Qcinv_ne_0.
    - by apply Qcinv_ne_0. }
  unfold calculate_beam_source_from_particles.
  destruct (beam_charge_distribution_ok (beam_part a) (n_p a) (n_r a) (n_xi a)
              r0 xi0 d dx (p_shape a)) as [q Hq]; try done.
  rewrite Hq. cbn.
  destruct (beam_field_ok q (n_r a) (n_xi a) d) as (b & -> & _); try done.
  { by eapply beam_charge_distribution_shape. }
  cbn. by eexists _, _.
Qed.

(** What a returned prologue hands to the sweep. *)
Lemma prologue_Ok (a : args) (f : frame) (st : state) :
  prologue a = Ok (f, st) →
  length (xi_fld f) = n_xi a ∧ length (r_fld f) = n_r a ∧
  has_shape (b_theta_0_mesh f) (n_xi a + 4) (n_r a + 4) ∧
  has_shape (psi_rz st) (n_xi a + 4) (n_r a + 4) ∧
  has_shape (b_theta_bar_rz st) (n_xi a + 4) (n_r a + 4) ∧
  has_shape (rho_rz st) (n_xi a + 4) (n_r a + 4) ∧
  has_shape (chi_rz st) (n_xi a + 4) (n_r a + 4) ∧
  uniform (arrays (pp st)).
Proof.
  unfold prologue. intros Hpro.
  destruct (np_divide (r_max a) _) as [rm|] eqn:E1; [cbn in Hpro|done].
  destruct (np_divide (xi_min a) _) as [x0|] eqn:E2; [cbn in Hpro|done].
  destruct (np_divide (xi_max a) _) as [x1|] eqn:E3; [cbn in Hpro|done].
  destruct (np_divide rm _) as [d|] eqn:E4; [cbn in Hpro|done].
  destruct (np_divide (x1 - x0) _) as [dx|] eqn:E5; [cbn in Hpro|done].
  destruct (match r_max_plasma_arg a with Some _ => _ | None => _ end)
    as [rmp|] eqn:E6; [cbn in Hpro|done].
  destruct (set_interior _ (laser_a2 a)) as [a2|] eqn:E7; [cbn in Hpro|done].
  destruct (set_interior _ (radial_gradient _ _)) as [na2|] eqn:E8;
    [cbn in Hpro|done].
  destruct (getitem (np_linspace _ _ (n_r a)) 0) as [r0|] eqn:E9;
    [cbn in Hpro|done].
  destruct (getitem (np_linspace _ _ (n_xi a)) 0) as [xi0|] eqn:E10;
    [cbn in Hpro|done].
  destruct (calculate_beam_source_from_particles _ _ _ _ _ _ _ _ _)
    as [b0|] eqn:E11; [cbn in Hpro|done].
  injection Hpro as <- <-. cbn.
  rewrite !np_linspace_length.
  split; [done|]. split; [done|]. split.
  { unfold calculate_beam_source_from_particles in E11.
    destruct (beam_charge_distribution _ _ _ _ _ _ _ _ _) in E11;
      [cbn in E11|done].
    by eapply beam_field_shape. }
  do 4 (split; [apply np_zeros_shape|]).
  apply new_plasma_particles_uniform.
Qed.
End Prologue.

(** * Arguments are not validated *)

Lemma log_of_emit_bind {A} (ev : event) (k : () → outcome A) :
  log_of (emit ev ≫= k) = ev :: log_of (k ()).
Proof. unfold emit. rewrite (bind_Done_l _ _ [ev] ()) by done. by destruct (k ()). Qed.

Lemma log_of_bind_prefix {A B} (m : outcome A) (f : A → outcome B) (ev : event) :
  (∃ l, log_of m = ev :: l) → ∃ l, log_of (m ≫= f) = ev :: l.
Proof.
  intros [l Hl]. destruct m as [l' x|l' e]; cbn in Hl; subst.
  - rewrite (bind_Done_l _ _ (ev :: l) x) by done. destruct (f x); by eexists.
  - by exists l.
Qed.

Section NoValidation.
Context `{PlasmaRoutines}.

Lemma particle_steps_starts (a : args) (f : frame) (step : nat) (p : PlasmaParticles) :
  (step < length (xi_fld f))%nat → (0 < length (r_fld f))%nat →
  ∃ l, log_of (particle_steps a f step p) = Gather step :: l.
Proof.
  intros Hxi Hr. unfold particle_steps.
  destruct (py_getitem_ok (xi_fld f) (- 1 - Z.of_nat step)) as [xi ->]; [lia|].
  rewrite lift_Ok_bind.
  destruct (py_getitem_ok (xi_fld f) 0) as [x0 ->]; [lia|]. rewrite lift_Ok_bind.
  destruct (py_getitem_ok (xi_fld f) (- 1)) as [x1 ->]; [lia|]. rewrite lift_Ok_bind.
  destruct (py_getitem_ok (r_fld f) 0) as [r0 ->]; [lia|]. rewrite lift_Ok_bind.
  destruct (py_getitem_ok (r_fld f) (- 1)) as [r1 ->]; [lia|]. rewrite lift_Ok_bind.
  destruct (gather_sources_qs_baxevanis _ _ _ _ _ _ _ _ _ _ _) as [[g1 g2] g3].
  rewrite log_of_emit_bind. by eexists.
Qed.

(** C4, as the code has it.  [calculate_wakefields] checks none of its
    arguments before the sweep.  With at least one radial cell, two slices,
    a laser mesh of the shape of the grid, a positive density, extents that
    are not zero and a shape name that the beam deposition accepts, the
    prologue returns and the sweep starts with the gather of the first
    slice, whatever the signs of the extents and whatever the lengths of
    the beam arrays. *)
Theorem no_validation_before_sweep (a : args) :
  (1 ≤ n_r a)%nat → (2 ≤ n_xi a)%nat →
  has_shape (laser_a2 a) (n_xi a) (n_r a) →
  0 < n_p a → r_max a ≠ 0 → xi_max a ≠ xi_min a →
  accepts_shape (p_shape a) →
  (∃ f st, prologue a = Ok (f, st)) ∧
  (∃ l, log_of (calculate_wakefields a) = Gather 0 :: l).
Proof.
  intros Hnr Hnxi Hlaser Hnp Hrmax Hxi Hshape.
  destruct (prologue_ok a) as (f & st & Hpro); try done.
  split; [by exists f, st|].
  destruct (prologue_Ok _ _ _ Hpro) as (Lxi & Lr & _).
  unfold calculate_wakefields. rewrite Hpro, lift_Ok_bind.
  assert (seq 0 (n_xi a) = 0%nat :: seq 1 (n_xi a - 1)) as ->.
  { destruct (n_xi a) as [|n]; [lia|]. cbn. by rewrite Nat.sub_0_r. }
  cbn [sweep]. unfold slice. do 3 apply log_of_bind_prefix.
  apply particle_steps_starts; lia.
Qed.
End NoValidation.

Lemma no_validation_before_sweep_witness :
  ∃ l, log_of (calculate_wakefields (H := Sample.model)
                 (Sample.inputs (- Q2Qc 3) "rk4")) = Gather 0 :: l.
Proof.
  apply (no_validation_before_sweep (H := Sample.model)
           (Sample.inputs (- Q2Qc 3) "rk4")).
  - vm_compute. lia.
  - vm_compute. lia.
  - split; [reflexivity|]. repeat constructor.
  - reflexivity.
  - discriminate.
  - discriminate.
  - intros z x y w z_min r_min nz nr dz dr g ruyten. by eexists.
Defined.

(** A negative radial extent and valid arguments otherwise: no error is
    raised; the sweep runs through its three slices and the seven values
    are returned. *)
Lemma negative_extent_produces_grids :
  r_max (Sample.inputs (- Q2Qc 3) "rk4") < 0 ∧
  ∃ l out, calculate_wakefields (H := Sample.model)
             (Sample.inputs (- Q2Qc 3) "rk4") = Done l out ∧
           length l = 32%nat ∧ length (out_rho out) = 7%nat.
Proof.
  split; [reflexivity|]. do 2 eexists.
  split; [vm_compute; reflexivity|]. split; reflexivity.
Qed.

(** * The derived fields *)

Lemma gradient_along_Ok {V} (lin3 : Qc → Qc → Qc → V → V → V → V)
    (diff_over : Qc → V → V → V) (zero : V) (f out : list V) (h : Qc) :
  gradient_along lin3 diff_over zero f h = Ok out →
  (3 ≤ length f)%nat ∧ h ≠ 0 ∧ length out = length f ∧
  ∀ j, (j < length f)%nat →
    out !! j = Some (
      let at_ k := default zero (f !! k) in
      if decide (j = 0)%nat then
        lin3 (- three_halves / h) (2 / h) (- half / h)
             (at_ 0%nat) (at_ 1%nat) (at_ 2%nat)
      else if decide (j = length f - 1)%nat then
        lin3 (half / h) (- 2 / h) (three_halves / h)
             (at_ (length f - 3)%nat) (at_ (length f - 2)%nat)
             (at_ (length f - 1)%nat)
      else diff_over (2 * h) (at_ (j + 1)%nat) (at_ (j - 1)%nat)).
Proof.
  unfold gradient_along. destruct (decide (length f < 3)%nat); [done|].
  destruct (decide (h = 0)); [done|]. intros [= <-].
  split; [lia|]. split; [done|]. split; [by rewrite length_imap|].
  intros j Hj. rewrite list_lookup_imap.
  by destruct (lookup_lt_is_Some_2 f j Hj) as [x ->].
Qed.

Lemma lin3_first (h x y z : Qc) :
  h ≠ 0 →
  lin3_num (- three_halves / h) (2 / h) (- half / h) x y z
  = (- Q2Qc 3 * x + four * y - z) / (2 * h).
Proof.
  intros Hh. unfold lin3_num.
  replace three_halves with (Q2Qc 3 / 2) by (by apply Qc_is_canon).
  replace half with (1 / 2) by (by apply Qc_is_canon).
  replace four with (2 * 2) by (by apply Qc_is_canon).
  field. done.
Qed.

Lemma lin3_last (h x y z : Qc) :
  h ≠ 0 →
  lin3_num (half / h) (- 2 / h) (three_halves / h) x y z
  = (Q2Qc 3 * z - four * y + x) / (2 * h).
Proof.
  intros Hh. unfold lin3_num.
  replace three_halves with (Q2Qc 3 / 2) by (by apply Qc_is_canon).
  replace half with (1 / 2) by (by apply Qc_is_canon).
  replace four with (2 * 2) by (by apply Qc_is_canon).
  field. done.
Qed.

(** [np.gradient] along a row of numbers is the second-order difference. *)
Lemma gradient_numbers (row out : list Qc) (h : Qc) :
  gradient_along lin3_num diff_over_num 0 row h = Ok out →
  (3 ≤ length row)%nat ∧ h ≠ 0 ∧ length out = length row ∧
  ∀ k, (k < length row)%nat →
    out !! k = Some (second_order_difference
                       (λ k', default 0 (row !! k')) (length row) h k).
Proof.
  intros Hg. apply gradient_along_Ok in Hg as (Hn & Hh & Hl & Hout).
  split; [done|]. split; [done|]. split; [done|].
  intros k Hk. rewrite (Hout k Hk). f_equal. unfold second_order_difference.
  cbv zeta. destruct (decide (k = 0)%nat); [by apply lin3_first|].
  destruct (decide (k = length row - 1)%nat); [by apply lin3_last|]. done.
Qed.

Lemma zip3_lookup (f : Qc → Qc → Qc → Qc) (x y z : list Qc) (k : nat) (a b c : Qc) :
  x !! k = Some a → y !! k = Some b → z !! k = Some c →
  zip3 f x y z !! k = Some (f a b c).
Proof.
  intros Hx Hy Hz. unfold zip3. rewrite lookup_zip_with, lookup_zip_with, Hx. cbn.
  rewrite Hy. cbn. by rewrite Hz.
Qed.

(** [np.gradient] along the rows of a grid is the second-order difference
    down each column. *)
Lemma gradient_rows (g out : grid) (h : Qc) (rows cols : nat) :
  has_shape g rows cols →
  gradient_along lin3_row diff_over_row [] g h = Ok out →
  (3 ≤ rows)%nat ∧ h ≠ 0 ∧ has_shape out rows cols ∧
  ∀ j k, (j < rows)%nat → (k < cols)%nat →
    cell out j k = Some (second_order_difference
                           (λ j', default 0 (cell g j' k)) rows h j).
Proof.
  intros Hs Hg. pose proof Hs as [Hr Hc].
  apply gradient_along_Ok in Hg as (Hn & Hh & Hl & Hout). rewrite Hr in *.
  assert (∀ j, (j < rows)%nat →
            ∃ row, g !! j = Some row ∧ default [] (g !! j) = row ∧
                   length row = cols) as Hrow.
  { intros j Hj. destruct (lookup_lt_is_Some_2 g j) as [row Hrow]; [lia|].
    exists row. rewrite Hrow. repeat split.
    by eapply has_shape_row. }
  assert (∀ j k, (j < rows)%nat → (k < cols)%nat →
            ∃ x, default [] (g !! j) !! k = Some x ∧
                 default 0 (cell g j k) = x) as Hcell.
  { intros j k Hj Hk. destruct (Hrow j Hj) as (row & Eg & Ed & Lrow).
    destruct (lookup_lt_is_Some_2 row k) as [x Hx]; [lia|].
    exists x. rewrite Ed. split; [done|]. unfold cell. by rewrite Eg; cbn; rewrite Hx. }
  assert (∀ j k, (j < rows)%nat → (k < cols)%nat →
            cell out j k = Some (second_order_difference
                                   (λ j', default 0 (cell g j' k)) rows h j))
    as Hcells.
  { intros j k Hj Hk. unfold cell at 1. rewrite (Hout j Hj).
    cbn [mbind option_bind]. cbv zeta. unfold second_order_difference.
    destruct (decide (j = 0)%nat).
    - destruct (Hcell 0%nat k) as (x & Hx & Ex); [lia|done|].
      destruct (Hcell 1%nat k) as (y & Hy & Ey); [lia|done|].
      destruct (Hcell 2%nat k) as (z & Hz & Ez); [lia|done|].
      unfold lin3_row. rewrite (zip3_lookup _ _ _ _ _ x y z) by done.
      by rewrite lin3_first, Ex, Ey, Ez.
    - destruct (decide (j = rows - 1)%nat).
      + destruct (Hcell (rows - 3)%nat k) as (x & Hx & Ex); [lia|done|].
        destruct (Hcell (rows - 2)%nat k) as (y & Hy & Ey); [lia|done|].
        destruct (Hcell (rows - 1)%nat k) as (z & Hz & Ez); [lia|done|].
        unfold lin3_row. rewrite (zip3_lookup _ _ _ _ _ x y z) by done.
        by rewrite lin3_last, Ex, Ey, Ez.
      + destruct (Hcell (j + 1)%nat k) as (x & Hx & Ex); [lia|done|].
        destruct (Hcell (j - 1)%nat k) as (y & Hy & Ey); [lia|done|].
        unfold diff_over_row. rewrite lookup_zip_with, Hx.
        cbn [mbind option_bind]. rewrite Hy. cbn [mbind option_bind].
        by rewrite Ex, Ey. }
  split; [done|]. split; [done|]. split; [|done].
  split; [lia|]. apply Forall_lookup. intros j row Hj.
  pose proof (lookup_lt_Some _ _ _ Hj) as Lj. rewrite Hl in Lj.
  apply Nat.le_antisymm.
  - apply Nat.nlt_ge. intros Hlt.
    destruct (lookup_lt_is_Some_2 row cols Hlt) as [x Hx].
    rewrite (Hout j Lj) in Hj. injection Hj as Hj.
    destruct (Hrow 0%nat) as (r0 & _ & E0 & L0); [lia|].
    destruct (Hrow 1%nat) as (r1 & _ & E1 & L1); [lia|].
    destruct (Hrow 2%nat) as (r2 & _ & E2 & L2); [lia|].
    destruct (Hrow (rows - 3)%nat) as (r3 & _ & E3 & L3); [lia|].
    destruct (Hrow (rows - 2)%nat) as (r4 & _ & E4 & L4); [lia|].
    destruct (Hrow (rows - 1)%nat) as (r5 & _ & E5 & L5); [lia|].
    apply (f_equal length) in Hj. apply lookup_lt_Some in Hx.
    cbv zeta in Hj. repeat destruct (decide _) in Hj.
    + unfold lin3_row, zip3 in Hj. rewrite E0, E1, E2 in Hj.
      rewrite !length_zip_with in Hj. lia.
    + unfold lin3_row, zip3 in Hj. rewrite E3, E4, E5 in Hj.
      rewrite !length_zip_with in Hj. lia.
    + destruct (Hrow (j + 1)%nat) as (r6 & _ & E6 & L6); [lia|].
      destruct (Hrow (j - 1)%nat) as (r7 & _ & E7 & L7); [lia|].
      unfold diff_over_row in Hj. rewrite E6, E7 in Hj.
      rewrite length_zip_with in Hj. lia.
  - apply Nat.nlt_ge. intros Hlt.
    assert (cols - 1 < cols)%nat as Hk by lia.
    specialize (Hcells j (cols - 1)%nat Lj Hk). unfold cell in Hcells.
    rewrite Hj in Hcells. cbn in Hcells. apply lookup_lt_Some in Hcells. lia.
Qed.

Lemma collect_Ok {A B} (f : A → result B) (l : list A) : ∀ out : list B,
  collect (f <$> l) = Ok out → Forall2 (λ x y, f x = Ok y) l out.
Proof.
  induction l as [|x l IH]; intros out Hc; cbn in Hc.
  - injection Hc as <-. constructor.
  - destruct (f x) as [y|] eqn:Ey; [cbn in Hc|done].
    destruct (collect (f <$> l)) as [ys|] eqn:Eys; [cbn in Hc|done].
    injection Hc as <-. constructor; [done|]. by apply IH.
Qed.

Lemma np_gradient_Ok (f g0 g1 : grid) (d0 d1 : Qc) (rows cols : nat) :
  has_shape f rows cols →
  np_gradient f d0 d1 = Ok (g0, g1) →
  (3 ≤ rows)%nat ∧ (3 ≤ cols)%nat ∧ d0 ≠ 0 ∧ d1 ≠ 0 ∧
  has_shape g0 rows cols ∧ has_shape g1 rows cols ∧
  ∀ j k, (j < rows)%nat → (k < cols)%nat →
    cell g0 j k = Some (second_order_difference
                          (λ j', default 0 (cell f j' k)) rows d0 j) ∧
    cell g1 j k = Some (second_order_difference
                          (λ k', default 0 (cell f j k')) cols d1 k).
Proof.
  intros Hs Hg. unfold np_gradient in Hg.
  destruct (gradient_along lin3_row _ _ _ _) as [h0|] eqn:E0; [cbn in Hg|done].
  destruct (collect _) as [h1|] eqn:E1; [cbn in Hg|done].
  injection Hg as <- <-.
  destruct (gradient_rows _ _ _ _ _ Hs E0) as (Hrows & Hd0 & Hs0 & Hcells0).
  apply collect_Ok in E1. pose proof Hs as [Hr Hc].
  assert (∀ j row, f !! j = Some row →
            ∃ out, h1 !! j = Some out ∧
                   gradient_along lin3_num diff_over_num 0 row d1 = Ok out)
    as Hrow.
  { intros j row Hj. destruct (Forall2_lookup_l _ _ _ _ _ E1 Hj) as (out & Ho & Eo).
    by exists out. }
  destruct (lookup_lt_is_Some_2 f 0) as [row0 Hrow0]; [lia|].
  destruct (Hrow _ _ Hrow0) as (out0 & _ & Eout0).
  apply gradient_numbers in Eout0 as (Hcols & Hd1 & _).
  rewrite (has_shape_row _ _ _ _ _ Hs Hrow0) in Hcols.
  split; [done|]. split; [done|]. split; [done|]. split; [done|].
  split; [done|]. split.
  - split; [by rewrite <- (Forall2_length _ _ _ E1)|].
    apply Forall_lookup. intros j out Hout.
    destruct (Forall2_lookup_r _ _ _ _ _ E1 Hout) as (row & Hj & Eo).
    apply gradient_numbers in Eo as (_ & _ & Lo & _). rewrite Lo.
    exact (has_shape_row _ _ _ _ _ Hs Hj).
  - intros j k Hj Hk. split; [by apply Hcells0|].
    destruct (lookup_lt_is_Some_2 f j) as [row Hrowj]; [lia|].
    destruct (Hrow _ _ Hrowj) as (out & Hout & Eo).
    apply gradient_numbers in Eo as (_ & _ & _ & Hpoint).
    pose proof (has_shape_row _ _ _ _ _ Hs Hrowj) as Lrow.
    unfold cell at 1. rewrite Hout. cbn [mbind option_bind].
    rewrite Hpoint by lia. rewrite Lrow. unfold cell. by rewrite Hrowj.
Qed.

Lemma grid_map_shape (f : Qc → Qc) (g : grid) (rows cols : nat) :
  has_shape g rows cols → has_shape (grid_map f g) rows cols.
Proof.
  intros [Hr Hc]. unfold grid_map. split; [by rewrite length_fmap|].
  rewrite Forall_fmap. eapply Forall_impl; [done|].
  intros row Hrow. unfold compose. cbv beta in *. by rewrite length_fmap.
Qed.

Lemma grid_map_cell (f : Qc → Qc) (g : grid) (j k : nat) :
  cell (grid_map f g) j k = f <$> cell g j k.
Proof.
  unfold cell, grid_map. rewrite list_lookup_fmap.
  destruct (g !! j) as [row|]; [|done]. cbn. by rewrite list_lookup_fmap.
Qed.

Lemma zip_grid_shape (f : Qc → Qc → Qc) (a b : grid) (rows cols : nat) :
  has_shape a rows cols → has_shape b rows cols →
  has_shape (zip_with (zip_with f) a b) rows cols.
Proof.
  intros [Ha Hca] [Hb Hcb]. split; [rewrite length_zip_with; lia|].
  apply Forall_lookup. intros j row Hj.
  apply lookup_zip_with_Some in Hj as (x & y & -> & Hx & Hy).
  rewrite Forall_lookup in Hca, Hcb.
  rewrite length_zip_with, (Hca _ _ Hx), (Hcb _ _ Hy). lia.
Qed.

Lemma zip_grid_cell (f : Qc → Qc → Qc) (a b : grid) (j k : nat) (x y : Qc) :
  cell a j k = Some x → cell b j k = Some y →
  cell (zip_with (zip_with f) a b) j k = Some (f x y).
Proof.
  unfold cell. intros Ha Hb. rewrite lookup_zip_with.
  destruct (a !! j) as [ra|]; [|done]. destruct (b !! j) as [rb|]; [|done].
  cbn in *. rewrite lookup_zip_with, Ha. cbn. by rewrite Hb.
Qed.

Section DerivedFields.
Context `{PlasmaRoutines}.

Lemma slice_shaped (a : args) (f : frame) (step : nat) (st st' : state)
    (l : list event) :
  slice a f step st = Done l st' → grids_shaped a st → grids_shaped a st'.
Proof.
  intros Hslice (Hpsi & Hbt & Hrho & Hchi).
  apply slice_Done in Hslice
    as (l1 & xi & idx & p' & l2 & st1 & l3 & p'' & _ & Hfields & _ & -> & _).
  apply field_steps_Done in Hfields
    as (w_rho & w_chi & r_first & Epsi & Ebt & _ & _ & Erho & Echi & _ & _).
  cbn in *.
  apply (set_row_inner_spec _ _ _ _ (n_xi a + 4) (n_r a)) in Epsi
    as (_ & _ & _ & Hpsi' & _); [|done].
  apply (set_row_inner_spec _ _ _ _ (n_xi a + 4) (n_r a)) in Ebt
    as (_ & _ & _ & Hbt' & _); [|done].
  unfold grids_shaped. cbn. split; [done|]. split; [done|]. split.
  - exact (deposit_plasma_particles_shape _ _ _ _ _ _ _ _ _ _ _ _ _ _ Erho Hrho).
  - exact (deposit_plasma_particles_shape _ _ _ _ _ _ _ _ _ _ _ _ _ _ Echi Hchi).
Qed.

Lemma sweep_shaped (a : args) (f : frame) (steps : list nat) :
  ∀ (st st' : state) (l : list event),
    sweep a f steps st = Done l st' → grids_shaped a st → grids_shaped a st'.
Proof.
  induction steps as [|step steps IH]; intros st st' l Hsweep Hs; cbn in Hsweep.
  - by injection Hsweep as <- <-.
  - apply bind_Done in Hsweep as (l1 & st1 & l2 & Hslice & Hrest & _).
    eapply IH; [done|]. by eapply slice_shaped.
Qed.

(** C6.  When [calculate_wakefields] returns, the sweep has completed on
    the frame of the prologue with a final state [st], and with [psi] the
    interior of the potential grid of [st]: the interior of [E_z] is minus
    the second-order difference of [psi] along the slices with spacing
    [dxi], the interior of [W_r] is minus its second-order difference along
    the radius with spacing [dr]; [B_theta] is [b_theta_bar + b_theta_0_mesh]
    and [E_r] is [W_r + B_theta], cell by cell over the whole arrays; the
    values returned are the five grids [rho], [chi], [E_r], [E_z], [B_theta]
    and the two coordinate arrays. *)
Theorem derived_fields (a : args) (l : list event) (out : fields) :
  calculate_wakefields a = Done l out →
  ∃ f st0 st W_r,
    prologue a = Ok (f, st0) ∧
    sweep a f (seq 0 (n_xi a)) st0 = Done l st ∧
    epilogue a f st = Ok (W_r, out) ∧
    (∀ j k, (j < n_xi a)%nat → (k < n_r a)%nat →
       cell (out_E_z out) (j + 2) (k + 2)
       = Some (- second_order_difference
                   (λ j', default 0 (cell (psi_rz st) (j' + 2) (k + 2)))
                   (n_xi a) (dxi f) j) ∧
       cell W_r (j + 2) (k + 2)
       = Some (- second_order_difference
                   (λ k', default 0 (cell (psi_rz st) (j + 2) (k' + 2)))
                   (n_r a) (dr f) k)) ∧
    (∀ j k, (j < n_xi a + 4)%nat → (k < n_r a + 4)%nat →
       ∃ bar b0 w,
         cell (b_theta_bar_rz st) j k = Some bar ∧
         cell (b_theta_0_mesh f) j k = Some b0 ∧ cell W_r j k = Some w ∧
         cell (out_B_theta out) j k = Some (bar + b0) ∧
         cell (out_E_r out) j k = Some (w + (bar + b0))) ∧
    has_shape (out_E_z out) (n_xi a + 4) (n_r a + 4) ∧
    has_shape (out_B_theta out) (n_xi a + 4) (n_r a + 4) ∧
    has_shape (out_E_r out) (n_xi a + 4) (n_r a + 4) ∧
    out_rho out = rho_rz st ∧ out_chi out = chi_rz st ∧
    out_xi_fld out = xi_fld f ∧ out_r_fld out = r_fld f.
Proof.
  unfold calculate_wakefields. intros Hrun.
  apply bind_Done in Hrun as (l0 & [f st0] & l1 & Hpro & Hrun & ->).
  apply lift_Done in Hpro as [Hpro ->].
  apply bind_Done in Hrun as (l2 & st & l3 & Hsweep & Hrun & ->).
  apply bind_Done in Hrun as (l4 & [W_r out'] & l5 & Hepi & Hrun & ->).
  apply lift_Done in Hepi as [Hepi ->]. apply mret_Done in Hrun as [-> ->].
  cbn. rewrite app_nil_r.
  exists f, st0, st, W_r. split; [done|]. split; [done|]. split; [done|].
  destruct (prologue_Ok _ _ _ Hpro) as (_ & _ & Hb0 & Hs1 & Hs2 & Hs3 & Hs4 & _).
  assert (grids_shaped a st) as (Hpsi & Hbar & _ & _).
  { eapply sweep_shaped; [done|]. exact (conj Hs1 (conj Hs2 (conj Hs3 Hs4))). }
  unfold epilogue in Hepi.
  destruct (np_gradient _ _ _) as [[dxi_psi dr_psi]|] eqn:Egrad; [cbn in Hepi|done].
  destruct (set_interior _ (grid_map Qcopp dxi_psi)) as [E_z|] eqn:Ez;
    [cbn in Hepi|done].
  destruct (set_interior _ (grid_map Qcopp dr_psi)) as [W|] eqn:Ew;
    [cbn in Hepi|done].
  destruct (grid_map2 _ (b_theta_bar_rz st) _) as [B|] eqn:Eb; [cbn in Hepi|done].
  destruct (grid_map2 _ W B) as [E_r|] eqn:Er; [cbn in Hepi|done].
  injection Hepi as <- <-. cbn.
  pose proof (interior_shape _ _ _ Hpsi) as Hint.
  destruct (np_gradient_Ok _ _ _ _ _ _ _ Hint Egrad)
    as (Hn3 & Hr3 & _ & _ & Hg0 & Hg1 & Hgrad).
  destruct (set_interior_spec _ _ _ _ _ (np_zeros_shape _ _) Ez)
    as (_ & HsEz & HinEz & _).
  destruct (set_interior_spec _ _ _ _ _ (np_zeros_shape _ _) Ew)
    as (_ & HsW & HinW & _).
  apply grid_map2_total2_inv in Eb as (_ & ->).
  apply grid_map2_total2_inv in Er as (_ & ->).
  pose proof (zip_grid_shape Qcplus _ _ _ _ Hbar Hb0) as HsB.
  split; [|split; [|split; [done|split; [done|split]]]].
  - intros j k Hj Hk. destruct (Hgrad j k Hj Hk) as (G0 & G1).
    rewrite HinEz, HinW by done. rewrite !grid_map_cell, G0, G1. cbn.
    split; do 2 f_equal.
    + unfold second_order_difference.
      repeat destruct (decide _);
        rewrite ?(interior_cell _ _ _ _ _ Hpsi) by lia; done.
    + unfold second_order_difference.
      repeat destruct (decide _);
        rewrite ?(interior_cell _ _ _ _ _ Hpsi) by lia; done.
  - intros j k Hj Hk.
    destruct (has_shape_cell _ _ _ j k Hbar Hj Hk) as [bar Hbarc].
    destruct (has_shape_cell _ _ _ j k Hb0 Hj Hk) as [b0 Hb0c].
    destruct (has_shape_cell _ _ _ j k HsW Hj Hk) as [w Hwc].
    exists bar, b0, w. do 3 (split; [done|]).
    pose proof (zip_grid_cell Qcplus _ _ j k _ _ Hbarc Hb0c) as HB.
    split; [done|]. by apply zip_grid_cell.
  - by apply zip_grid_shape.
  - done.
Qed.
End DerivedFields.

Lemma derived_fields_witness :
  ∃ l out,
    calculate_wakefields (H := Sample.model) (Sample.inputs (Q2Qc 3) "rk4")
      = Done l out ∧
    has_shape (out_E_r out) 7 7.
Proof.
  do 2 eexists. split; [vm_compute; reflexivity|].
  destruct (derived_fields (H := Sample.model) (Sample.inputs (Q2Qc 3) "rk4")
              _ _ ltac:(vm_compute; reflexivity))
    as (f & st0 & st & W_r & _ & _ & _ & _ & _ & _ & _ & Hshape & _).
  exact Hshape.
Defined.

(** * The particle count along the sweep *)

Section ParticleCount.
Context `{PlasmaRoutines}.

(** Every slice of a run starts from particle arrays of one length: the
    prologue creates them so, and a slice keeps them so. *)
Lemma slice_uniform (a : args) (f : frame) (step : nat) (st st' : state)
    (l : list event) :
  slice a f step st = Done l st' →
  uniform (arrays (pp st)) → uniform (arrays (pp st')).
Proof.
  intros Hslice Hu.
  apply slice_Done in Hslice
    as (l1 & xi & idx & p' & l2 & st1 & l3 & p'' & Hpart & Hfields & Hadv & -> & _).
  destruct (particle_steps_effect _ _ _ _ _ _ _ _ Hpart Hu) as (Hu' & _).
  apply field_steps_Done in Hfields as (? & ? & ? & _ & _ & _ & _ & _ & _ & Hpp & _).
  cbn in Hpp. rewrite Hpp in Hadv. cbn.
  apply advance_Done in Hadv as [[_ ->]|[(_ & _ & ->)|(_ & _ & ->)]].
  - done.
  - by apply evolve_plasma_ab5_uniform.
  - by apply evolve_plasma_rk4_uniform.
Qed.

Lemma sweep_uniform (a : args) (f : frame) (steps : list nat) :
  ∀ (st st' : state) (l : list event),
    sweep a f steps st = Done l st' →
    uniform (arrays (pp st)) → uniform (arrays (pp st')).
Proof.
  induction steps as [|step steps IH]; intros st st' l Hsweep Hu; cbn in Hsweep.
  - by injection Hsweep as <- <-.
  - apply bind_Done in Hsweep as (l1 & st1 & l2 & Hslice & Hrest & _).
    eapply IH; [done|]. by eapply slice_uniform.
Qed.
End ParticleCount.

(** * Further properties of [update_gamma_and_pz] *)

(** An iteration whose [psi[i]] is -1 divides by zero before it writes. *)
Lemma update_body_raise (gamma pz pr a2 psi : arr) (i : nat) (s : store)
    (p a w : Qc) :
  s pr !! i = Some p → s a2 !! i = Some a → s psi !! i = Some w →
  1 + w = 0 →
  update_body gamma pz pr a2 psi i s = Raise ZeroDivisionError.
Proof.
  intros Hp Ha Hw Hz. unfold update_body, getitem. rewrite Hp, Ha, Hw. cbn.
  unfold truediv, gamma_pz_den. rewrite Hz.
  destruct (decide (2 * 0 = 0)) as [_|Hn]; [done|]. destruct Hn. ring.
Qed.

Section UpdateErrors.
Variables gamma pz pr a2 psi : arr.
Hypothesis gamma_pz : gamma ≠ pz.
Hypothesis gamma_in : gamma ≠ pr ∧ gamma ≠ a2 ∧ gamma ≠ psi.
Hypothesis pz_in : pz ≠ pr ∧ pz ≠ a2 ∧ pz ≠ psi.

Lemma update_loop_raise (n : nat) : ∀ (m k : nat) (s : store),
  (k + m = n)%nat →
  length (s gamma) = n → length (s pz) = n → length (s pr) = n →
  length (s a2) = n → length (s psi) = n →
  (∃ i w, (k ≤ i)%nat ∧ s psi !! i = Some w ∧ 1 + w = 0) →
  update_loop gamma pz pr a2 psi (seq k m) s = Raise ZeroDivisionError.
Proof.
  induction m as [|m IH]; intros k s Hk Lg Lz Lp La Lw (i & w & Hi & Hw & Hz).
  - apply lookup_lt_Some in Hw. lia.
  - cbn [seq update_loop].
    destruct (lookup_lt_is_Some_2 (s pr) k) as [p Hp]; [lia|].
    destruct (lookup_lt_is_Some_2 (s a2) k) as [a Ha]; [lia|].
    destruct (lookup_lt_is_Some_2 (s psi) k) as [wk Hwk]; [lia|].
    destruct (decide (1 + wk = 0)) as [Hz0|Hne].
    + by rewrite (update_body_raise _ _ _ _ _ k s p a wk).
    + destruct (update_body_ok gamma pz pr a2 psi gamma_pz gamma_in pz_in k s p a wk)
        as (s1 & -> & Eg & Ez & Eo); [done|done|done|lia|lia|done|].
      cbn. destruct gamma_in as (G1 & G2 & G3), pz_in as (Z1 & Z2 & Z3).
      apply IH.
      * lia.
      * by rewrite Eg, length_insert.
      * by rewrite Ez, length_insert.
      * by rewrite Eo.
      * by rewrite Eo.
      * by rewrite Eo.
      * exists i, w. rewrite Eo by done. split; [|done].
        destruct (decide (i = k)) as [->|]; [|lia]. by simplify_eq.
Qed.
End UpdateErrors.

(** X1.  On arrays of one length, [update_gamma_and_pz] raises
    [ZeroDivisionError] exactly when some [psi[i]] is -1, and it raises
    nothing else. *)
Theorem update_gamma_and_pz_zero_division (s : store) :
  uniform s →
  (update_gamma_and_pz pp_gamma pp_pz pp_pr a2_pp psi_pp s
     = Raise ZeroDivisionError
   ↔ ∃ i, s psi_pp !! i = Some (- 1)) ∧
  (∀ e, update_gamma_and_pz pp_gamma pp_pz pp_pr a2_pp psi_pp s = Raise e →
        e = ZeroDivisionError).
Proof.
  intros Hu.
  assert ((∃ i, s psi_pp !! i = Some (- 1)) →
          update_gamma_and_pz pp_gamma pp_pz pp_pr a2_pp psi_pp s
            = Raise ZeroDivisionError) as Hraise.
  { intros [i Hi]. unfold update_gamma_and_pz.
    apply (update_loop_raise pp_gamma pp_pz pp_pr a2_pp psi_pp)
      with (n := length (s pp_pr)); try done.
    1-4: by rewrite !Hu.
    exists i, (- 1). split; [lia|]. split; [done|]. ring. }
  assert (∀ e, update_gamma_and_pz pp_gamma pp_pz pp_pr a2_pp psi_pp s = Raise e →
               ∃ i, s psi_pp !! i = Some (- 1)) as Hinv.
  { intros e He.
    destruct (decide (Exists (λ w, 1 + w = 0) (s psi_pp))) as [Hex|Hall].
    - apply Exists_exists in Hex as (w & Hin & Hw).
      apply list_elem_of_lookup in Hin as [i Hi]. exists i. rewrite Hi.
      f_equal. replace w with (1 + w - 1) by ring. rewrite Hw. ring.
    - apply not_Exists_Forall in Hall; [|apply _].
      destruct (update_loop_ok pp_gamma pp_pz pp_pr a2_pp psi_pp)
        with (n := length (s pp_pr)) (m := length (s pp_pr)) (k := 0%nat) (s := s)
        as (s' & E & _); try done.
      1-4: by rewrite !Hu.
      unfold update_gamma_and_pz in He. by rewrite E in He. }
  split; [split|].
  - apply Hinv.
  - apply Hraise.
  - intros e He. pose proof (Hraise (Hinv e He)) as E. rewrite E in He.
    by injection He as <-.
Qed.

Lemma update_gamma_and_pz_zero_division_witness :
  update_gamma_and_pz pp_gamma pp_pz pp_pr a2_pp psi_pp
    (<[psi_pp := [Q2Qc (1 # 3); - 1]]> update_sample)
  = Raise ZeroDivisionError.
Proof.
  apply (update_gamma_and_pz_zero_division
           (<[psi_pp := [Q2Qc (1 # 3); - 1]]> update_sample)).
  - intros b. destruct b; reflexivity.
  - exists 1%nat. reflexivity.
Defined.

(** X2.  After the update every particle is on the mass shell:
    [gamma[i]^2 - pz[i]^2 = 1 + pr[i]^2 + a2[i]]. *)
Theorem update_gamma_and_pz_mass_shell (s s' : store) (i : nat) (g z p a : Qc) :
  update_gamma_and_pz pp_gamma pp_pz pp_pr a2_pp psi_pp s = Ok s' →
  s' pp_gamma !! i = Some g → s' pp_pz !! i = Some z →
  s pp_pr !! i = Some p → s a2_pp !! i = Some a →
  g * g - z * z = 1 + p * p + a.
Proof.
  intros E Hg Hz Hp Ha. unfold update_gamma_and_pz in E.
  apply update_loop_inv in E as (_ & _ & Hin & _); try done.
  destruct (Hin i) as (p' & a' & w & Hp' & Ha' & Hw & Hne & Hg' & Hz').
  { apply lookup_lt_Some in Hp. lia. }
  simplify_eq. unfold gamma_of, pz_of. cbn. field. done.
Qed.

Lemma update_gamma_and_pz_mass_shell_witness :
  ∃ s' g z,
    update_gamma_and_pz pp_gamma pp_pz pp_pr a2_pp psi_pp update_sample = Ok s' ∧
    s' pp_gamma !! 0%nat = Some g ∧ s' pp_pz !! 0%nat = Some z ∧
    g * g - z * z = 1 + Q2Qc 2 * Q2Qc 2 + Q2Qc (1 # 2).
Proof.
  do 3 eexists. split; [vm_compute; reflexivity|].
  split; [vm_compute; reflexivity|]. split; [vm_compute; reflexivity|].
  eapply (update_gamma_and_pz_mass_shell update_sample _ 0).
  - vm_compute; reflexivity.
  - vm_compute; reflexivity.
  - vm_compute; reflexivity.
  - reflexivity.
  - reflexivity.
Defined.

(** X3.  The update reads neither [gamma] nor [pz]: run a second time on
    its own result, it returns and changes nothing. *)
Theorem update_gamma_and_pz_idempotent (s s' : store) :
  uniform s →
  update_gamma_and_pz pp_gamma pp_pz pp_pr a2_pp psi_pp s = Ok s' →
  ∃ s'', update_gamma_and_pz pp_gamma pp_pz pp_pr a2_pp psi_pp s' = Ok s'' ∧
         ∀ b, s'' b = s' b.
Proof.
  intros Hu E. unfold update_gamma_and_pz in E.
  apply update_loop_inv in E as (Fo & Len & Hin & _); try done.
  set (n := length (s pp_pr)) in *.
  assert (∀ b, length (s' b) = n) as L'.
  { intros b. unfold n. by rewrite Len, !Hu. }
  assert (Forall (λ w, 1 + w ≠ 0) (s' psi_pp)) as Hpsi.
  { apply Forall_lookup. intros i w Hw. rewrite Fo in Hw by done.
    destruct (Hin i) as (_ & _ & w' & _ & _ & Hw' & Hne & _).
    { apply lookup_lt_Some in Hw. rewrite Hu in Hw. unfold n. rewrite Hu. lia. }
    by simplify_eq. }
  destruct (update_loop_ok pp_gamma pp_pz pp_pr a2_pp psi_pp)
    with (n := n) (m := n) (k := 0%nat) (s := s')
    as (s'' & E' & Fo' & Lg & Lz & Hin' & _); try done.
  exists s''. unfold update_gamma_and_pz. rewrite L'. split; [done|].
  assert (∀ i, (i < n)%nat →
            s'' pp_gamma !! i = s' pp_gamma !! i ∧ s'' pp_pz !! i = s' pp_pz !! i)
    as Hsame.
  { intros i Hi. destruct (Hin i) as (p & a & w & Hp & Ha & Hw & _ & Hg & Hz); [lia|].
    rewrite Hg, Hz. apply Hin'; [lia|by rewrite Fo..]. }
  intros b. destruct (decide (b = pp_gamma)) as [->|Hb1].
  { apply list_eq. intros i. destruct (decide (i < n)%nat) as [Hi|Hi].
    - by apply Hsame.
    - rewrite !lookup_ge_None_2; [done|rewrite L'; lia|lia]. }
  destruct (decide (b = pp_pz)) as [->|Hb2].
  { apply list_eq. intros i. destruct (decide (i < n)%nat) as [Hi|Hi].
    - by apply Hsame.
    - rewrite !lookup_ge_None_2; [done|rewrite L'; lia|lia]. }
  by apply Fo'.
Qed.

Lemma update_gamma_and_pz_idempotent_witness :
  ∃ s' s'',
    update_gamma_and_pz pp_gamma pp_pz pp_pr a2_pp psi_pp update_sample = Ok s' ∧
    update_gamma_and_pz pp_gamma pp_pz pp_pr a2_pp psi_pp s' = Ok s'' ∧
    s'' pp_gamma = s' pp_gamma.
Proof.
  eexists.
  destruct (update_gamma_and_pz_idempotent update_sample
              (match update_gamma_and_pz pp_gamma pp_pz pp_pr a2_pp psi_pp
                       update_sample with
               | Ok s' => s'
               | Raise _ => update_sample
               end)) as (s'' & E & Hsame).
  - intros b. destruct b; reflexivity.
  - vm_compute. reflexivity.
  - exists s''. split; [vm_compute; reflexivity|]. split; [exact E|apply Hsame].
Defined.

(** * Further properties of the freeze step *)

(** X4.  With a threshold above 1, no particle is left at or above the
    threshold by the freeze step. *)
Theorem freeze_below_threshold (max_gamma : Qc) (s s' : store) (i : nat) (g : Qc) :
  length (s pp_pz) = length (s pp_gamma) →
  length (s pp_pr) = length (s pp_gamma) →
  1 < max_gamma →
  freeze max_gamma s = Ok s' →
  s' pp_gamma !! i = Some g →
  g < max_gamma.
Proof.
  intros Lz Lr Hmg E Hg.
  destruct (freeze_ok max_gamma s Lz Lr) as (s1 & E1 & Hfrozen & Hkept & _ & Hlen).
  rewrite E in E1. injection E1 as <-.
  destruct (lookup_lt_is_Some_2 (s pp_gamma) i) as [g0 Hg0].
  { rewrite <- Hlen. by eapply lookup_lt_Some. }
  destruct (Qclt_le_dec g0 max_gamma) as [Hlt|Hle].
  - destruct (Hkept i g0 Hg0 Hlt) as (Hg' & _). by simplify_eq.
  - destruct (Hfrozen i g0 Hg0 Hle) as (Hg' & _). by simplify_eq.
Qed.

Lemma freeze_below_threshold_witness :
  ∃ s' g, freeze (Q2Qc 10) freeze_sample = Ok s' ∧
          s' pp_gamma !! 2%nat = Some g ∧ g < Q2Qc 10.
Proof.
  do 2 eexists. split; [vm_compute; reflexivity|].
  split; [vm_compute; reflexivity|].
  eapply (freeze_below_threshold (Q2Qc 10) freeze_sample _ 2).
  - reflexivity.
  - reflexivity.
  - reflexivity.
  - vm_compute; reflexivity.
  - vm_compute; reflexivity.
Defined.

(** X5.  The freeze step is idempotent: applied to its own result, it
    returns and changes nothing, whatever the threshold. *)
Theorem freeze_idempotent (max_gamma : Qc) (s s' : store) :
  length (s pp_pz) = length (s pp_gamma) →
  length (s pp_pr) = length (s pp_gamma) →
  freeze max_gamma s = Ok s' →
  ∃ s'', freeze max_gamma s' = Ok s'' ∧ ∀ b, s'' b = s' b.
Proof.
  intros Lz Lr E.
  destruct (freeze_ok max_gamma s Lz Lr) as (s1 & E1 & Hfrozen & Hkept & _ & Hlen).
  rewrite E in E1. injection E1 as <-.
  destruct (freeze_ok max_gamma s') as (s'' & E2 & Hfrozen' & Hkept' & Hframe' & Hlen').
  { by rewrite !Hlen. }
  { by rewrite !Hlen. }
  exists s''. split; [done|].
  assert (∀ i, s'' pp_gamma !! i = s' pp_gamma !! i ∧
               s'' pp_pz !! i = s' pp_pz !! i ∧ s'' pp_pr !! i = s' pp_pr !! i)
    as Hsame.
  { intros i. destruct (s' pp_gamma !! i) as [g'|] eqn:Hg'.
    - destruct (Qclt_le_dec g' max_gamma) as [Hlt|Hle].
      + destruct (Hkept' i g' Hg' Hlt) as (-> & -> & ->). done.
      + destruct (Hfrozen' i g' Hg' Hle) as (-> & -> & ->).
        destruct (lookup_lt_is_Some_2 (s pp_gamma) i) as [g0 Hg0].
        { rewrite <- Hlen. by eapply lookup_lt_Some. }
        destruct (Qclt_le_dec g0 max_gamma) as [Hlt0|Hle0].
        * destruct (Hkept i g0 Hg0 Hlt0) as (Hg1 & _). simplify_eq.
          by apply Qclt_not_le in Hlt0.
        * destruct (Hfrozen i g0 Hg0 Hle0) as (Hg1 & -> & ->). by simplify_eq.
    - apply lookup_ge_None in Hg'.
      rewrite !lookup_ge_None_2; [done|..]; rewrite ?Hlen', ?Hlen in *; lia. }
  intros b.
  destruct (decide (b = pp_gamma)) as [->|B1]; [apply list_eq; intros i; apply Hsame|].
  destruct (decide (b = pp_pz)) as [->|B2]; [apply list_eq; intros i; apply Hsame|].
  destruct (decide (b = pp_pr)) as [->|B3]; [apply list_eq; intros i; apply Hsame|].
  by apply Hframe'.
Qed.

Lemma freeze_idempotent_witness :
  ∃ s' s'', freeze (Q2Qc 10) freeze_sample = Ok s' ∧
            freeze (Q2Qc 10) s' = Ok s'' ∧ s'' pp_gamma = s' pp_gamma.
Proof.
  eexists.
  destruct (freeze_idempotent (Q2Qc 10) freeze_sample
              (match freeze (Q2Qc 10) freeze_sample with
               | Ok s' => s'
               | Raise _ => freeze_sample
               end)) as (s'' & E & Hsame).
  - reflexivity.
  - reflexivity.
  - vm_compute. reflexivity.
  - exists s''. split; [vm_compute; reflexivity|]. split; [exact E|apply Hsame].
Defined.

(** * Further properties of the deposition weights *)

(** Whenever the weights are computed, no [gamma] is zero and no
    denominator [dr * r * (1 - pz / gamma)] is zero. *)
Lemma plasma_weights_nonzero (dr : Qc) (s : store) (w_rho w_chi : list Qc) :
  plasma_weights dr s = Ok (w_rho, w_chi) →
  ∀ i r pz g,
    s pp_r !! i = Some r → s pp_pz !! i = Some pz → s pp_gamma !! i = Some g →
    g ≠ 0 ∧ dr * r * (1 - pz / g) ≠ 0.
Proof.
  unfold plasma_weights. intros Hw.
  destruct (np_map2 np_divide (s pp_pz) (s pp_gamma)) as [vz|] eqn:Evz; [|done].
  cbn in Hw.
  destruct (np_map2 (total2 Qcmult) _ _) as [den|] eqn:Eden in Hw; [|done].
  cbn in Hw.
  destruct (np_map2 np_divide (s pp_q) den) as [w1|] eqn:Ew1; [|done].
  cbn in Hw.
  apply np_map2_divide_inv in Evz as (_ & Hg0 & ->).
  apply np_map2_total2_inv in Eden as (_ & ->).
  apply np_map2_divide_inv in Ew1 as (_ & Hden & _).
  intros i r pz g Hr Hpz Hg. rewrite Forall_lookup in Hg0, Hden. split.
  - by apply (Hg0 i).
  - apply (Hden i).
    rewrite !lookup_zip_with, !list_lookup_fmap, !lookup_zip_with.
    by rewrite Hr, Hpz, Hg.
Qed.

(** The weights are computed whenever the four arrays have one length, no
    [gamma] is zero and no denominator is zero. *)
Lemma plasma_weights_defined (dr : Qc) (s : store) :
  length (s pp_pz) = length (s pp_r) → length (s pp_gamma) = length (s pp_r) →
  length (s pp_q) = length (s pp_r) →
  (∀ i r pz g,
     s pp_r !! i = Some r → s pp_pz !! i = Some pz → s pp_gamma !! i = Some g →
     g ≠ 0 ∧ dr * r * (1 - pz / g) ≠ 0) →
  ∃ w_rho w_chi, plasma_weights dr s = Ok (w_rho, w_chi).
Proof.
  intros Lz Lg Lq Hne. unfold plasma_weights.
  assert (Forall (λ y, y ≠ 0) (s pp_gamma)) as Hg0.
  { apply Forall_lookup. intros i g Hg.
    destruct (lookup_lt_is_Some_2 (s pp_r) i) as [r Hr].
    { rewrite <- Lg. by eapply lookup_lt_Some. }
    destruct (lookup_lt_is_Some_2 (s pp_pz) i) as [pz Hpz].
    { rewrite Lz. by eapply lookup_lt_Some. }
    by destruct (Hne i r pz g). }
  rewrite np_map2_divide by (done || lia). cbn.
  rewrite np_map2_total2 by (by rewrite !length_fmap, length_zip_with; lia). cbn.
  rewrite np_map2_divide. cbn.
  - rewrite np_map2_divide; [by eexists _, _| |done].
    rewrite !length_zip_with, !length_fmap, !length_zip_with. lia.
  - rewrite !length_zip_with, !length_fmap, !length_zip_with. lia.
  - apply Forall_lookup. intros i d Hd.
    apply lookup_zip_with_Some in Hd as (x & y & -> & Hx & Hy).
    rewrite list_lookup_fmap in Hx, Hy.
    destruct (s pp_r !! i) as [r|] eqn:Hr; [|done]. injection Hx as <-.
    destruct (zip_with Qcdiv (s pp_pz) (s pp_gamma) !! i) as [v|] eqn:Hv; [|done].
    injection Hy as <-.
    apply lookup_zip_with_Some in Hv as (pz & g & -> & Hpz & Hg).
    by destruct (Hne i r pz g).
Qed.

Section WeightsOfASlice.
Context `{PlasmaRoutines}.

(** X6.  In a completed slice, a particle that the freeze step leaves
    moving is deposited with [w_rho = q * gamma / (dr * r * (1 + psi))] and
    [w_chi = q / (dr * r * (1 + psi))], where [gamma] is the closed form of
    the slice; a particle that the freeze step stops is deposited with
    [w_rho = w_chi = q / (dr * r)]. *)
Theorem deposition_weights_closed_form (a : args) (f : frame) (step : nat)
    (st st'' : state) (l : list event) :
  slice a f step st = Done l st'' →
  uniform (arrays (pp st)) →
  ∃ l1 xi idx p' (w_rho w_chi : list Qc),
    particle_steps a f step (pp st) = Done l1 (xi, idx, p') ∧
    DepositRho step w_rho ∈ l ∧ DepositChi step w_chi ∈ l ∧
    ∀ i q r pr0 a2 w,
      arrays p' pp_q !! i = Some q → arrays p' pp_r !! i = Some r →
      arrays (pp st) pp_pr !! i = Some pr0 →
      arrays p' a2_pp !! i = Some a2 → arrays p' psi_pp !! i = Some w →
      (gamma_of pr0 a2 w < max_gamma a →
         w_rho !! i = Some (q * gamma_of pr0 a2 w / (dr f * r * (1 + w))) ∧
         w_chi !! i = Some (q / (dr f * r * (1 + w)))) ∧
      (max_gamma a ≤ gamma_of pr0 a2 w →
         w_rho !! i = Some (q / (dr f * r)) ∧
         w_chi !! i = Some (q / (dr f * r))).
Proof.
  intros Hslice Hu.
  apply slice_Done in Hslice
    as (l1 & xi & idx & p' & l2 & st' & l3 & p'' & Hpart & Hfields & _ & -> & ->).
  apply field_steps_Done in Hfields
    as (w_rho & w_chi & r_first & _ & _ & Hw & _ & _ & _ & _ & ->).
  cbn in *. exists l1, xi, idx, p', w_rho, w_chi. split; [done|].
  split; [|split].
  { rewrite elem_of_app, !elem_of_cons. auto 10. }
  { rewrite elem_of_app, !elem_of_cons. auto 10. }
  destruct (particle_steps_effect _ _ _ _ _ _ _ _ Hpart Hu)
    as (_ & Hr & _ & _ & _ & _ & _ & _ & Heach).
  destruct (plasma_weights_Ok _ _ _ _ Hw) as (_ & _ & Hpoint).
  pose proof (plasma_weights_nonzero _ _ _ _ Hw) as Hnz.
  intros i q r pr0 a2 w Hq Hri Hpr Ha2 Hwi.
  destruct (Heach i) as (pr0' & a2' & w' & Hpr' & Ha2' & Hw' & Hne & Hfrozen & Hkept).
  { rewrite <- (Hu pp_pr). by eapply lookup_lt_Some. }
  simplify_eq. split.
  - intros Hlt. destruct (Hkept Hlt) as (Hg & Hz & _).
    destruct (Hpoint i q r _ _ Hq Hri Hz Hg) as (-> & ->).
    destruct (Hnz i r _ _ Hri Hz Hg) as (Hg0 & Hden).
    pose proof (gamma_minus_pz_closed pr0 a2 w Hne) as Hgz.
    set (g := gamma_of pr0 a2 w) in *. set (z := pz_of pr0 a2 w) in *.
    assert (1 - z / g = (1 + w) / g) as E by (rewrite <- Hgz; by field).
    rewrite E in *.
    assert (dr f ≠ 0 ∧ r ≠ 0) as [Hdr Hrne].
    { split; intros E0; apply Hden; rewrite E0; ring. }
    split; f_equal; field; repeat split; done.
  - intros Hle. destruct (Hfrozen Hle) as (Hg & Hz & _).
    destruct (Hpoint i q r _ _ Hq Hri Hz Hg) as (-> & ->).
    destruct (Hnz i r _ _ Hri Hz Hg) as (_ & Hden).
    assert (dr f ≠ 0 ∧ r ≠ 0) as [Hdr Hrne].
    { split; intros E0; apply Hden; rewrite E0; ring. }
    split; f_equal; field; repeat split; done.
Qed.

(** X7.  With a non-zero cell width, no particle on the axis, [a2 >= 0] and
    [psi > -1] at every particle, the weights of the slice involve no
    division by zero: they are computed from the particles that the freeze
    step leaves. *)
Theorem deposition_weights_defined (a : args) (f : frame) (step : nat)
    (p p' : PlasmaParticles) (l : list event) (xi : Qc) (idx : list nat) :
  particle_steps a f step p = Done l (xi, idx, p') →
  uniform (arrays p) →
  dr f ≠ 0 →
  Forall (λ r, r ≠ 0) (arrays p pp_r) →
  Forall (λ x, 0 ≤ x) (arrays p' a2_pp) →
  Forall (λ w, 0 < 1 + w) (arrays p' psi_pp) →
  ∃ w_rho w_chi, plasma_weights (dr f) (arrays p') = Ok (w_rho, w_chi).
Proof.
  intros Hpart Hu Hdr Hr0 Ha2 Hpsi.
  destruct (particle_steps_effect _ _ _ _ _ _ _ _ Hpart Hu)
    as (Hu' & Hr & _ & _ & _ & _ & _ & _ & Heach).
  apply plasma_weights_defined; [by rewrite !Hu'..|].
  intros i r pz g Hri Hpz Hg.
  destruct (Heach i) as (pr0 & a2 & w & _ & Ha2' & Hw' & Hne & Hfrozen & Hkept).
  { rewrite <- Hr. by eapply lookup_lt_Some. }
  rewrite Forall_lookup in Hr0, Ha2, Hpsi.
  rewrite Hr in Hri. pose proof (Hr0 _ _ Hri) as Hrne.
  pose proof (Ha2 _ _ Ha2') as Ha2pos. pose proof (Hpsi _ _ Hw') as Hwpos.
  destruct (Qclt_le_dec (gamma_of pr0 a2 w) (max_gamma a)) as [Hlt|Hle].
  - destruct (Hkept Hlt) as (Hg' & Hz' & _). simplify_eq.
    pose proof (gamma_of_ge_1 pr0 a2 w Hwpos Ha2pos) as Hge.
    pose proof (gamma_minus_pz_closed pr0 a2 w Hne) as Hgz.
    set (g := gamma_of pr0 a2 w) in *. set (z := pz_of pr0 a2 w) in *.
    assert (g ≠ 0) as Hg0.
    { intros E. rewrite E in Hge. by apply Qcle_not_lt in Hge. }
    split; [done|].
    assert (1 - z / g = (1 + w) / g) as -> by (rewrite <- Hgz; by field).
    unfold Qcdiv. repeat apply Qcmult_ne_0; try done. by apply Qcinv_ne_0.
  - destruct (Hfrozen Hle) as (Hg' & Hz' & _). simplify_eq.
    split; [done|].
    replace (1 - 0 / 1) with 1 by (by apply Qc_is_canon).
    rewrite Qcmult_1_r. by apply Qcmult_ne_0.
Qed.
End WeightsOfASlice.

Lemma deposition_weights_closed_form_witness :
  ∃ l st'' w_rho w_chi,
    slice (H := Sample.model) (Sample.inputs (Q2Qc 3) "rk4")
      (Sample.start (H := Sample.model) (Sample.inputs (Q2Qc 3) "rk4")).1 0
      (Sample.start (H := Sample.model) (Sample.inputs (Q2Qc 3) "rk4")).2
    = Done l st'' ∧
    DepositRho 0 w_rho ∈ l ∧ DepositChi 0 w_chi ∈ l ∧
    w_chi !! 0%nat = Some (1 / (1 * Q2Qc (3 # 2) * (1 + Q2Qc (3 # 2)))).
Proof.
  do 2 eexists.
  assert (uniform (arrays (pp (Sample.start (H := Sample.model)
                                 (Sample.inputs (Q2Qc 3) "rk4")).2))) as Hu.
  { intros b. destruct b; reflexivity. }
  destruct (deposition_weights_closed_form (H := Sample.model)
              (Sample.inputs (Q2Qc 3) "rk4")
              (Sample.start (H := Sample.model) (Sample.inputs (Q2Qc 3) "rk4")).1 0
              (Sample.start (H := Sample.model) (Sample.inputs (Q2Qc 3) "rk4")).2
              _ _ ltac:(vm_compute; reflexivity) Hu)
    as (l1 & xi & idx & p' & w_rho & w_chi & Hp & Hrho & Hchi & Hform).
  exists w_rho, w_chi. split; [vm_compute; reflexivity|].
  split; [exact Hrho|]. split; [exact Hchi|].
  vm_compute in Hp. injection Hp as <- <- <- <-.
  destruct (Hform 0%nat 1 (Q2Qc (3 # 2)) 0 0 (Q2Qc (3 # 2))) as [Hkept _].
  - vm_compute; reflexivity.
  - vm_compute; reflexivity.
  - vm_compute; reflexivity.
  - vm_compute; reflexivity.
  - vm_compute; reflexivity.
  - destruct Hkept as [_ Hc]; [vm_compute; reflexivity|]. exact Hc.
Defined.

Lemma deposition_weights_defined_witness :
  ∃ l xi idx p',
    particle_steps (H := Sample.model) (Sample.inputs (Q2Qc 3) "rk4")
      (Sample.start (H := Sample.model) (Sample.inputs (Q2Qc 3) "rk4")).1 0
      (pp (Sample.start (H := Sample.model) (Sample.inputs (Q2Qc 3) "rk4")).2)
    = Done l (xi, idx, p') ∧
    ∃ w_rho w_chi,
      plasma_weights
        (dr (Sample.start (H := Sample.model) (Sample.inputs (Q2Qc 3) "rk4")).1)
        (arrays p') = Ok (w_rho, w_chi).
Proof.
  do 4 eexists. split; [vm_compute; reflexivity|].
  eapply (deposition_weights_defined (H := Sample.model)
            (Sample.inputs (Q2Qc 3) "rk4")
            (Sample.start (H := Sample.model) (Sample.inputs (Q2Qc 3) "rk4")).1 0
            (pp (Sample.start (H := Sample.model) (Sample.inputs (Q2Qc 3) "rk4")).2)).
  - vm_compute; reflexivity.
  - intros b; destruct b; reflexivity.
  - discriminate.
  - repeat constructor; discriminate.
  - repeat constructor; vm_compute; discriminate.
  - repeat constructor; vm_compute; reflexivity.
Defined.

(** * Further properties of the beam source *)

(** Two grids of one shape with the same entries are the same grid. *)
Lemma grid_ext (g g' : grid) (rows cols : nat) :
  has_shape g rows cols → has_shape g' rows cols →
  (∀ j k, (j < rows)%nat → (k < cols)%nat → cell g j k = cell g' j k) →
  g = g'.
Proof.
  intros Hs Hs' Hcells. apply list_eq. intros j.
  destruct (decide (j < rows)%nat) as [Hj|Hj].
  - destruct (lookup_lt_is_Some_2 g j) as [row Hrow]; [destruct Hs as [-> _]; lia|].
    destruct (lookup_lt_is_Some_2 g' j) as [row' Hrow']; [destruct Hs' as [-> _]; lia|].
    rewrite Hrow, Hrow'. f_equal.
    pose proof (has_shape_row _ _ _ _ _ Hs Hrow) as L.
    pose proof (has_shape_row _ _ _ _ _ Hs' Hrow') as L'.
    apply list_eq. intros k. destruct (decide (k < cols)%nat) as [Hk|Hk].
    + specialize (Hcells j k Hj Hk). unfold cell in Hcells.
      by rewrite Hrow, Hrow' in Hcells.
    + rewrite !lookup_ge_None_2; [done|lia..].
  - destruct Hs as [Hr _], Hs' as [Hr' _]. rewrite !lookup_ge_None_2; [done|lia..].
Qed.

(** The field of a distribution, cell by cell. *)
Lemma beam_field_cells (q_dist : grid) (n_r n_xi : nat) (dr : Qc) :
  has_shape q_dist n_xi n_r → (1 ≤ n_r)%nat → 0 < dr →
  ∃ b_theta,
    beam_field q_dist n_r n_xi dr = Ok b_theta ∧
    has_shape b_theta (n_xi + 4) (n_r + 4) ∧
    (∀ j k row q_jk q_j0,
       q_dist !! j = Some row → row !! k = Some q_jk → row !! 0%nat = Some q_j0 →
       cell b_theta (j + 2) (k + 2)
       = Some ((partial_sum row k - q_jk / 2
                - (if decide (k = 0)%nat then q_j0 / four else 0))
               / (half + Qc_of_nat k))) ∧
    (∀ j k, (j < n_xi + 4)%nat → (k < n_r + 4)%nat →
       (j < 2 ∨ n_xi + 2 ≤ j ∨ k < 2 ∨ n_r + 2 ≤ k)%nat →
       cell b_theta j k = Some 0).
Proof.
  intros Hs Hn Hdr. pose proof (Qc_pos_ne_0 _ Hdr) as Hne.
  destruct (beam_field_ok q_dist n_r n_xi dr Hs Hn Hne) as (b_theta & E & Eset).
  exists b_theta. split; [done|].
  destruct (set_interior_spec _ _ _ n_xi n_r (np_zeros_shape _ _) Eset)
    as (_ & Hshape & Hin & Hout).
  split; [done|]. split.
  - intros j k row q_jk q_j0 Hrow Hk H0.
    pose proof (has_shape_row _ _ _ _ _ Hs Hrow) as Lrow.
    rewrite Hin.
    + unfold cell. rewrite list_lookup_fmap, Hrow. cbn.
      rewrite (beam_row_lookup n_r dr row k q_jk q_j0) by done.
      f_equal. field. repeat split; try done. apply Qc_pos_ne_0, cell_center_pos.
    + destruct Hs as [<- _]. by eapply lookup_lt_Some.
    + rewrite <- Lrow. by eapply lookup_lt_Some.
  - intros j k Hj Hk Hguard. rewrite Hout by done. by apply np_zeros_cell.
Qed.

(** X8.  With at least one radial cell the field does not depend on the
    cell width: any two positive widths give the same array.  The width
    that multiplies the enclosed charge cancels against the width in the
    cell-centre radius. *)
Theorem beam_field_independent_of_dr (q_dist : grid) (n_r n_xi : nat)
    (dr dr' : Qc) :
  has_shape q_dist n_xi n_r → (1 ≤ n_r)%nat → 0 < dr → 0 < dr' →
  ∃ b_theta, beam_field q_dist n_r n_xi dr = Ok b_theta ∧
             beam_field q_dist n_r n_xi dr' = Ok b_theta.
Proof.
  intros Hs Hn Hdr Hdr'.
  destruct (beam_field_cells q_dist n_r n_xi dr Hs Hn Hdr)
    as (b & E & Hshape & Hin & Hout).
  destruct (beam_field_cells q_dist n_r n_xi dr' Hs Hn Hdr')
    as (b' & E' & Hshape' & Hin' & Hout').
  exists b. split; [done|]. rewrite E'. f_equal.
  apply (grid_ext _ _ (n_xi + 4) (n_r + 4)); [done..|].
  intros j k Hj Hk.
  destruct (decide (j < 2 ∨ n_xi + 2 ≤ j ∨ k < 2 ∨ n_r + 2 ≤ k)%nat) as [Hg|Hg].
  - by rewrite Hout, Hout'.
  - destruct (lookup_lt_is_Some_2 q_dist (j - 2)) as [row Hrow].
    { destruct Hs as [-> _]. lia. }
    pose proof (has_shape_row _ _ _ _ _ Hs Hrow) as Lrow.
    destruct (lookup_lt_is_Some_2 row (k - 2)) as [q_jk Hq]; [lia|].
    destruct (lookup_lt_is_Some_2 row 0) as [q_j0 Hq0]; [lia|].
    replace j with (j - 2 + 2)%nat by lia. replace k with (k - 2 + 2)%nat by lia.
    by rewrite (Hin _ _ _ _ _ Hrow Hq Hq0), (Hin' _ _ _ _ _ Hrow Hq Hq0).
Qed.

(** X9.  On the innermost radial cell the field is half the charge of the
    cell for a positive cell width, and minus half the charge of the cell
    for a negative one: the sum up to the cell less a half and a quarter of
    it, times [dr], over the absolute value of the radius of half a cell. *)
Theorem beam_field_on_axis (q_dist : grid) (n_r n_xi : nat) (dr : Qc)
    (j : nat) (row : list Qc) (q_j0 : Qc) :
  has_shape q_dist n_xi n_r → (1 ≤ n_r)%nat → dr ≠ 0 →
  q_dist !! j = Some row → row !! 0%nat = Some q_j0 →
  ∃ b_theta, beam_field q_dist n_r n_xi dr = Ok b_theta ∧
             (0 < dr → cell b_theta (j + 2) 2 = Some (q_j0 / 2)) ∧
             (dr < 0 → cell b_theta (j + 2) 2 = Some (- (q_j0 / 2))).
Proof.
  intros Hs Hn Hne Hrow Hq0.
  destruct (beam_field_ok q_dist n_r n_xi dr Hs Hn Hne) as (b & E & Eset).
  exists b. split; [done|].
  destruct (set_interior_spec _ _ _ n_xi n_r (np_zeros_shape _ _) Eset)
    as (_ & _ & Hin & _).
  pose proof (has_shape_row _ _ _ _ _ Hs Hrow) as Lrow.
  assert (cell b (j + 2) 2
          = Some ((q_j0 - q_j0 / 2 - q_j0 / four) * dr
                  / np_abs ((half + Qc_of_nat 0) * dr))) as Hcell.
  { change 2%nat with (0 + 2)%nat at 2. rewrite Hin.
    - unfold cell. rewrite list_lookup_fmap, Hrow. cbn.
      rewrite (beam_row_lookup_any n_r dr row 0 q_j0 q_j0) by done.
      assert (partial_sum row 0 = q_j0) as ->.
      { unfold partial_sum. destruct row as [|x row]; [done|]. cbn in *.
        rewrite take_0. cbn. simplify_eq. ring. }
      by destruct (decide (0 = 0)%nat).
    - destruct Hs as [<- _]. by eapply lookup_lt_Some.
    - lia. }
  assert (half + Qc_of_nat 0 = 1 / 2) as Ehalf by (by apply Qc_is_canon).
  split.
  - intros Hdr. rewrite Hcell, np_abs_radius_pos by done. f_equal.
    rewrite Ehalf. replace four with (2 * 2) by (by apply Qc_is_canon).
    field. done.
  - intros Hdr. rewrite Hcell, np_abs_radius_neg by done. f_equal.
    rewrite Ehalf. replace four with (2 * 2) by (by apply Qc_is_canon).
    assert (- dr ≠ 0) as Hneg.
    { intros E0. apply (f_equal Qcopp) in E0. rewrite Qcopp_involutive in E0.
      by replace (- 0) with 0 in E0 by ring. }
    field. repeat split; done.
Qed.

Lemma partial_sum_zip_with (r1 : list Qc) : ∀ (r2 : list Qc) (k : nat),
  length r1 = length r2 →
  partial_sum (zip_with Qcplus r1 r2) k = partial_sum r1 k + partial_sum r2 k.
Proof.
  unfold partial_sum.
  induction r1 as [|x r1 IH]; intros [|y r2] k Hl; try done.
  destruct k as [|k].
  - cbn. rewrite !take_0. cbn. ring.
  - cbn [zip_with take foldr]. cbn [take foldr] in IH.
    rewrite (IH r2 k) by (cbn in Hl; lia). ring.
Qed.

(** X10.  Superposition: the field of the sum of two charge distributions
    is the sum of their fields, cell by cell over the whole array. *)
Theorem beam_field_superposition (q1 q2 : grid) (n_r n_xi : nat) (dr : Qc) :
  has_shape q1 n_xi n_r → has_shape q2 n_xi n_r → (1 ≤ n_r)%nat → 0 < dr →
  ∃ b1 b2,
    beam_field q1 n_r n_xi dr = Ok b1 ∧ beam_field q2 n_r n_xi dr = Ok b2 ∧
    beam_field (zip_with (zip_with Qcplus) q1 q2) n_r n_xi dr
    = Ok (zip_with (zip_with Qcplus) b1 b2).
Proof.
  intros Hs1 Hs2 Hn Hdr.
  destruct (beam_field_cells q1 n_r n_xi dr Hs1 Hn Hdr)
    as (b1 & E1 & Hshape1 & Hin1 & Hout1).
  destruct (beam_field_cells q2 n_r n_xi dr Hs2 Hn Hdr)
    as (b2 & E2 & Hshape2 & Hin2 & Hout2).
  pose proof (zip_grid_shape Qcplus _ _ _ _ Hs1 Hs2) as Hs.
  destruct (beam_field_cells _ n_r n_xi dr Hs Hn Hdr)
    as (b & E & Hshape & Hin & Hout).
  exists b1, b2. split; [done|]. split; [done|]. rewrite E. f_equal.
  apply (grid_ext _ _ (n_xi + 4) (n_r + 4));
    [done|by apply zip_grid_shape|].
  intros j k Hj Hk.
  destruct (decide (j < 2 ∨ n_xi + 2 ≤ j ∨ k < 2 ∨ n_r + 2 ≤ k)%nat) as [Hg|Hg].
  - rewrite Hout by done.
    rewrite (zip_grid_cell Qcplus b1 b2 j k 0 0) by (by auto).
    done.
  - destruct (lookup_lt_is_Some_2 q1 (j - 2)) as [row1 Hrow1].
    { destruct Hs1 as [-> _]. lia. }
    destruct (lookup_lt_is_Some_2 q2 (j - 2)) as [row2 Hrow2].
    { destruct Hs2 as [-> _]. lia. }
    pose proof (has_shape_row _ _ _ _ _ Hs1 Hrow1) as L1.
    pose proof (has_shape_row _ _ _ _ _ Hs2 Hrow2) as L2.
    destruct (lookup_lt_is_Some_2 row1 (k - 2)) as [x Hx]; [lia|].
    destruct (lookup_lt_is_Some_2 row2 (k - 2)) as [y Hy]; [lia|].
    destruct (lookup_lt_is_Some_2 row1 0) as [x0 Hx0]; [lia|].
    destruct (lookup_lt_is_Some_2 row2 0) as [y0 Hy0]; [lia|].
    replace j with (j - 2 + 2)%nat by lia. replace k with (k - 2 + 2)%nat by lia.
    rewrite (Hin (j - 2)%nat (k - 2)%nat (zip_with Qcplus row1 row2) (x + y) (x0 + y0)).
    2: { by rewrite lookup_zip_with, Hrow1; cbn; rewrite Hrow2. }
    2: { by rewrite lookup_zip_with, Hx; cbn; rewrite Hy. }
    2: { by rewrite lookup_zip_with, Hx0; cbn; rewrite Hy0. }
    erewrite zip_grid_cell; [|by eapply Hin1|by eapply Hin2].
    f_equal. rewrite partial_sum_zip_with by lia.
    pose proof (Qc_pos_ne_0 _ (cell_center_pos (k - 2))) as Hc.
    destruct (decide (k - 2 = 0)%nat); field; done.
Qed.

Lemma add_quarter_first_column_empty (a b : grid) (rb : list Qc) :
  add_quarter_first_column ([] :: a) (rb :: b) = Raise IndexError.
Proof. reflexivity. Qed.

(** X11.  With no radial cell and at least one slice the beam source
    raises [IndexError]: the first column of the distribution, which the
    axis correction reads, does not exist. *)
Theorem beam_field_no_radial_cell (q_dist : grid) (n_xi : nat) (dr : Qc) :
  has_shape q_dist n_xi 0 → (1 ≤ n_xi)%nat →
  beam_field q_dist 0 n_xi dr = Raise IndexError.
Proof.
  intros [Hr Hc] Hn. unfold beam_field.
  destruct q_dist as [|row q]; [cbn in Hr; lia|].
  apply Forall_cons in Hc as [Hrow _].
  destruct row; [|done]. done.
Qed.

Lemma beam_field_independent_of_dr_witness :
  ∃ b_theta,
    beam_field [[1; 2]; [Q2Qc 3; four]] 2 2 (Q2Qc (1 # 2)) = Ok b_theta ∧
    beam_field [[1; 2]; [Q2Qc 3; four]] 2 2 2 = Ok b_theta.
Proof.
  apply (beam_field_independent_of_dr [[1; 2]; [Q2Qc 3; four]] 2 2 (Q2Qc (1 # 2)) 2).
  - split; [reflexivity|]. repeat constructor.
  - lia.
  - reflexivity.
  - reflexivity.
Defined.

Lemma beam_field_on_axis_witness :
  ∃ b_theta,
    beam_field [[1; 2]; [Q2Qc 3; four]] 2 2 (- Q2Qc (1 # 2)) = Ok b_theta ∧
    cell b_theta 3 2 = Some (- (Q2Qc 3 / 2)).
Proof.
  destruct (beam_field_on_axis [[1; 2]; [Q2Qc 3; four]] 2 2 (- Q2Qc (1 # 2)) 1
              [Q2Qc 3; four] (Q2Qc 3)) as (b_theta & E & _ & Hneg).
  - split; [reflexivity|]. repeat constructor.
  - lia.
  - discriminate.
  - reflexivity.
  - reflexivity.
  - exists b_theta. split; [exact E|]. apply Hneg. reflexivity.
Defined.

Lemma beam_field_superposition_witness :
  ∃ b1 b2,
    beam_field [[1; 2]] 2 1 (Q2Qc (1 # 2)) = Ok b1 ∧
    beam_field [[Q2Qc 3; four]] 2 1 (Q2Qc (1 # 2)) = Ok b2 ∧
    beam_field (zip_with (zip_with Qcplus) [[1; 2]] [[Q2Qc 3; four]]) 2 1
      (Q2Qc (1 # 2))
    = Ok (zip_with (zip_with Qcplus) b1 b2).
Proof.
  apply (beam_field_superposition [[1; 2]] [[Q2Qc 3; four]] 2 1 (Q2Qc (1 # 2))).
  - split; [reflexivity|]. repeat constructor.
  - split; [reflexivity|]. repeat constructor.
  - lia.
  - reflexivity.
Defined.

Lemma beam_field_no_radial_cell_witness :
  beam_field [[]; []] 0 2 1 = Raise IndexError.
Proof.
  apply (beam_field_no_radial_cell [[]; []] 2 1).
  - split; [reflexivity|]. repeat constructor.
  - lia.
Defined.

(** * Further properties of the prologue: the grid coordinates *)

Lemma np_linspace_lookup (start stop : Qc) (num i : nat) :
  (i < num)%nat → num ≠ 1%nat →
  np_linspace start stop num !! i
  = Some (start + Qc_of_nat i * ((stop - start) / Qc_of_Z (Z.of_nat num - 1))).
Proof.
  intros Hi Hn. unfold np_linspace.
  destruct num as [|[|num]]; [lia|done|].
  by rewrite list_lookup_fmap, lookup_seq_lt.
Qed.

Lemma getitem_Ok_lt (l : list Qc) (i : nat) (x : Qc) :
  getitem l i = Ok x → (i < length l)%nat.
Proof. intros Hx%getitem_Ok. by eapply lookup_lt_Some. Qed.

Section PrologueValues.
Context `{PlasmaRoutines}.

(** The values that a returned prologue has computed. *)
Lemma prologue_values (a : args) (f : frame) (st : state) :
  prologue a = Ok (f, st) →
  let s_d := plasma_skin_depth (n_p a * micro) in
  s_d ≠ 0 ∧ (1 ≤ n_r a)%nat ∧ (2 ≤ n_xi a)%nat ∧
  dr f = r_max a / s_d / Qc_of_nat (n_r a) ∧
  dxi f = (xi_max a / s_d - xi_min a / s_d) / Qc_of_Z (Z.of_nat (n_xi a) - 1) ∧
  xi_min_n f = xi_min a / s_d ∧
  r_fld f = np_linspace (dr f / 2) (r_max a / s_d - dr f / 2) (n_r a) ∧
  xi_fld f = np_linspace (xi_min a / s_d) (xi_max a / s_d) (n_xi a) ∧
  (∃ q_dist, beam_field q_dist (n_r a) (n_xi a) (dr f) = Ok (b_theta_0_mesh f)) ∧
  psi_rz st = np_zeros (n_xi a + 4) (n_r a + 4) ∧
  b_theta_bar_rz st = np_zeros (n_xi a + 4) (n_r a + 4).
Proof.
  unfold prologue. intros Hpro. cbv zeta.
  destruct (np_divide (r_max a) _) as [rm|] eqn:E1; [cbn in Hpro|done].
  destruct (np_divide (xi_min a) _) as [x0|] eqn:E2; [cbn in Hpro|done].
  destruct (np_divide (xi_max a) _) as [x1|] eqn:E3; [cbn in Hpro|done].
  destruct (np_divide rm _) as [d|] eqn:E4; [cbn in Hpro|done].
  destruct (np_divide (x1 - x0) _) as [dx|] eqn:E5; [cbn in Hpro|done].
  destruct (match r_max_plasma_arg a with Some _ => _ | None => _ end)
    as [rmp|] eqn:E6; [cbn in Hpro|done].
  destruct (set_interior _ (laser_a2 a)) as [a2|] eqn:E7; [cbn in Hpro|done].
  destruct (set_interior _ (radial_gradient _ _)) as [na2|] eqn:E8;
    [cbn in Hpro|done].
  destruct (getitem (np_linspace _ _ (n_r a)) 0) as [r0|] eqn:E9;
    [cbn in Hpro|done].
  destruct (getitem (np_linspace _ _ (n_xi a)) 0) as [xi0|] eqn:E10;
    [cbn in Hpro|done].
  destruct (calculate_beam_source_from_particles _ _ _ _ _ _ _ _ _)
    as [b0|] eqn:E11; [cbn in Hpro|done].
  injection Hpro as <- <-. cbn.
  apply np_divide_Ok in E1 as [Hsd ->]. apply np_divide_Ok in E2 as [_ ->].
  apply np_divide_Ok in E3 as [_ ->]. apply np_divide_Ok in E4 as [Hnr ->].
  apply np_divide_Ok in E5 as [Hnxi ->].
  apply getitem_Ok_lt in E9, E10. rewrite np_linspace_length in E9, E10.
  split; [done|]. split; [lia|]. split.
  { destruct (decide (n_xi a = 1)%nat) as [E|]; [|lia].
    destruct Hnxi. rewrite E. exact Z2Qc_inj_0. }
  do 5 (split; [done|]). split; [|done].
  unfold calculate_beam_source_from_particles in E11.
  destruct (beam_charge_distribution _ _ _ _ _ _ _ _ _) as [q|] in E11;
    [cbn in E11|done].
  by exists q.
Qed.

(** The coordinates of line 127 for the cell width of line 95, whatever
    the radial extent: zero and negative extents included. *)
Lemma np_linspace_cell_centres (rm : Qc) (n k : nat) :
  (k < n)%nat →
  np_linspace (rm / Qc_of_nat n / 2) (rm - rm / Qc_of_nat n / 2) n !! k
  = Some ((half + Qc_of_nat k) * (rm / Qc_of_nat n)).
Proof.
  intros Hk.
  assert (Qc_of_nat n ≠ 0) as Hn by (apply Qc_of_Z_ne_0; lia).
  destruct (decide (n = 1)%nat) as [E1|E1].
  - rewrite E1 in *. assert (k = 0)%nat as -> by lia. cbn. f_equal.
    replace half with (1 / 2) by (by apply Qc_is_canon).
    replace (Qc_of_nat 0) with 0 by (by apply Qc_is_canon).
    field. done.
  - rewrite np_linspace_lookup by done. f_equal.
    assert (Qc_of_Z (Z.of_nat n - 1) ≠ 0) as Hn1 by (apply Qc_of_Z_ne_0; lia).
    assert (Qc_of_nat n = Qc_of_Z (Z.of_nat n - 1) + 1) as En.
    { unfold Qc_of_nat. rewrite <- Z2Qc_inj_1, <- Z2Qc_inj_add. f_equal. lia. }
    rewrite En in *.
    replace half with (1 / 2) by (by apply Qc_is_canon).
    field. by split.
Qed.

(** X12.  With [dr = r_max / n_r] as in line 95, the coordinates
    [np.linspace(dr / 2, r_max - dr / 2, n_r)] of line 127 are the cell
    centres [(0.5 + k) * dr], the radii that the beam source uses, for
    every radial extent, zero and negative ones included.  They are the
    radial coordinates [r_fld] of every setup that returns, which in the
    embedding is a setup without a zero divisor. *)
Theorem r_fld_cell_centres (a : args) (k : nat) :
  (k < n_r a)%nat →
  (∀ rm : Qc,
     let d := rm / Qc_of_nat (n_r a) in
     np_linspace (d / 2) (rm - d / 2) (n_r a) !! k
     = Some ((half + Qc_of_nat k) * d)) ∧
  (∀ f st, prologue a = Ok (f, st) →
           r_fld f !! k = Some ((half + Qc_of_nat k) * dr f)).
Proof.
  intros Hk. split.
  - intros rm. cbv zeta. by apply np_linspace_cell_centres.
  - intros f st Hpro.
    destruct (prologue_values _ _ _ Hpro)
      as (_ & _ & _ & Hdr & _ & _ & -> & _).
    rewrite Hdr. by apply np_linspace_cell_centres.
Qed.


End PrologueValues.

Lemma r_fld_cell_centres_witness :
  np_linspace (0 / Qc_of_nat 3 / 2) (0 - 0 / Qc_of_nat 3 / 2) 3 !! 2%nat
  = Some ((half + Qc_of_nat 2) * (0 / Qc_of_nat 3)) ∧
  r_fld (Sample.start (H := Sample.model) (Sample.inputs (Q2Qc 3) "rk4")).1
    !! 2%nat
  = Some ((half + Qc_of_nat 2)
          * dr (Sample.start (H := Sample.model) (Sample.inputs (Q2Qc 3) "rk4")).1).
Proof.
  destruct (r_fld_cell_centres (H := Sample.model)
              (Sample.inputs (Q2Qc 3) "rk4") 2) as [Hany Hrun].
  - vm_compute. lia.
  - split.
    + exact (Hany 0).
    + apply (Hrun
               (Sample.start (H := Sample.model) (Sample.inputs (Q2Qc 3) "rk4")).1
               (Sample.start (H := Sample.model) (Sample.inputs (Q2Qc 3) "rk4")).2).
      vm_compute. reflexivity.
Defined.



(** * Further properties of the sweep: the rows and the guard cells *)

Lemma beam_field_guard (q_dist b_theta : grid) (n_r n_xi : nat) (dr : Qc)
    (j k : nat) :
  beam_field q_dist n_r n_xi dr = Ok b_theta →
  (j < n_xi + 4)%nat → (k < n_r + 4)%nat →
  (j < 2 ∨ n_xi + 2 ≤ j ∨ k < 2 ∨ n_r + 2 ≤ k)%nat →
  cell b_theta j k = Some 0.
Proof.
  unfold beam_field. intros Hb Hj Hk Hguard.
  destruct (add_quarter_first_column _ _) in Hb; [cbn in Hb|done].
  destruct (grid_map2 _ _ _) in Hb; [cbn in Hb|done].
  destruct (grid_rowwise _ _ _) in Hb; [cbn in Hb|done].
  destruct (set_interior_spec _ _ _ n_xi n_r (np_zeros_shape _ _) Hb)
    as (_ & _ & _ & Hout).
  rewrite Hout by done. by apply np_zeros_cell.
Qed.

(** The row that [psi[i - 2, ...]] with [i = -1 - step] addresses. *)
Lemma py_index_slice_row (n step : nat) :
  (step < n)%nat →
  py_index (n + 4) (- 1 - Z.of_nat step - 2) = Ok (n + 1 - step)%nat.
Proof.
  intros Hs. unfold py_index.
  destruct (decide _) as [|_]; [lia|]. destruct (decide _) as [_|]; [|lia].
  f_equal. lia.
Qed.

Section SweepGrids.
Context `{PlasmaRoutines}.

(** What a slice writes into [psi] and [b_theta_bar], and what it leaves. *)
Lemma slice_rows (a : args) (f : frame) (step : nat) (st st' : state)
    (l : list event) :
  slice a f step st = Done l st' → grids_shaped a st → (step < n_xi a)%nat →
  ∃ l1 xi idx p',
    particle_steps a f step (pp st) = Done l1 (xi, idx, p') ∧
    (∀ c, (c < n_r a)%nat →
       cell (psi_rz st') (n_xi a + 1 - step) (c + 2)
       = calculate_psi (r_fld f) (arrays p' pp_r) (arrays p' pp_q) idx
           (r_max_plasma p') (parabolic_coefficient p') !! c ∧
       cell (b_theta_bar_rz st') (n_xi a + 1 - step) (c + 2)
       = calculate_b_theta (r_fld f) (arrays p' pp_r) (arrays p' pp_pr)
           (arrays p' pp_q) (arrays p' pp_gamma) (arrays p' psi_pp)
           (arrays p' dr_psi_pp) (arrays p' dxi_psi_pp) (arrays p' b_theta_0_pp)
           (arrays p' nabla_a2_pp) idx !! c) ∧
    (∀ j c, (j ≠ n_xi a + 1 - step ∨ c < 2 ∨ n_r a + 2 ≤ c)%nat →
       cell (psi_rz st') j c = cell (psi_rz st) j c ∧
       cell (b_theta_bar_rz st') j c = cell (b_theta_bar_rz st) j c).
Proof.
  intros Hslice (Hpsi & Hbt & _ & _) Hstep.
  apply slice_Done in Hslice
    as (l1 & xi & idx & p' & l2 & st1 & l3 & p'' & Hpart & Hfields & _ & -> & _).
  apply field_steps_Done in Hfields
    as (w_rho & w_chi & r_first & Epsi & Ebt & _).
  cbn in *.
  apply (set_row_inner_spec _ _ _ _ (n_xi a + 4) (n_r a)) in Epsi
    as (k1 & Ek1 & _ & _ & Hin1 & Hrows1 & Hcols1); [|done].
  apply (set_row_inner_spec _ _ _ _ (n_xi a + 4) (n_r a)) in Ebt
    as (k2 & Ek2 & _ & _ & Hin2 & Hrows2 & Hcols2); [|done].
  rewrite py_index_slice_row in Ek1, Ek2 by done.
  injection Ek1 as <-. injection Ek2 as <-.
  exists l1, xi, idx, p'. split; [done|]. split.
  - intros c Hc. by rewrite Hin1, Hin2.
  - intros j c Hjc.
    destruct (decide (j = n_xi a + 1 - step)%nat) as [->|Hj].
    + rewrite Hcols1, Hcols2 by lia. done.
    + by rewrite Hrows1, Hrows2.
Qed.

(** X15.  The slice [step] writes the row [n_xi + 1 - step] of [psi] and
    of [b_theta_bar], between the guard columns, with the rows that the two
    solvers return for the particles of the slice; it changes no other row
    and no guard column of these arrays. *)
Theorem slice_writes_one_row (a : args) (f : frame) (step : nat)
    (st st' : state) (l : list event) :
  slice a f step st = Done l st' → grids_shaped a st → (step < n_xi a)%nat →
  ∃ l1 xi idx p',
    particle_steps a f step (pp st) = Done l1 (xi, idx, p') ∧
    (2 ≤ n_xi a + 1 - step < n_xi a + 2)%nat ∧
    (∀ c, (c < n_r a)%nat →
       cell (psi_rz st') (n_xi a + 1 - step) (c + 2)
       = calculate_psi (r_fld f) (arrays p' pp_r) (arrays p' pp_q) idx
           (r_max_plasma p') (parabolic_coefficient p') !! c ∧
       cell (b_theta_bar_rz st') (n_xi a + 1 - step) (c + 2)
       = calculate_b_theta (r_fld f) (arrays p' pp_r) (arrays p' pp_pr)
           (arrays p' pp_q) (arrays p' pp_gamma) (arrays p' psi_pp)
           (arrays p' dr_psi_pp) (arrays p' dxi_psi_pp) (arrays p' b_theta_0_pp)
           (arrays p' nabla_a2_pp) idx !! c) ∧
    (∀ j c, (j ≠ n_xi a + 1 - step ∨ c < 2 ∨ n_r a + 2 ≤ c)%nat →
       cell (psi_rz st') j c = cell (psi_rz st) j c ∧
       cell (b_theta_bar_rz st') j c = cell (b_theta_bar_rz st) j c).
Proof.
  intros Hslice Hs Hstep.
  destruct (slice_rows _ _ _ _ _ _ Hslice Hs Hstep)
    as (l1 & xi & idx & p' & Hpart & Hin & Hout).
  exists l1, xi, idx, p'. split; [done|]. split; [lia|]. done.
Qed.

(** The sweep leaves the guard cells of [psi] and [b_theta_bar] as they
    were. *)
Lemma sweep_guard (a : args) (f : frame) (steps : list nat) :
  ∀ (st st' : state) (l : list event),
    sweep a f steps st = Done l st' → grids_shaped a st →
    Forall (λ s, s < n_xi a)%nat steps →
    ∀ j c, (j < 2 ∨ n_xi a + 2 ≤ j ∨ c < 2 ∨ n_r a + 2 ≤ c)%nat →
      cell (psi_rz st') j c = cell (psi_rz st) j c ∧
      cell (b_theta_bar_rz st') j c = cell (b_theta_bar_rz st) j c.
Proof.
  induction steps as [|step steps IH]; intros st st' l Hsweep Hs Hall j c Hg;
    cbn in Hsweep.
  - by injection Hsweep as <- <-.
  - apply bind_Done in Hsweep as (l1 & st1 & l2 & Hslice & Hrest & _).
    apply Forall_cons in Hall as [Hstep Hall].
    destruct (slice_rows _ _ _ _ _ _ Hslice Hs Hstep) as (_ & _ & _ & _ & _ & _ & Hout).
    pose proof (slice_shaped _ _ _ _ _ _ Hslice Hs) as Hs1.
    destruct (IH _ _ _ Hrest Hs1 Hall j c Hg) as [-> ->].
    apply Hout. lia.
Qed.

Lemma calculate_wakefields_Done (a : args) (l : list event) (out : fields) :
  calculate_wakefields a = Done l out →
  ∃ f st0 st W_r,
    prologue a = Ok (f, st0) ∧
    sweep a f (seq 0 (n_xi a)) st0 = Done l st ∧
    epilogue a f st = Ok (W_r, out).
Proof.
  unfold calculate_wakefields. intros Hrun.
  apply bind_Done in Hrun as (l0 & [f st0] & l1 & Hpro & Hrun & ->).
  apply lift_Done in Hpro as [Hpro ->].
  apply bind_Done in Hrun as (l2 & st & l3 & Hsweep & Hrun & ->).
  apply bind_Done in Hrun as (l4 & [W_r out'] & l5 & Hepi & Hrun & ->).
  apply lift_Done in Hepi as [Hepi ->]. apply mret_Done in Hrun as [-> ->].
  cbn. rewrite app_nil_r. by exists f, st0, st, W_r.
Qed.

(** X16.  In the arrays [E_z], [B_theta] and [E_r] that a run returns,
    every guard cell is zero: the two rows and the two columns on each side
    of the grid carry no field. *)
Theorem guard_cells_zero (a : args) (l : list event) (out : fields) (j k : nat) :
  calculate_wakefields a = Done l out →
  (j < n_xi a + 4)%nat → (k < n_r a + 4)%nat →
  (j < 2 ∨ n_xi a + 2 ≤ j ∨ k < 2 ∨ n_r a + 2 ≤ k)%nat →
  cell (out_E_z out) j k = Some 0 ∧ cell (out_B_theta out) j k = Some 0 ∧
  cell (out_E_r out) j k = Some 0.
Proof.
  intros Hrun Hj Hk Hguard.
  apply calculate_wakefields_Done in Hrun as (f & st0 & st & W_r & Hpro & Hsweep & Hepi).
  destruct (prologue_Ok _ _ _ Hpro) as (_ & _ & _ & Hs1 & Hs2 & Hs3 & Hs4 & _).
  destruct (prologue_values _ _ _ Hpro)
    as (_ & _ & _ & _ & _ & _ & _ & _ & [q Hb0] & Epsi & Ebar).
  destruct (sweep_guard _ _ _ _ _ _ Hsweep (conj Hs1 (conj Hs2 (conj Hs3 Hs4))))
    with (j := j) (c := k) as [_ Hbar]; [|done|].
  { apply Forall_forall. intros s Hin%elem_of_seq. lia. }
  rewrite Ebar, np_zeros_cell in Hbar by done.
  pose proof (beam_field_guard _ _ _ _ _ j k Hb0 Hj Hk Hguard) as Hb0c.
  unfold epilogue in Hepi.
  destruct (np_gradient _ _ _) as [[dxi_psi dr_psi]|] eqn:Egrad; [cbn in Hepi|done].
  destruct (set_interior _ (grid_map Qcopp dxi_psi)) as [E_z|] eqn:Ez;
    [cbn in Hepi|done].
  destruct (set_interior _ (grid_map Qcopp dr_psi)) as [W|] eqn:Ew;
    [cbn in Hepi|done].
  destruct (grid_map2 _ (b_theta_bar_rz st) _) as [B|] eqn:Eb; [cbn in Hepi|done].
  destruct (grid_map2 _ W B) as [E_r|] eqn:Er; [cbn in Hepi|done].
  injection Hepi as <- <-. cbn.
  destruct (set_interior_spec _ _ _ _ _ (np_zeros_shape _ _) Ez)
    as (_ & _ & _ & HoutEz).
  destruct (set_interior_spec _ _ _ _ _ (np_zeros_shape _ _) Ew)
    as (_ & _ & _ & HoutW).
  apply grid_map2_total2_inv in Eb as (_ & ->).
  apply grid_map2_total2_inv in Er as (_ & ->).
  assert (cell W j k = Some 0) as HW.
  { rewrite HoutW by done. by apply np_zeros_cell. }
  pose proof (zip_grid_cell Qcplus _ _ j k _ _ Hbar Hb0c) as HB.
  split; [|split].
  - rewrite HoutEz by done. by apply np_zeros_cell.
  - rewrite HB. done.
  - rewrite (zip_grid_cell Qcplus _ _ j k _ _ HW HB). done.
Qed.
End SweepGrids.

Lemma slice_writes_one_row_witness :
  ∃ l st',
    slice (H := Sample.model) (Sample.inputs (Q2Qc 3) "rk4")
      (Sample.start (H := Sample.model) (Sample.inputs (Q2Qc 3) "rk4")).1 0
      (Sample.start (H := Sample.model) (Sample.inputs (Q2Qc 3) "rk4")).2
    = Done l st' ∧
    cell (psi_rz st') 3 2
    = cell (psi_rz (Sample.start (H := Sample.model)
                      (Sample.inputs (Q2Qc 3) "rk4")).2) 3 2.
Proof.
  do 2 eexists. split; [vm_compute; reflexivity|].
  destruct (slice_writes_one_row (H := Sample.model)
              (Sample.inputs (Q2Qc 3) "rk4")
              (Sample.start (H := Sample.model) (Sample.inputs (Q2Qc 3) "rk4")).1 0
              (Sample.start (H := Sample.model) (Sample.inputs (Q2Qc 3) "rk4")).2
              _ _ ltac:(vm_compute; reflexivity))
    as (l1 & xi & idx & p' & _ & _ & _ & Hout).
  - repeat split; repeat constructor.
  - vm_compute. lia.
  - apply (Hout 3%nat 2%nat). left. vm_compute. lia.
Defined.

Lemma guard_cells_zero_witness :
  ∃ l out,
    calculate_wakefields (H := Sample.model) (Sample.inputs (Q2Qc 3) "rk4")
      = Done l out ∧
    cell (out_E_r out) 1 3 = Some 0.
Proof.
  do 2 eexists. split; [vm_compute; reflexivity|].
  eapply (guard_cells_zero (H := Sample.model) (Sample.inputs (Q2Qc 3) "rk4")
            _ _ 1 3).
  - vm_compute. reflexivity.
  - vm_compute. lia.
  - vm_compute. lia.
  - left. lia.
Defined.

(** * Further properties of the sweep: the pusher and the particle count *)

Section SweepCalls.
Context `{PlasmaRoutines}.

(** The pusher call of a slice, by the position of the slice. *)
Lemma advance_log (a : args) (f : frame) (step : nat) (xi : Qc)
    (p p'' : PlasmaParticles) (l : list event) :
  advance a f step xi p = Done l p'' →
  l = if decide (Z.of_nat step < Z.of_nat (n_xi a) - 1)%Z
      then [Push step (plasma_pusher a)] else [].
Proof.
  unfold advance. destruct (decide _); [|by intros [= <- _]].
  destruct (decide (plasma_pusher a = "ab5")) as [E|_].
  { intros [= <- _]. by rewrite E. }
  destruct (decide (plasma_pusher a = "rk4")) as [E|_].
  { intros [= <- _]. by rewrite E. }
  done.
Qed.

Lemma slice_pushes (a : args) (f : frame) (step : nat) (st st' : state)
    (l : list event) :
  slice a f step st = Done l st' →
  pushes l = if decide (Z.of_nat step < Z.of_nat (n_xi a) - 1)%Z
             then [(step, plasma_pusher a)] else [].
Proof.
  intros Hslice.
  apply slice_Done in Hslice
    as (l1 & xi & idx & p' & l2 & st1 & l3 & p'' & Hpart & Hfields & Hadv & _ & ->).
  apply particle_steps_Done in Hpart
    as (s2 & s3 & s5 & bt & _ & _ & _ & _ & _ & _ & _ & _ & ->).
  apply field_steps_Done in Hfields as (? & ? & ? & _ & _ & _ & _ & _ & _ & _ & ->).
  apply advance_log in Hadv as ->.
  unfold pushes. rewrite !omap_app. cbn. by destruct (decide _).
Qed.

Lemma sweep_pushes (a : args) (f : frame) : ∀ (m k : nat) (st st' : state)
    (l : list event),
  (k + m = n_xi a)%nat →
  sweep a f (seq k m) st = Done l st' →
  pushes l = (λ step, (step, plasma_pusher a)) <$> seq k (m - 1).
Proof.
  induction m as [|m IH]; intros k st st' l Hk Hsweep; cbn [seq sweep] in Hsweep.
  - by injection Hsweep as <- <-.
  - apply bind_Done in Hsweep as (l1 & st1 & l2 & Hslice & Hrest & ->).
    unfold pushes. rewrite omap_app. fold (pushes l1). fold (pushes l2).
    rewrite (slice_pushes _ _ _ _ _ _ Hslice).
    rewrite (IH (S k) st1 st' l2) by (done || lia).
    destruct (decide _) as [Hlt|Hge].
    + destruct m as [|m]; [lia|]. cbn. by rewrite Nat.sub_0_r.
    + assert (m = 0)%nat as -> by lia. done.
Qed.

(** X17.  A run that returns has called the pusher once after every slice
    but the last, in the order of the slices and each time the pusher that
    was named: [n_xi - 1] calls in all. *)
Theorem pusher_called_between_slices (a : args) (l : list event) (out : fields) :
  calculate_wakefields a = Done l out →
  pushes l = (λ step, (step, plasma_pusher a)) <$> seq 0 (n_xi a - 1).
Proof.
  intros Hrun.
  apply calculate_wakefields_Done in Hrun as (f & st0 & st & W_r & _ & Hsweep & _).
  by apply (sweep_pushes a f (n_xi a) 0 st0 st l).
Qed.

(** X18.  A run returns only on a grid of at least three slices and at
    least three radial cells: [np.gradient] with [edge_order=2] needs three
    points along each axis. *)
Theorem returns_need_three_cells (a : args) (l : list event) (out : fields) :
  calculate_wakefields a = Done l out →
  (3 ≤ n_xi a)%nat ∧ (3 ≤ n_r a)%nat.
Proof.
  intros Hrun.
  apply calculate_wakefields_Done in Hrun as (f & st0 & st & W_r & Hpro & Hsweep & Hepi).
  destruct (prologue_Ok _ _ _ Hpro) as (_ & _ & _ & Hs1 & Hs2 & Hs3 & Hs4 & _).
  assert (grids_shaped a st) as (Hpsi & _).
  { eapply sweep_shaped; [done|]. exact (conj Hs1 (conj Hs2 (conj Hs3 Hs4))). }
  unfold epilogue in Hepi.
  destruct (np_gradient _ _ _) as [[dxi_psi dr_psi]|] eqn:Egrad; [|done].
  pose proof (interior_shape _ _ _ Hpsi) as Hint.
  by destruct (np_gradient_Ok _ _ _ _ _ _ _ Hint Egrad) as (Hn3 & Hr3 & _).
Qed.

(** X19.  With fewer than three slices the derived fields cannot be
    computed: on a potential grid of [n_xi + 4] by [n_r + 4] entries the
    last step raises the [ValueError] of [np.gradient], whatever the
    spacings are, the size of the axis being checked before anything is
    divided.  In a run whose setup and sweep complete, the error comes
    after all the slices have been computed, with the log of the whole
    sweep. *)
Theorem two_slices_fail_after_the_sweep (a : args) (f : frame) (st0 st : state)
    (l : list event) :
  (n_xi a < 3)%nat →
  (has_shape (psi_rz st) (n_xi a + 4) (n_r a + 4) →
   ∃ msg, epilogue a f st = Raise (ValueError msg)) ∧
  (prologue a = Ok (f, st0) →
   sweep a f (seq 0 (n_xi a)) st0 = Done l st →
   ∃ msg, calculate_wakefields a = Failed l (ValueError msg)).
Proof.
  intros Hn.
  assert (has_shape (psi_rz st) (n_xi a + 4) (n_r a + 4) →
          ∃ msg, epilogue a f st = Raise (ValueError msg)) as Hepi.
  { intros Hpsi. pose proof (interior_shape _ _ _ Hpsi) as [Hrows _].
    eexists. unfold epilogue, np_gradient, gradient_along. rewrite Hrows.
    destruct (decide (n_xi a < 3)%nat); [|lia]. reflexivity. }
  split; [done|]. intros Hpro Hsweep.
  destruct (prologue_Ok _ _ _ Hpro) as (_ & _ & _ & Hs1 & Hs2 & Hs3 & Hs4 & _).
  assert (grids_shaped a st) as (Hpsi & _).
  { eapply sweep_shaped; [done|]. exact (conj Hs1 (conj Hs2 (conj Hs3 Hs4))). }
  destruct (Hepi Hpsi) as [msg Hmsg]. exists msg.
  unfold calculate_wakefields.
  rewrite Hpro, lift_Ok_bind, (bind_Done_l _ _ _ _ Hsweep), Hmsg.
  cbn. by rewrite app_nil_r.
Qed.
End SweepCalls.

Lemma pusher_called_between_slices_witness :
  ∃ l out,
    calculate_wakefields (H := Sample.model) (Sample.inputs (Q2Qc 3) "rk4")
      = Done l out ∧
    pushes l = [(0%nat, "rk4"); (1%nat, "rk4")].
Proof.
  do 2 eexists. split; [vm_compute; reflexivity|].
  eapply (pusher_called_between_slices (H := Sample.model)
            (Sample.inputs (Q2Qc 3) "rk4")).
  vm_compute. reflexivity.
Defined.

Lemma returns_need_three_cells_witness :
  (3 ≤ n_xi (Sample.inputs (Q2Qc 3) "rk4"))%nat ∧
  (3 ≤ n_r (Sample.inputs (Q2Qc 3) "rk4"))%nat.
Proof.
  eapply (returns_need_three_cells (H := Sample.model)
            (Sample.inputs (Q2Qc 3) "rk4")).
  vm_compute. reflexivity.
Defined.

Lemma two_slices_fail_after_the_sweep_witness :
  ∃ l msg,
    calculate_wakefields (H := Sample.model) two_slices
    = Failed l (ValueError msg) ∧ length l = 21%nat.
Proof.
  edestruct (two_slices_fail_after_the_sweep (H := Sample.model) two_slices
               (Sample.start (H := Sample.model) two_slices).1
               (Sample.start (H := Sample.model) two_slices).2)
    as [_ Hrun].
  - vm_compute. lia.
  - edestruct Hrun as [msg Hmsg].
    + vm_compute. reflexivity.
    + vm_compute. reflexivity.
    + eexists _, msg. split; [exact Hmsg|reflexivity].
Defined.

Section ParticleCountAlongTheSweep.
Context `{PlasmaRoutines}.

Lemma slice_count (a : args) (f : frame) (step : nat) (st st' : state)
    (l : list event) :
  slice a f step st = Done l st' → uniform (arrays (pp st)) →
  length (arrays (pp st') pp_r) = length (arrays (pp st) pp_r).
Proof.
  intros Hslice Hu.
  apply slice_Done in Hslice
    as (l1 & xi & idx & p' & l2 & st1 & l3 & p'' & Hpart & Hfields & Hadv & -> & _).
  destruct (particle_steps_effect _ _ _ _ _ _ _ _ Hpart Hu) as (Hu' & Hr & _).
  apply field_steps_Done in Hfields as (? & ? & ? & _ & _ & _ & _ & _ & _ & Hpp & _).
  cbn in Hpp. rewrite Hpp in Hadv. cbn. rewrite <- Hr.
  apply advance_Done in Hadv as [[_ ->]|[(_ & _ & ->)|(_ & _ & ->)]].
  - done.
  - by apply evolve_plasma_ab5_uniform.
  - by apply evolve_plasma_rk4_uniform.
Qed.

(** X20.  The number of plasma particles is the same in every slice: with
    pushers that keep the length of the particle arrays, every array of
    the particles that a sweep leaves has the length that [pp.r] had when
    the sweep started. *)
Theorem sweep_keeps_particle_count (a : args) (f : frame) (steps : list nat)
    (st st' : state) (l : list event) (b : arr) :
  sweep a f steps st = Done l st' → uniform (arrays (pp st)) →
  length (arrays (pp st') b) = length (arrays (pp st) pp_r).
Proof.
  revert st st' l. induction steps as [|step steps IH];
    intros st st' l Hsweep Hu; cbn in Hsweep.
  - injection Hsweep as <- <-. apply Hu.
  - apply bind_Done in Hsweep as (l1 & st1 & l2 & Hslice & Hrest & _).
    rewrite (IH _ _ _ Hrest) by (by eapply slice_uniform).
    by eapply slice_count.
Qed.
End ParticleCountAlongTheSweep.

Lemma sweep_keeps_particle_count_witness :
  ∃ l st',
    sweep (H := Sample.model) (Sample.inputs (Q2Qc 3) "rk4")
      (Sample.start (H := Sample.model) (Sample.inputs (Q2Qc 3) "rk4")).1
      [0; 1; 2]%nat
      (Sample.start (H := Sample.model) (Sample.inputs (Q2Qc 3) "rk4")).2
    = Done l st' ∧
    length (arrays (pp st') pp_gamma) = 3%nat.
Proof.
  do 2 eexists. split; [vm_compute; reflexivity|].
  eapply (sweep_keeps_particle_count (H := Sample.model)
            (Sample.inputs (Q2Qc 3) "rk4")
            (Sample.start (H := Sample.model) (Sample.inputs (Q2Qc 3) "rk4")).1
            [0; 1; 2]%nat
            (Sample.start (H := Sample.model) (Sample.inputs (Q2Qc 3) "rk4")).2).
  - vm_compute. reflexivity.
  - intros b. destruct b; reflexivity.
Defined.
